(** * DG advection and distance examples: a shallow embedding

    The two programs under [examples/] are modelled here:
    - [exAdvection.cpp]: the discontinuous-Galerkin integrators
      ([DGFaceIntegrator], [BoundaryAdvectIntegrator],
      [AdvDomainLFIntegrator]) and the driver [main];
    - [distance.cpp]: the exact-distance coefficients and the driver [main].

    Conventions.  A C++ [double] is modelled by an exact rational ([Q]):
    rounding, infinities and NaN are outside the model.  [fabs] is [Qabs],
    [w != 0.0] is [negb (Qeq_bool w 0)].  Sizes and loop counters are [nat],
    other [int] values are [Z].  A [Vector] is the list of its entries and a
    [DenseMatrix] the list of its rows.  Library classes whose code is not
    part of the examples (finite elements, transformations, quadrature
    tables, the assembler and the solvers) appear through the members the
    examples call, as record fields or section variables. *)

From Stdlib Require Import QArith Qabs Qminmax ZArith Ascii String List Lia Lqa.
From stdpp Require Import base list strings sets.

Open Scope Q_scope.

Abbreviation Vector := (list Q).
Abbreviation DenseMatrix := (list (list Q)).

(** ** Loops *)

(** [for (int i = 0; i < n; i++) body] acting on a state [s]. *)
Definition for_ {S : Type} (n : nat) (body : nat -> S -> S) (s : S) : S :=
  foldl (fun s i => body i s) s (seq 0 n).

(** ** Vectors *)

(** [v(i)]. Reading past the end is undefined in C++; the model reads [0]. *)
Definition vget (v : Vector) (i : nat) : Q := default 0 (v !! i).

(** [v.SetSize(n); v = 0.0]. *)
Definition vzero (n : nat) : Vector := replicate n 0.

(** [Vector v(n)]: [n] entries of uninitialised storage, whose contents are
    given by [junk]. *)
Definition new_Vector (junk : nat -> Q) (n : nat) : Vector := map junk (seq 0 n).

(** [a * b], the dot product: a loop over the entries of [a]. *)
Definition vdot (a b : Vector) : Q :=
  for_ (length a) (fun i prod => prod + vget a i * vget b i) 0.

(** [v.Add(a, s)]: [v(i) += a * s(i)] for every entry of [v]. *)
Definition vAdd (v : Vector) (a : Q) (s : Vector) : Vector :=
  imap (fun i e => e + a * vget s i) v.

(** [v *= c]. *)
Definition vscale (v : Vector) (c : Q) : Vector := map (fun e => e * c) v.

(** ** Dense matrices *)

(** [m.SetSize(n); m = 0.0]. *)
Definition mzero (n : nat) : DenseMatrix := replicate n (replicate n 0).

(** [m(i,j)]. *)
Definition mget (m : DenseMatrix) (i j : nat) : Q :=
  vget (default [] (m !! i)) j.

(** [m(i,j) = f (m(i,j))]; the examples use [+=] and [-=]. *)
Definition mupd (f : Q -> Q) (i j : nat) (m : DenseMatrix) : DenseMatrix :=
  alter (alter f j) i m.

Definition madd (i j : nat) (v : Q) : DenseMatrix -> DenseMatrix :=
  mupd (fun e => e + v) i j.

Definition msub (i j : nat) (v : Q) : DenseMatrix -> DenseMatrix :=
  mupd (fun e => e - v) i j.

(** [m] has [n] rows of [n] entries. *)
Definition square (n : nat) (m : DenseMatrix) : Prop :=
  length m = n /\ Forall (fun r => length r = n) m.

(** ** Standard output *)

Inductive OutItem : Type :=
| OStr (s : string)
| OInt (z : Z)
| ONum (q : Q)
| OEndl.

(** ** Fatal errors *)

(** A call either returns or halts the process with a message. *)
Inductive Result (A : Type) : Type :=
| Ok (a : A)
| Fatal (msg : string).
Arguments Ok {A} a.
Arguments Fatal {A} msg.

(** Modelled from the spec: [mfem_error] is not part of the examples; a
    programming-contract violation "must halt immediately with a descriptive
    message", so the call never returns and the message is what remains. *)
Definition mfem_error {A : Type} (msg : string) : Result A := Fatal msg.

(** Modelled from the spec: the macro [MFEM_ASSERT] is not part of the
    examples; the spec calls it a "fatal assertion" that halts with a
    descriptive message when the condition is false. *)
Definition MFEM_ASSERT {A : Type} (cond : bool) (msg : string)
    (k : Result A) : Result A :=
  if cond then k else Fatal msg.

(** ** Quadrature, elements, transformations *)

Record IntegrationPoint : Type := {
  ip_x : Q;
  ip_y : Q;
  ip_z : Q;
  ip_weight : Q
}.

Abbreviation IntegrationRule := (list IntegrationPoint).

Inductive Geometry : Type :=
| POINT | SEGMENT | TRIANGLE | SQUARE | TETRAHEDRON | CUBE | PRISM.

Inductive FunctionSpace : Type := Pk | Qk | rQk.

Definition FunctionSpace_eqb (a b : FunctionSpace) : bool :=
  match a, b with
  | Pk, Pk | Qk, Qk | rQk, rQk => true
  | _, _ => false
  end.

(** An [ElementTransformation]: the members the integrators read, and the
    integration point last stored by [SetIntPoint]. *)
Record ElementTransformation : Type := {
  ElementNo : Z;
  OrderW : Z;
  Transform : IntegrationPoint -> Vector;
  WeightAt : IntegrationPoint -> Q;
  IntPoint : option IntegrationPoint
}.

(** [T.SetIntPoint(&ip)].  The model stores the point itself where the
    code stores its address; the two agree for as long as the variable
    pointed to lives. *)
Definition SetIntPoint (T : ElementTransformation) (ip : IntegrationPoint)
    : ElementTransformation :=
  {| ElementNo := ElementNo T; OrderW := OrderW T;
     Transform := Transform T; WeightAt := WeightAt T;
     IntPoint := Some ip |}.

(** [Trans.GetIntPoint()]; the point must have been set. *)
Definition GetIntPoint (T : ElementTransformation) : IntegrationPoint :=
  default {| ip_x := 0; ip_y := 0; ip_z := 0; ip_weight := 0 |} (IntPoint T).

Record FiniteElement : Type := {
  GetDim : nat;
  GetDof : nat;
  GetOrder : Z;
  Space : FunctionSpace;
  GetGeomType : Geometry;
  CalcShape : IntegrationPoint -> Vector;
  CalcPhysShape : ElementTransformation -> Vector
}.

(** [FaceElementTransformations]: [Elem2No < 0] marks a boundary face, for
    which [Elem2] and [Loc2] are not meaningful. *)
Record FaceElementTransformations : Type := {
  Elem1No : Z;
  Elem2No : Z;
  FaceGeom : Geometry;
  Elem1 : ElementTransformation;
  Elem2 : ElementTransformation;
  Face : ElementTransformation;
  Loc1 : IntegrationPoint -> IntegrationPoint;
  Loc2 : IntegrationPoint -> IntegrationPoint
}.

Definition set_Face (Tr : FaceElementTransformations)
    (T : ElementTransformation) : FaceElementTransformations :=
  {| Elem1No := Elem1No Tr; Elem2No := Elem2No Tr; FaceGeom := FaceGeom Tr;
     Elem1 := Elem1 Tr; Elem2 := Elem2 Tr; Face := T;
     Loc1 := Loc1 Tr; Loc2 := Loc2 Tr |}.

Definition set_Elem1 (Tr : FaceElementTransformations)
    (T : ElementTransformation) : FaceElementTransformations :=
  {| Elem1No := Elem1No Tr; Elem2No := Elem2No Tr; FaceGeom := FaceGeom Tr;
     Elem1 := T; Elem2 := Elem2 Tr; Face := Face Tr;
     Loc1 := Loc1 Tr; Loc2 := Loc2 Tr |}.

(** [Trans.Weight()]: the Jacobian weight at the point last set. *)
Definition Weight (T : ElementTransformation) : Q :=
  WeightAt T (GetIntPoint T).

(** ** Coefficients *)

(** A scalar [Coefficient] is its virtual [Eval]. *)
Record Coefficient : Type := {
  Eval : ElementTransformation -> IntegrationPoint -> Q
}.

Definition ConstantCoefficient (c : Q) : Coefficient :=
  {| Eval := fun _ _ => c |}.

(** [FunctionCoefficient(f)]: [f] at the physical point. *)
Definition FunctionCoefficient (f : Vector -> Q) : Coefficient :=
  {| Eval := fun T ip => f (Transform T ip) |}.

(** A [VectorCoefficient] fills a vector of [vdim] entries. *)
Record VectorCoefficient : Type := {
  vdim : nat;
  VEval : ElementTransformation -> IntegrationPoint -> Vector
}.

(** A [DeltaCoefficient] exposes [EvalDelta]. *)
Record DeltaCoefficient : Type := {
  EvalDelta : ElementTransformation -> IntegrationPoint -> Q
}.

(** ** exAdvection.cpp: the integrators *)

Section Integrators.

(** The global quadrature table [IntRules.Get(geom, order)]. *)
Variable IntRules_Get : Geometry -> Z -> IntegrationRule.

(** Contents of freshly allocated, uninitialised vector storage. *)
Variable junk : nat -> Q.

(** *** DGFaceIntegrator *)

(** Members of the class used by [AssembleFaceMatrix] (the scratch
    vectors [shape1] and [shape2] are resized and refilled before every
    use and are kept local here). *)
Record DGFaceIntegrator : Type := {
  dg_u : VectorCoefficient;
  dg_IntRule : option IntegrationRule
}.

(** The four accumulation loops of the face matrix. *)

(** [elmat(i, j) += w * shape1(i) * shape1(j)], [i, j < ndof1]. *)
Definition block11 (ndof1 : nat) (w : Q) (shape1 : Vector)
    : DenseMatrix -> DenseMatrix :=
  for_ ndof1 (fun i =>
    for_ ndof1 (fun j =>
      madd i j (w * vget shape1 i * vget shape1 j))).

(** [elmat(j, ndof1 + i) -= w * shape2(i) * shape1(j)],
    [i < ndof2], [j < ndof1]. *)
Definition block12 (ndof1 ndof2 : nat) (w : Q) (shape1 shape2 : Vector)
    : DenseMatrix -> DenseMatrix :=
  for_ ndof2 (fun i =>
    for_ ndof1 (fun j =>
      msub j (ndof1 + i) (w * vget shape2 i * vget shape1 j))).

(** [elmat(ndof1 + i, ndof1 + j) -= w * shape2(i) * shape2(j)],
    [i, j < ndof2]. *)
Definition block22 (ndof1 ndof2 : nat) (w : Q) (shape2 : Vector)
    : DenseMatrix -> DenseMatrix :=
  for_ ndof2 (fun i =>
    for_ ndof2 (fun j =>
      msub (ndof1 + i) (ndof1 + j) (w * vget shape2 i * vget shape2 j))).

(** [elmat(ndof1 + j, i) += w * shape1(i) * shape2(j)],
    [i < ndof1], [j < ndof2]. *)
Definition block21 (ndof1 ndof2 : nat) (w : Q) (shape1 shape2 : Vector)
    : DenseMatrix -> DenseMatrix :=
  for_ ndof1 (fun i =>
    for_ ndof2 (fun j =>
      madd (ndof1 + j) i (w * vget shape1 i * vget shape2 j))).

(** [w != 0.0]. *)
Definition nonzero (w : Q) : bool := negb (Qeq_bool w 0).

(** The normal velocity at a face point: [nor(0) = 2 * eip1.x - 1.0] is
    stored into [nor], then [un = vu * nor]. *)
Definition set_nor (nor : Vector) (eip1 : IntegrationPoint) : Vector :=
  <[0%nat := 2 * ip_x eip1 - 1.0]> nor.

(** The two upwind weights of a face point, as the code computes them
    from [a = un] and [b = fabs(un)]. *)
Definition upwind_w1 (ip : IntegrationPoint) (un : Q) : Q :=
  0.5 * ip_weight ip * (un + Qabs un).

Definition upwind_w2 (ip : IntegrationPoint) (un : Q) : Q :=
  0.5 * ip_weight ip * (un - Qabs un).

(** What one quadrature point does to [elmat], given the weights and the
    shape values computed at that point: lines 294-328. *)
Definition scatter (ndof1 ndof2 : nat) (w1 w2 : Q) (shape1 shape2 : Vector)
    (elmat : DenseMatrix) : DenseMatrix :=
  let elmat := if nonzero w1 then block11 ndof1 w1 shape1 elmat else elmat in
  if (ndof2 =? 0)%nat then elmat
  else
    let elmat :=
      if nonzero w1 then block12 ndof1 ndof2 w1 shape1 shape2 elmat
      else elmat in
    if nonzero w2
    then block21 ndof1 ndof2 w2 shape1 shape2
           (block22 ndof1 ndof2 w2 shape2 elmat)
    else elmat.

(** The variables the quadrature loop of [AssembleFaceMatrix] updates:
    the transformations (through [SetIntPoint]), the vector [nor], the
    matrix and the text written to [cout]. *)
Record FaceState : Type := {
  fs_Trans : FaceElementTransformations;
  fs_nor : Vector;
  fs_elmat : DenseMatrix;
  fs_cout : list OutItem
}.

(** The normal velocity computed at point [ip] in state [st]. *)
Definition face_un (I : DGFaceIntegrator) (st : FaceState)
    (ip : IntegrationPoint) : Q :=
  let eip1 := Loc1 (fs_Trans st) ip in
  let E1 := SetIntPoint (Elem1 (fs_Trans st)) eip1 in
  let vu := VEval (dg_u I) E1 eip1 in
  vdot vu (set_nor (fs_nor st) eip1).

(** The body of the quadrature loop, lines 265-329.  [eip2] and [shape2]
    are computed by the code only when [ndof2] is not zero; [scatter] reads
    them in that case only. *)
Definition face_point (I : DGFaceIntegrator) (el1 el2 : FiniteElement)
    (ndof1 ndof2 : nat) (st : FaceState) (ip : IntegrationPoint)
    : FaceState :=
  let Trans := fs_Trans st in
  let eip1 := Loc1 Trans ip in
  let eip2 := Loc2 Trans ip in
  let shape1 := CalcShape el1 eip1 in
  let Trans := set_Face Trans (SetIntPoint (Face Trans) ip) in
  let Trans := set_Elem1 Trans (SetIntPoint (Elem1 Trans) eip1) in
  let vu := VEval (dg_u I) (Elem1 Trans) eip1 in
  let nor := set_nor (fs_nor st) eip1 in
  let un := vdot vu nor in
  let w := upwind_w1 ip un in
  let cout :=
    if (ndof2 =? 0)%nat
    then fs_cout st ++
         [OStr "check w in bilinear form "; OEndl;
          OStr "face is "; OInt (ElementNo (Face Trans)); OEndl;
          OStr "w "; ONum w; OEndl;
          OStr " **************  "; OEndl]
    else fs_cout st in
  let shape2 := CalcShape el2 eip2 in
  {| fs_Trans := Trans;
     fs_nor := nor;
     fs_elmat :=
       scatter ndof1 ndof2 w (upwind_w2 ip un) shape1 shape2 (fs_elmat st);
     fs_cout := cout |}.

(** The quadrature order chosen when no rule was set, lines 247-263. *)
Definition face_order (el1 el2 : FiniteElement)
    (Trans : FaceElementTransformations) : Z :=
  let order :=
    if (0 <=? Elem2No Trans)%Z
    then (Z.min (OrderW (Elem1 Trans)) (OrderW (Elem2 Trans))
          + 2 * Z.max (GetOrder el1) (GetOrder el2))%Z
    else (OrderW (Elem1 Trans) + 2 * GetOrder el1)%Z in
  if FunctionSpace_eqb (Space el1) Pk then (order + 1)%Z else order.

Definition face_rule (I : DGFaceIntegrator) (el1 el2 : FiniteElement)
    (Trans : FaceElementTransformations) : IntegrationRule :=
  match dg_IntRule I with
  | Some ir => ir
  | None => IntRules_Get (FaceGeom Trans) (face_order el1 el2 Trans)
  end.

(** [ndof2], lines 233-241. *)
Definition face_ndof2 (el2 : FiniteElement)
    (Trans : FaceElementTransformations) : nat :=
  if (0 <=? Elem2No Trans)%Z then GetDof el2 else 0%nat.

(** The state on entry to the quadrature loop: [elmat] resized to
    [ndof1 + ndof2] and zeroed, [nor] freshly allocated. *)
Definition face_init (el1 el2 : FiniteElement)
    (Trans : FaceElementTransformations) (cout : list OutItem) : FaceState :=
  {| fs_Trans := Trans;
     fs_nor := new_Vector junk (GetDim el1);
     fs_elmat := mzero (GetDof el1 + face_ndof2 el2 Trans);
     fs_cout := cout |}.

(** [DGFaceIntegrator::AssembleFaceMatrix(el1, el2, Trans, elmat)].  The
    result holds the final [Trans], [elmat] and [cout]. *)
Definition AssembleFaceMatrix (I : DGFaceIntegrator)
    (el1 el2 : FiniteElement) (Trans : FaceElementTransformations)
    (cout : list OutItem) : FaceState :=
  let ndof1 := GetDof el1 in
  let ndof2 := face_ndof2 el2 Trans in
  foldl (face_point I el1 el2 ndof1 ndof2)
        (face_init el1 el2 Trans cout)
        (face_rule I el1 el2 Trans).


(** *** BoundaryAdvectIntegrator *)

Record BoundaryAdvectIntegrator : Type := {
  ba_uD : Coefficient;
  ba_u : VectorCoefficient;
  ba_IntRule : option IntegrationRule
}.

(** The variables the quadrature loop of the face version of
    [AssembleRHSElementVect] updates. *)
Record RhsState : Type := {
  rs_Trans : FaceElementTransformations;
  rs_nor : Vector;
  rs_elvect : Vector;
  rs_cout : list OutItem
}.

(** The normal velocity computed at point [ip] in state [st]; here the
    velocity is evaluated on [Elem1] as the caller left it. *)
Definition rhs_un (I : BoundaryAdvectIntegrator) (st : RhsState)
    (ip : IntegrationPoint) : Q :=
  let eip := Loc1 (rs_Trans st) ip in
  vdot (VEval (ba_u I) (Elem1 (rs_Trans st)) eip) (set_nor (rs_nor st) eip).

(** [w = -0.5 * (un - fabs(un))], the value printed to [cout]. *)
Definition inflow_w (un : Q) : Q := - 0.5 * (un - Qabs un).

(** The weight after [w *= ip.weight * uD->Eval(...)], with [uD]
    evaluated on [Elem1] at [eip]. *)
Definition rhs_weight (I : BoundaryAdvectIntegrator) (st : RhsState)
    (ip : IntegrationPoint) : Q :=
  let eip := Loc1 (rs_Trans st) ip in
  inflow_w (rhs_un I st ip)
  * (ip_weight ip * Eval (ba_uD I) (Elem1 (rs_Trans st)) eip).

(** The body of the quadrature loop, lines 357-372. *)
Definition rhs_point (I : BoundaryAdvectIntegrator) (el : FiniteElement)
    (st : RhsState) (ip : IntegrationPoint) : RhsState :=
  let Tr := rs_Trans st in
  let eip := Loc1 Tr ip in
  let shape := CalcShape el eip in
  let Tr := set_Face Tr (SetIntPoint (Face Tr) ip) in
  let vu := VEval (ba_u I) (Elem1 Tr) eip in
  let nor := set_nor (rs_nor st) eip in
  let un := vdot vu nor in
  let w := inflow_w un in
  let cout := rs_cout st ++
                [OStr "w "; ONum w; OEndl; OStr " **************  "; OEndl] in
  let w := w * (ip_weight ip * Eval (ba_uD I) (Elem1 Tr) eip) in
  {| rs_Trans := Tr;
     rs_nor := nor;
     rs_elvect := vAdd (rs_elvect st) w shape;
     rs_cout := cout |}.

(** The quadrature order chosen when no rule was set, lines 347-356. *)
Definition rhs_order (el : FiniteElement)
    (Tr : FaceElementTransformations) : Z :=
  let order := (OrderW (Elem1 Tr) + 2 * GetOrder el)%Z in
  if FunctionSpace_eqb (Space el) Pk then (order + 1)%Z else order.

Definition rhs_rule (I : BoundaryAdvectIntegrator) (el : FiniteElement)
    (Tr : FaceElementTransformations) : IntegrationRule :=
  match ba_IntRule I with
  | Some ir => ir
  | None => IntRules_Get (FaceGeom Tr) (rhs_order el Tr)
  end.

Definition rhs_init (el : FiniteElement) (Tr : FaceElementTransformations)
    (cout : list OutItem) : RhsState :=
  {| rs_Trans := Tr;
     rs_nor := new_Vector junk (GetDim el);
     rs_elvect := vzero (GetDof el);
     rs_cout := cout ++
                  [OStr "check w in linear form "; OEndl;
                   OStr "face is "; OInt (ElementNo (Face Tr)); OEndl] |}.

(** [BoundaryAdvectIntegrator::AssembleRHSElementVect(el, Tr, elvect)] for
    a [FaceElementTransformations]. *)
Definition AssembleRHSElementVect_face (I : BoundaryAdvectIntegrator)
    (el : FiniteElement) (Tr : FaceElementTransformations)
    (cout : list OutItem) : RhsState :=
  foldl (rhs_point I el) (rhs_init el Tr cout) (rhs_rule I el Tr).

Definition nl : string := String "010"%char EmptyString.

Definition not_implemented_msg : string :=
  "BoundaryFlowIntegrator::AssembleRHSElementVect" +:+ nl +:+
  "  is not implemented as boundary integrator!" +:+ nl +:+
  "  Use LinearForm::AddBdrFaceIntegrator instead of" +:+ nl +:+
  "  LinearForm::AddBoundaryIntegrator.".

(** [BoundaryAdvectIntegrator::AssembleRHSElementVect(el, Tr, elvect)] for
    a plain [ElementTransformation], lines 375-382; [elvect] is the vector
    passed in. *)
Definition AssembleRHSElementVect_elem (I : BoundaryAdvectIntegrator)
    (el : FiniteElement) (Tr : ElementTransformation) (elvect : Vector)
    : Result Vector :=
  mfem_error not_implemented_msg.

(** *** AdvDomainLFIntegrator *)

Record AdvDomainLFIntegrator : Type := {
  lf_Q : Coefficient;
  lf_delta : option DeltaCoefficient;
  lf_oa : Z;
  lf_ob : Z;
  lf_IntRule : option IntegrationRule
}.

Definition lf_rule (I : AdvDomainLFIntegrator) (el : FiniteElement)
    : IntegrationRule :=
  match lf_IntRule I with
  | Some ir => ir
  | None => IntRules_Get (GetGeomType el) (lf_oa I * GetOrder el + lf_ob I)%Z
  end.

(** The body of the quadrature loop, lines 162-169; the state is the
    transformation and the vector. *)
Definition lf_point (I : AdvDomainLFIntegrator) (el : FiniteElement)
    (st : ElementTransformation * Vector) (ip : IntegrationPoint)
    : ElementTransformation * Vector :=
  let Tr := SetIntPoint (fst st) ip in
  let val := Weight Tr * Eval (lf_Q I) Tr ip in
  let shape := CalcShape el ip in
  (Tr, vAdd (snd st) (ip_weight ip * val) shape).

(** [AdvDomainLFIntegrator::AssembleRHSElementVect(el, Tr, elvect)]. *)
Definition AssembleRHSElementVect_domain (I : AdvDomainLFIntegrator)
    (el : FiniteElement) (Tr : ElementTransformation)
    : ElementTransformation * Vector :=
  foldl (lf_point I el) (Tr, vzero (GetDof el)) (lf_rule I el).

(** [AdvDomainLFIntegrator::AssembleDeltaElementVect(fe, Trans, elvect)],
    lines 172-179.  Past the assertion [delta] is dereferenced; the branch
    for a null [delta] is not reached, the assertion having halted. *)
Definition AssembleDeltaElementVect (I : AdvDomainLFIntegrator)
    (fe : FiniteElement) (Trans : ElementTransformation) : Result Vector :=
  MFEM_ASSERT (bool_decide (is_Some (lf_delta I)))
    "coefficient must be DeltaCoefficient"
    (match lf_delta I with
     | Some delta =>
         let elvect := CalcPhysShape fe Trans in
         Ok (vscale elvect (EvalDelta delta Trans (GetIntPoint Trans)))
     | None => Fatal "null pointer dereference"
     end).

End Integrators.

(** ** Calls into the library, in program order *)

(** A driver is a sequence of library calls. It is written in a writer
    monad: a computation returns its value and the calls it made. Library
    calls are modelled as returning, so every modelled run reaches a
    [return] of [main]. *)
Definition Writer (E A : Type) : Type := (A * list E)%type.

#[global] Instance writer_ret (E : Type) : MRet (Writer E) :=
  fun A a => (a, []).

#[global] Instance writer_bind (E : Type) : MBind (Writer E) :=
  fun A B f m => (fst (f (fst m)), snd m ++ snd (f (fst m))).

Definition tell {E : Type} (e : E) : Writer E unit := (tt, [e]).

(** [if (c) { m }]. *)
Definition when_ {E : Type} (c : bool) (m : Writer E unit) : Writer E unit :=
  if c then m else mret tt.

(** [for (int i = 0; i < n; i++) { s = body(s); }] with calls. *)
Fixpoint repeatM {E S : Type} (n : nat) (body : S -> Writer E S) (s : S)
    : Writer E S :=
  match n with
  | O => mret s
  | S n' => s' ← body s; repeatM n' body s'
  end.

(** [Array<int> a(n); a = v;] *)
Definition Array_fill (n : Z) (v : Z) : list Z := replicate (Z.to_nat n) v.

(** [std::min(a, b)]: [b] when [b < a], else [a]. *)
Definition std_min (a b : Q) : Q := if Qle_bool a b then a else b.

(** ** distance.cpp *)

Module Distance.

(** The exact-distance coefficients, lines 61-90. *)

Definition ExactSegmentDistCoeff : Coefficient :=
  {| Eval := fun T ip =>
       let x := Transform T ip in
       std_min (vget x 0) (1.0 - vget x 0) |}.

Definition ExactQuadDistCoeff : Coefficient :=
  {| Eval := fun T ip =>
       let x := Transform T ip in
       std_min (std_min (vget x 0) (1.0 - vget x 0))
               (std_min (vget x 1) (1.0 - vget x 1)) |}.

Definition ExactCircleDistCoeff (sqrt : Q -> Q) : Coefficient :=
  {| Eval := fun T ip =>
       let x := Transform T ip in
       let rad := sqrt (vget x 0 * vget x 0 + vget x 1 * vget x 1) in
       1.0 - rad |}.

(** The variables set by the command line, with their defaults. *)
Record Options : Type := {
  mesh_file : string;
  rs_levels : Z;
  order : Z;
  t_param : Q;
  static_cond : bool;
  pa : bool;
  device_config : string;
  visualization : bool
}.

Definition default_options : Options :=
  {| mesh_file := "../data/star.mesh"; rs_levels := 0; order := 1;
     t_param := 1.0; static_cond := false; pa := false;
     device_config := "cpu"; visualization := true |}.

Inductive BilinearFormIntegrator : Type :=
| MassIntegrator (c : Coefficient)
| DiffusionIntegrator (c : Coefficient).

(** A [ParBilinearForm] as the driver configures it. *)
Record ParBilinearForm : Type := {
  partial_assembly : bool;
  dbfi : list BilinearFormIntegrator;
  static_condensation : bool
}.

(** A [ParLinearForm]: its integrators and its entries. *)
Record ParLinearForm : Type := {
  dlfi : list Coefficient;
  lf_data : Vector
}.

(** The preconditioners the driver can create. *)
Inductive Solver : Type :=
| HypreBoomerAMG
| OperatorJacobiSmoother (a : ParBilinearForm) (ess_tdof_list : list Z).

(** A [CGSolver]: a member is [None] until its setter is called. *)
Record CGSolver : Type := {
  rel_tol : option Q;
  max_iter : option Z;
  print_level : option Z;
  prec : option Solver
}.

Definition CGSolver_new : CGSolver :=
  {| rel_tol := None; max_iter := None; print_level := None; prec := None |}.

Definition SetRelTol (cg : CGSolver) (t : Q) : CGSolver :=
  {| rel_tol := Some t; max_iter := max_iter cg;
     print_level := print_level cg; prec := prec cg |}.

Definition SetMaxIter (cg : CGSolver) (n : Z) : CGSolver :=
  {| rel_tol := rel_tol cg; max_iter := Some n;
     print_level := print_level cg; prec := prec cg |}.

Definition SetPrintLevel (cg : CGSolver) (n : Z) : CGSolver :=
  {| rel_tol := rel_tol cg; max_iter := max_iter cg;
     print_level := Some n; prec := prec cg |}.

Definition SetPreconditioner (cg : CGSolver) (p : Solver) : CGSolver :=
  {| rel_tol := rel_tol cg; max_iter := max_iter cg;
     print_level := print_level cg; prec := Some p |}.

(** The library calls of the driver that act on the outside world or do
    the numerical work, with the arguments the driver passes. *)
Inductive Call : Type :=
| MPI_Init
| MPI_Finalize
| PrintUsage
| PrintOptions (o : Options)
| Device_new (config : string)
| Device_Print
| Mesh_new (file : string) (generate_edges refine : Z)
| Mesh_UniformRefinement
| ParMesh_new
| Mesh_Clear
| ParMesh_UniformRefinement
| Cout (items : list OutItem)
| GetEssentialTrueDofs (ess_bdr : list Z)
| ProjectBdrCoefficient (w : Vector) (c : Coefficient) (bdr : list Z)
| Assemble (a : ParBilinearForm)
| FormLinearSystem (a : ParBilinearForm) (ess_tdof_list : list Z)
    (w : Vector) (b : ParLinearForm)
| CG_Mult (cg : CGSolver) (B X : Vector)
| RecoverFEMSolution (X : Vector) (b : ParLinearForm) (w : Vector)
| ComputeL1Error (u : Vector) (exact : Coefficient)
| ComputeMaxError (u : Vector) (exact : Coefficient)
| ProjectCoefficient (c : Coefficient)
| Save_mesh (prefix : string) (rank : Z) (precision : Z)
| Save_sol (prefix : string) (rank : Z) (precision : Z) (w : Vector)
| GLVis (title : string) (x y : Z) (field : Vector)
| ParaView_Save (name : string) (levels_of_detail : Z)
    (fields : list (string * Vector)).

(** The library as the driver sees it: what each call returns. *)
Record Lib : Type := {
  MeshT : Type;
  ParMeshT : Type;
  FECollectionT : Type;
  SpaceT : Type;
  OperatorT : Type;
  (** [MPI_Comm_size], [MPI_Comm_rank] *)
  num_procs : Z;
  myid : Z;
  (** [args.Parse()]: the value of [args.Good()] and the variables *)
  Parse : list string -> Options -> bool * Options;
  Mesh_ctor : string -> Z -> Z -> MeshT;
  Dimension : MeshT -> Z;
  UniformRefinement : MeshT -> MeshT;
  ParMesh_ctor : MeshT -> ParMeshT;
  ParUniformRefinement : ParMeshT -> ParMeshT;
  (** [pmesh.GetNodes()->OwnFEC()], [None] when [GetNodes()] is null *)
  GetNodes_OwnFEC : ParMeshT -> option FECollectionT;
  FEC_Name : FECollectionT -> string;
  H1_FECollection : Z -> Z -> FECollectionT;
  bdr_attributes_Size : ParMeshT -> Z;
  bdr_attributes_Max : ParMeshT -> Z;
  ParFiniteElementSpace : ParMeshT -> FECollectionT -> SpaceT;
  GlobalTrueVSize : SpaceT -> Z;
  (** the number of entries of a grid function or linear form *)
  GetVSize : SpaceT -> nat;
  EssentialTrueDofs : SpaceT -> list Z -> list Z;
  ProjectBdr : SpaceT -> Vector -> Coefficient -> list Z -> Vector;
  Project : SpaceT -> Vector -> Coefficient -> Vector;
  LinearSystem : SpaceT -> ParBilinearForm -> list Z -> Vector ->
                 ParLinearForm -> OperatorT * Vector * Vector;
  UsesTensorBasis : SpaceT -> bool;
  CG : CGSolver -> OperatorT -> Vector -> Vector -> Vector;
  Recover : SpaceT -> ParBilinearForm -> Vector -> ParLinearForm ->
            Vector -> Vector;
  L1Error : SpaceT -> Vector -> Coefficient -> Q;
  MaxError : SpaceT -> Vector -> Coefficient -> Q;
  (** [sqrt] and [log] of the C library *)
  sqrt : Q -> Q;
  log : Q -> Q;
  (** contents of uninitialised storage *)
  junk : nat -> Q
}.

Section Main.

Variable L : Lib.

(** 7. The finite element collection, lines 166-186: the collection, the
    flag [delete_fec] and the value of [order] afterwards. *)
Definition select_fec (o : Options) (dim : Z) (pmesh : ParMeshT L)
    : Writer Call (FECollectionT L * bool * Z) :=
  if (0 <? order o)%Z
  then mret (H1_FECollection L (order o) dim, true, order o)
  else
    match GetNodes_OwnFEC L pmesh with
    | Some fec =>
        when_ (myid L =? 0)%Z
          (tell (Cout [OStr "Using isoparametric FEs: ";
                       OStr (FEC_Name L fec); OEndl]));;
        mret (fec, false, order o)
    | None => mret (H1_FECollection L 1 dim, true, 1%Z)
    end.

(** 5. The serial mesh is refined [rs_levels] times, line 148. *)
Definition refine_serial (o : Options) (mesh : MeshT L)
    : Writer Call (MeshT L) :=
  repeatM (Z.to_nat (rs_levels o))
    (fun m => tell Mesh_UniformRefinement;; mret (UniformRefinement L m))
    mesh.

(** 6. The parallel mesh, refined twice, lines 153-161. *)
Definition parallel_mesh (mesh : MeshT L) : Writer Call (ParMeshT L) :=
  tell ParMesh_new;;
  tell Mesh_Clear;;
  repeatM 2
    (fun m => tell ParMesh_UniformRefinement;; mret (ParUniformRefinement L m))
    (ParMesh_ctor L mesh).

(** 8. The essential true dofs, lines 195-201. *)
Definition essential_dofs (pmesh : ParMeshT L) (fespace : SpaceT L)
    : Writer Call (list Z) :=
  if (bdr_attributes_Size L pmesh =? 0)%Z then mret []
  else
    let ess_bdr := Array_fill (bdr_attributes_Max L pmesh) 1 in
    tell (GetEssentialTrueDofs ess_bdr);;
    mret (EssentialTrueDofs L fespace ess_bdr).

(** 13. The preconditioner, lines 235-243; [None] is the null pointer. *)
Definition select_prec (o : Options) (fespace : SpaceT L)
    (a : ParBilinearForm) (ess_tdof_list : list Z) : option Solver :=
  if pa o
  then (if UsesTensorBasis L fespace
        then Some (OperatorJacobiSmoother a ess_tdof_list)
        else None)
  else Some HypreBoomerAMG.

(** The solver as configured on lines 245-249. *)
Definition configure_cg (prec : option Solver) : CGSolver :=
  let cg := CGSolver_new in
  let cg := SetRelTol cg 1e-12 in
  let cg := SetMaxIter cg 5000 in
  let cg := SetPrintLevel cg 1 in
  match prec with
  | Some p => SetPreconditioner cg p
  | None => cg
  end.

(** The Varadhan transformation, lines 259-263: [u] is a fresh grid
    function and every entry is assigned. *)
Definition varadhan (o : Options) (w u : Vector) : Vector :=
  for_ (length u)
    (fun i u => <[i := (- sqrt L (t_param o)) * log L (vget w i)]> u) u.

(** The exact distance chosen from the mesh file name, lines 265-278;
    [None] is the null pointer. *)
Definition select_exact_dist (o : Options) : option Coefficient :=
  let exact_dist := None in
  let exact_dist :=
    if String.eqb (mesh_file o) "../data/inline-segment.mesh"
    then Some ExactSegmentDistCoeff else exact_dist in
  let exact_dist :=
    if String.eqb (mesh_file o) "../data/inline-quad.mesh"
    then Some ExactQuadDistCoeff else exact_dist in
  let exact_dist :=
    if String.eqb (mesh_file o) "./cir.msh"
    then Some (ExactCircleDistCoeff (sqrt L)) else exact_dist in
  exact_dist.

(** The error report and the error field, lines 279-294. *)
Definition report_errors (fespace : SpaceT L) (u u_error : Vector)
    (exact_dist : option Coefficient) : Writer Call Vector :=
  match exact_dist with
  | None => mret u_error
  | Some exact =>
      tell (ComputeL1Error u exact);;
      tell (ComputeMaxError u exact);;
      let l1 := L1Error L fespace u exact in
      let linf := MaxError L fespace u exact in
      when_ (myid L =? 0)%Z
        (tell (Cout [OStr "L1   error: "; ONum l1; OEndl;
                     OStr "Linf error: "; ONum linf; OEndl]));;
      tell (ProjectCoefficient exact);;
      let u_error := Project L fespace u_error exact in
      mret (for_ (length u)
              (fun i e => <[i := Qabs (vget e i - vget u i)]> e) u_error)
  end.

(** 16. The GLVis windows, lines 313-344. *)
Definition send_glvis (o : Options) (w u u_error : Vector)
    (exact_dist : option Coefficient) : Writer Call unit :=
  when_ (visualization o)
    (tell (GLVis "w" 0 0 w);;
     tell (GLVis "u" 600 0 u);;
     when_ (bool_decide (is_Some exact_dist))
       (tell (GLVis "|u - d|" 1200 0 u_error))).

(** [main], after the options were parsed successfully: lines 138-364. *)
Definition solve (o : Options) : Writer Call Z :=
  when_ (myid L =? 0)%Z (tell (PrintOptions o));;
  tell (Device_new (device_config o));;
  when_ (myid L =? 0)%Z (tell Device_Print);;
  tell (Mesh_new (mesh_file o) 1 1);;
  let mesh := Mesh_ctor L (mesh_file o) 1 1 in
  let dim := Dimension L mesh in
  mesh ← refine_serial o mesh;
  pmesh ← parallel_mesh mesh;
  sel ← select_fec o dim pmesh;
  let fec := fst (fst sel) in
  let order := snd sel in
  let fespace := ParFiniteElementSpace L pmesh fec in
  let size := GlobalTrueVSize L fespace in
  when_ (myid L =? 0)%Z
    (tell (Cout [OStr "Number of FE unknowns: "; OInt size; OEndl]));;
  ess_tdof_list ← essential_dofs pmesh fespace;
  (* Solution x with correct Dirichlet BC. *)
  let w := vzero (GetVSize L fespace) in
  let bdr := Array_fill (bdr_attributes_Max L pmesh) 1 in
  let one := ConstantCoefficient 1.0 in
  tell (ProjectBdrCoefficient w one bdr);;
  let w := ProjectBdr L fespace w one bdr in
  (* Set up RHS. *)
  let b := {| dlfi := []; lf_data := vzero (GetVSize L fespace) |} in
  (* Diffusion and mass terms in the LHS. *)
  let t_coeff := ConstantCoefficient (t_param o) in
  let a := {| partial_assembly := pa o;
              dbfi := [MassIntegrator one; DiffusionIntegrator t_coeff];
              static_condensation := static_cond o |} in
  tell (Assemble a);;
  tell (FormLinearSystem a ess_tdof_list w b);;
  let sys := LinearSystem L fespace a ess_tdof_list w b in
  let A := fst (fst sys) in
  let X := snd (fst sys) in
  let B := snd sys in
  let cg := configure_cg (select_prec o fespace a ess_tdof_list) in
  tell (CG_Mult cg B X);;
  let X := CG L cg A B X in
  tell (RecoverFEMSolution X b w);;
  let w := Recover L fespace a X b w in
  let u := varadhan o w (new_Vector (junk L) (GetVSize L fespace)) in
  let exact_dist := select_exact_dist o in
  u_error ← report_errors fespace u
              (new_Vector (junk L) (GetVSize L fespace)) exact_dist;
  tell (Save_mesh "mesh." (myid L) 8);;
  tell (Save_sol "sol." (myid L) 8 w);;
  send_glvis o w u u_error exact_dist;;
  tell (ParaView_Save "Dist" order [("w", w); ("u", u)]);;
  tell MPI_Finalize;;
  mret 0%Z.

(** [main(argc, argv)]: the exit status and the calls made. *)
Definition main (argv : list string) : Writer Call Z :=
  tell MPI_Init;;
  let parsed := Parse L argv default_options in
  if negb (fst parsed)
  then
    when_ (myid L =? 0)%Z (tell PrintUsage);;
    tell MPI_Finalize;;
    mret 1%Z
  else solve (snd parsed).

(** The values of the variables of [main] along a run with options [o];
    they are what the calls above receive. *)

(** [pmesh] after the refinements. *)
Definition var_pmesh (o : Options) : ParMeshT L :=
  fst (parallel_mesh
         (fst (refine_serial o (Mesh_ctor L (mesh_file o) 1 1)))).

(** [fespace]. *)
Definition var_fespace (o : Options) : SpaceT L :=
  ParFiniteElementSpace L (var_pmesh o)
    (fst (fst (fst (select_fec o
                      (Dimension L (Mesh_ctor L (mesh_file o) 1 1))
                      (var_pmesh o))))).

(** [order] after the collection was chosen. *)
Definition var_order (o : Options) : Z :=
  snd (fst (select_fec o (Dimension L (Mesh_ctor L (mesh_file o) 1 1))
              (var_pmesh o))).

(** [ess_tdof_list]. *)
Definition var_ess_tdof_list (o : Options) : list Z :=
  fst (essential_dofs (var_pmesh o) (var_fespace o)).

(** [bdr]. *)
Definition var_bdr (o : Options) : list Z :=
  Array_fill (bdr_attributes_Max L (var_pmesh o)) 1.

(** [w] after [w = 0.0]. *)
Definition var_w_zero (o : Options) : Vector :=
  vzero (GetVSize L (var_fespace o)).

(** [w] after [ProjectBdrCoefficient]. *)
Definition var_w_bc (o : Options) : Vector :=
  ProjectBdr L (var_fespace o) (var_w_zero o) (ConstantCoefficient 1.0)
    (var_bdr o).

(** [b]. *)
Definition var_b (o : Options) : ParLinearForm :=
  {| dlfi := []; lf_data := vzero (GetVSize L (var_fespace o)) |}.

(** [a]. *)
Definition var_a (o : Options) : ParBilinearForm :=
  {| partial_assembly := pa o;
     dbfi := [MassIntegrator (ConstantCoefficient 1.0);
              DiffusionIntegrator (ConstantCoefficient (t_param o))];
     static_condensation := static_cond o |}.

(** [A], [X], [B] after [FormLinearSystem]. *)
Definition var_system (o : Options) : OperatorT L * Vector * Vector :=
  LinearSystem L (var_fespace o) (var_a o) (var_ess_tdof_list o)
    (var_w_bc o) (var_b o).

(** [cg] when [cg.Mult] is called. *)
Definition var_cg (o : Options) : CGSolver :=
  configure_cg
    (select_prec o (var_fespace o) (var_a o) (var_ess_tdof_list o)).

(** [X] after [cg.Mult(B, X)]. *)
Definition var_X (o : Options) : Vector :=
  CG L (var_cg o) (fst (fst (var_system o))) (snd (var_system o))
    (snd (fst (var_system o))).

(** [w] after [RecoverFEMSolution]: the solver output. *)
Definition var_w (o : Options) : Vector :=
  Recover L (var_fespace o) (var_a o) (var_X o) (var_b o) (var_w_bc o).

(** [u] after the Varadhan loop. *)
Definition var_u (o : Options) : Vector :=
  varadhan o (var_w o) (new_Vector (junk L) (GetVSize L (var_fespace o))).

(** The calls that assemble or solve. *)
Definition assembles_or_solves (c : Call) : bool :=
  match c with
  | Assemble _ | FormLinearSystem _ _ _ _ | CG_Mult _ _ _
  | RecoverFEMSolution _ _ _ => true
  | _ => false
  end.

End Main.

End Distance.

(** ** exAdvection.cpp: the driver *)

Module ExAdvection.

(** [u_exact], [f_exact] and [velocity_function], lines 111-146; [exp] and
    [sqrt] are those of the C library. *)
Definition u_exact (exp : Q -> Q) (x : Vector) : Q := exp (vget x 0).

Definition f_exact (exp : Q -> Q) (x : Vector) : Q := - exp (vget x 0).

Definition velocity_function (sqrt : Q -> Q) (x v : Vector) : Vector :=
  match length x with
  | 1%nat => <[0%nat := - 1.0]> v
  | 2%nat => <[1%nat := sqrt (1 / 3)]> (<[0%nat := sqrt (2 / 3)]> v)
  | 3%nat =>
      <[2%nat := sqrt (1 / 6)]>
        (<[1%nat := sqrt (2 / 6)]> (<[0%nat := sqrt (3 / 6)]> v))
  | _ => v
  end.

(** [VectorFunctionCoefficient(dim, F)]: [F] at the physical point, writing
    into a vector of [dim] entries. *)
Definition VectorFunctionCoefficient (junk : nat -> Q) (dim : nat)
    (F : Vector -> Vector -> Vector) : VectorCoefficient :=
  {| vdim := dim;
     VEval := fun T ip => F (Transform T ip) (new_Vector junk dim) |}.

(** The variables set by the command line, with their defaults. *)
Record Options : Type := {
  order : Z;
  cutsize : Z;
  N : Z
}.

Definition default_options : Options :=
  {| order := 1; cutsize := 1; N := 20 |}.

(** The integrators the driver creates, by constructor and arguments. *)
Inductive LinearFormIntegrator : Type :=
| New_AdvDomainLFIntegrator (f : Coefficient)
| New_BoundaryAdvectIntegrator (uD : Coefficient) (u : VectorCoefficient).

Inductive BilinearFormIntegrator : Type :=
| New_AdvectionIntegrator (velocity : VectorCoefficient) (alpha : Q)
| New_DGFaceIntegrator (velocity : VectorCoefficient)
| TransposeIntegrator (bfi : BilinearFormIntegrator).

Record LinearForm : Type := {
  lf_domain : list LinearFormIntegrator;
  lf_bdr_face : list LinearFormIntegrator
}.

Record BilinearForm : Type := {
  bf_domain : list BilinearFormIntegrator;
  bf_interior_face : list BilinearFormIntegrator;
  bf_bdr_face : list BilinearFormIntegrator
}.

Inductive Call : Type :=
| PrintUsage
| PrintOptions (o : Options)
| Mesh_new (n : Z) (sx : Z)
| Cout (items : list OutItem)
| PrintVTK (file : string) (precision : Z)
| LinearForm_Assemble (b : LinearForm)
| BilinearForm_Assemble (a : BilinearForm)
| BilinearForm_Finalize
| ProjectCoefficient (x : Vector) (c : Coefficient)
| GSSmoother_new
| GMRES (b x : Vector) (print_iter max_num_iter m : Z) (rtol atol : Q)
| UMFPack_SetOperator
| UMFPack_Mult (b x : Vector)
| SaveVTK (field_name : string) (ref : Z) (x : Vector)
| ComputeL2Error (x : Vector) (exact : Coefficient)
| GridFunction_Print (x : Vector).

Record Lib : Type := {
  MeshT : Type;
  SpaceT : Type;
  SparseMatrixT : Type;
  (** whether the build defines [MFEM_USE_SUITESPARSE] *)
  MFEM_USE_SUITESPARSE : bool;
  Parse : list string -> Options -> bool * Options;
  Mesh_ctor : Z -> Z -> MeshT;
  Dimension : MeshT -> nat;
  GetNE : MeshT -> Z;
  (** [DG_FECollection(order, dim)] and the space on it *)
  DG_Space : MeshT -> Z -> nat -> SpaceT;
  GetTrueVSize : SpaceT -> Z;
  GetVSize : SpaceT -> nat;
  AssembleLF : SpaceT -> LinearForm -> Vector;
  AssembleBF : SpaceT -> BilinearForm -> SparseMatrixT;
  Project : SpaceT -> Vector -> Coefficient -> Vector;
  GMRES_solve : SparseMatrixT -> Vector -> Vector -> Z -> Z -> Z -> Q -> Q ->
                Vector;
  UMFPack_solve : SparseMatrixT -> Vector -> Vector -> Vector;
  L2Error : SpaceT -> Vector -> Coefficient -> Q;
  exp : Q -> Q;
  sqrt : Q -> Q;
  junk : nat -> Q
}.

Section Main.

Variable L : Lib.

(** 8. The linear solve, lines 76-88: the solver is chosen when the
    program is compiled; [x] goes in as the initial iterate of GMRES and
    comes out as the solution. *)
Definition linear_solve (A : SparseMatrixT L) (b x : Vector)
    : Writer Call Vector :=
  if MFEM_USE_SUITESPARSE L
  then
    tell UMFPack_SetOperator;;
    tell (UMFPack_Mult b x);;
    mret (UMFPack_solve L A b x)
  else
    tell GSSmoother_new;;
    tell (GMRES b x 1 1000 200 1e-60 1e-60);;
    mret (GMRES_solve L A b x 1 1000 200 1e-60 1e-60).

(** [main], after the options were parsed successfully: lines 39-108. *)
Definition solve (o : Options) : Writer Call Z :=
  tell (PrintOptions o);;
  tell (Mesh_new (N o) 1);;
  let mesh := Mesh_ctor L (N o) 1 in
  let dim := Dimension L mesh in
  tell (Cout [OStr "number of elements "; OInt (GetNE L mesh); OEndl]);;
  tell (PrintVTK "square_disc_mesh.vtk" 14);;
  let fespace := DG_Space L mesh (order o) dim in
  tell (Cout [OStr "Number of unknowns: "; OInt (GetTrueVSize L fespace);
              OEndl]);;
  let f := FunctionCoefficient (f_exact (exp L)) in
  let u := FunctionCoefficient (u_exact (exp L)) in
  let velocity :=
    VectorFunctionCoefficient (junk L) dim (velocity_function (sqrt L)) in
  let b := {| lf_domain := [New_AdvDomainLFIntegrator f];
              lf_bdr_face := [New_BoundaryAdvectIntegrator u velocity] |} in
  tell (LinearForm_Assemble b);;
  let bvec := AssembleLF L fespace b in
  let a :=
    {| bf_domain :=
         [TransposeIntegrator (New_AdvectionIntegrator velocity (- 1.0))];
       bf_interior_face :=
         [TransposeIntegrator (New_DGFaceIntegrator velocity)];
       bf_bdr_face :=
         [TransposeIntegrator (New_DGFaceIntegrator velocity)] |} in
  tell (BilinearForm_Assemble a);;
  tell BilinearForm_Finalize;;
  let A := AssembleBF L fespace a in
  let x := new_Vector (junk L) (GetVSize L fespace) in
  tell (ProjectCoefficient x u);;
  let x := Project L fespace x u in
  x ← linear_solve A bvec x;
  tell (PrintVTK "dgAdvection.vtk" 14);;
  tell (SaveVTK "dgAdvSolution" 1 x);;
  tell (ComputeL2Error x u);;
  let norm := L2Error L fespace x u in
  tell (Cout [OStr "solution at nodes is: "; OEndl]);;
  tell (GridFunction_Print x);;
  tell (Cout [OStr "########################################## "; OEndl;
              OStr "mesh size, h = "; ONum (1.0 / inject_Z (GetNE L mesh));
              OEndl;
              OStr "solution norm: "; ONum norm; OEndl;
              OStr "########################################## "; OEndl]);;
  mret 0%Z.

(** [main(argc, argv)]: the exit status and the calls made. *)
Definition main (argv : list string) : Writer Call Z :=
  let parsed := Parse L argv default_options in
  if negb (fst parsed)
  then
    tell PrintUsage;;
    mret 1%Z
  else solve (snd parsed).

(** The values of the variables of [main] along a run with options [o]. *)

Definition var_mesh (o : Options) : MeshT L := Mesh_ctor L (N o) 1.

Definition var_fespace (o : Options) : SpaceT L :=
  DG_Space L (var_mesh o) (order o) (Dimension L (var_mesh o)).

(** The coefficient [u], built from [u_exact]. *)
Definition var_u : Coefficient := FunctionCoefficient (u_exact (exp L)).

Definition var_velocity (o : Options) : VectorCoefficient :=
  VectorFunctionCoefficient (junk L) (Dimension L (var_mesh o))
    (velocity_function (sqrt L)).

Definition var_b (o : Options) : LinearForm :=
  {| lf_domain :=
       [New_AdvDomainLFIntegrator (FunctionCoefficient (f_exact (exp L)))];
     lf_bdr_face := [New_BoundaryAdvectIntegrator var_u (var_velocity o)] |}.

Definition var_a (o : Options) : BilinearForm :=
  {| bf_domain :=
       [TransposeIntegrator
          (New_AdvectionIntegrator (var_velocity o) (- 1.0))];
     bf_interior_face :=
       [TransposeIntegrator (New_DGFaceIntegrator (var_velocity o))];
     bf_bdr_face :=
       [TransposeIntegrator (New_DGFaceIntegrator (var_velocity o))] |}.

(** [x] as constructed, before it is assigned. *)
Definition var_x_new (o : Options) : Vector :=
  new_Vector (junk L) (GetVSize L (var_fespace o)).

(** [x] after [x.ProjectCoefficient(u)]. *)
Definition var_x_projected (o : Options) : Vector :=
  Project L (var_fespace o) (var_x_new o) var_u.

(** [x] after the linear solve. *)
Definition var_x (o : Options) : Vector :=
  fst (linear_solve (AssembleBF L (var_fespace o) (var_a o))
         (AssembleLF L (var_fespace o) (var_b o)) (var_x_projected o)).

(** The calls that assemble or solve. *)
Definition assembles_or_solves (c : Call) : bool :=
  match c with
  | LinearForm_Assemble _ | BilinearForm_Assemble _ | BilinearForm_Finalize
  | GSSmoother_new | GMRES _ _ _ _ _ _ _ | UMFPack_SetOperator
  | UMFPack_Mult _ _ => true
  | _ => false
  end.

End Main.

End ExAdvection.

(** ** A concrete one-dimensional setting

    Linear elements on the unit interval, as [exAdvection] builds them:
    faces are points, the face rule has one point of weight 1, and the
    velocity is the one-dimensional case of [velocity_function]. *)

Module Ex.

Definition ip_at (x w : Q) : IntegrationPoint :=
  {| ip_x := x; ip_y := 0; ip_z := 0; ip_weight := w |}.

Definition face_ip : IntegrationPoint := ip_at 0 1.

Definition IntRules (g : Geometry) (order : Z) : IntegrationRule :=
  match g with
  | POINT => [face_ip]
  | _ => [ip_at (1 / 2) 1]
  end.

Definition junk (i : nat) : Q := 7.

(** The libm functions are not needed in one dimension; any will do. *)
Definition sqrt (x : Q) : Q := x.
Definition exp (x : Q) : Q := 1 + x.

(** The linear element on the reference segment. *)
Definition segment : FiniteElement :=
  {| GetDim := 1; GetDof := 2; GetOrder := 1; Space := Pk;
     GetGeomType := SEGMENT;
     CalcShape := fun ip => [1 - ip_x ip; ip_x ip];
     CalcPhysShape := fun T => [1 - ip_x (GetIntPoint T); ip_x (GetIntPoint T)] |}.

(** Element [no] of a mesh of two elements of length 1/2. *)
Definition elem (no : Z) : ElementTransformation :=
  {| ElementNo := no; OrderW := 0;
     Transform := fun ip => [inject_Z no * (1 / 2) + (1 / 2) * ip_x ip];
     WeightAt := fun _ => 1 / 2;
     IntPoint := None |}.

(** The point at coordinate [x] of the mesh, as a face. *)
Definition point (no : Z) (x : Q) : ElementTransformation :=
  {| ElementNo := no; OrderW := 0;
     Transform := fun _ => [x];
     WeightAt := fun _ => 1;
     IntPoint := None |}.

(** The interior face at x = 1/2 seen from the left element. *)
Definition face_lr : FaceElementTransformations :=
  {| Elem1No := 0; Elem2No := 1; FaceGeom := POINT;
     Elem1 := elem 0; Elem2 := elem 1; Face := point 1 (1 / 2);
     Loc1 := fun _ => ip_at 1 0; Loc2 := fun _ => ip_at 0 0 |}.

(** The same face seen from the right element. *)
Definition face_rl : FaceElementTransformations :=
  {| Elem1No := 1; Elem2No := 0; FaceGeom := POINT;
     Elem1 := elem 1; Elem2 := elem 0; Face := point 1 (1 / 2);
     Loc1 := fun _ => ip_at 0 0; Loc2 := fun _ => ip_at 1 0 |}.

(** The boundary faces at x = 1 and at x = 0. *)
Definition bdr_right : FaceElementTransformations :=
  {| Elem1No := 1; Elem2No := -1; FaceGeom := POINT;
     Elem1 := elem 1; Elem2 := elem 1; Face := point 2 1;
     Loc1 := fun _ => ip_at 1 0; Loc2 := fun _ => ip_at 0 0 |}.

Definition bdr_left : FaceElementTransformations :=
  {| Elem1No := 0; Elem2No := -1; FaceGeom := POINT;
     Elem1 := elem 0; Elem2 := elem 0; Face := point 0 0;
     Loc1 := fun _ => ip_at 0 0; Loc2 := fun _ => ip_at 0 0 |}.

Definition velocity : VectorCoefficient :=
  ExAdvection.VectorFunctionCoefficient junk 1
    (ExAdvection.velocity_function sqrt).

Definition dg : DGFaceIntegrator :=
  {| dg_u := velocity; dg_IntRule := None |}.

(** The inflow integrator with boundary value [uD]. *)
Definition inflow (uD : Coefficient) : BoundaryAdvectIntegrator :=
  {| ba_uD := uD; ba_u := velocity; ba_IntRule := None |}.

(** A point source of strength 3, and a domain integrator with or
    without it. *)
Definition delta3 : DeltaCoefficient := {| EvalDelta := fun _ _ => 3 |}.

Definition domain_lf (delta : option DeltaCoefficient)
    (ir : option IntegrationRule) : AdvDomainLFIntegrator :=
  {| lf_Q := ConstantCoefficient 1; lf_delta := delta;
     lf_oa := 2; lf_ob := 0; lf_IntRule := ir |}.

(** A small stand-in for the library behind [Distance.main]: a segment
    mesh whose degrees of freedom are its nodes, with the two end nodes on
    the boundary.  The parser knows the sample runs listed at the top of
    [distance.cpp]. *)

Definition node (n i : nat) : ElementTransformation :=
  point (Z.of_nat i) (inject_Z (Z.of_nat i) / inject_Z (Z.of_nat (n - 1))).

Definition nodal_values (n : nat) (c : Coefficient) : Vector :=
  map (fun i => Eval c (node n i) face_ip) (seq 0 n).

Definition set_ends (n : nat) (w : Vector) (v : Q) : Vector :=
  <[(n - 1)%nat := v]> (<[0%nat := v]> w).

Definition abs_errors (n : nat) (u : Vector) (c : Coefficient) : Vector :=
  map (fun i => Qabs (vget u i - Eval c (node n i) face_ip)) (seq 0 n).

Definition distance_parse (argv : list string) (d : Distance.Options)
    : bool * Distance.Options :=
  let with_ file rs t :=
    {| Distance.mesh_file := file; Distance.rs_levels := rs;
       Distance.order := Distance.order d; Distance.t_param := t;
       Distance.static_cond := Distance.static_cond d;
       Distance.pa := Distance.pa d;
       Distance.device_config := Distance.device_config d;
       Distance.visualization := Distance.visualization d |} in
  if bool_decide (argv = ["-m"; "../data/inline-segment.mesh";
                          "-rs"; "3"; "-t"; "0.5"])
  then (true, with_ "../data/inline-segment.mesh" 3%Z 0.5)
  else if bool_decide (argv = ["-m"; "../data/inline-quad.mesh";
                               "-rs"; "1"; "-t"; "0.1"])
  then (true, with_ "../data/inline-quad.mesh" 1%Z 0.1)
  else if bool_decide (argv = ["-m"; "../data/star.mesh"])
  then (true, with_ "../data/star.mesh" 0%Z 1.0)
  else if bool_decide (argv = [])
  then (true, d)
  else (false, d).

(** The process of rank [rank]. *)
Definition distance_lib (rank : Z) : Distance.Lib :=
  {| Distance.MeshT := nat;
     Distance.ParMeshT := nat;
     Distance.FECollectionT := Z;
     Distance.SpaceT := nat;
     Distance.OperatorT := unit;
     Distance.num_procs := 2;
     Distance.myid := rank;
     Distance.Parse := distance_parse;
     Distance.Mesh_ctor := fun _ _ _ => 1%nat;
     Distance.Dimension := fun _ => 1%Z;
     Distance.UniformRefinement := fun ne => (2 * ne)%nat;
     Distance.ParMesh_ctor := fun ne => ne;
     Distance.ParUniformRefinement := fun ne => (2 * ne)%nat;
     Distance.GetNodes_OwnFEC := fun _ => None;
     Distance.FEC_Name := fun _ => "H1";
     Distance.H1_FECollection := fun order _ => order;
     Distance.bdr_attributes_Size := fun _ => 2%Z;
     Distance.bdr_attributes_Max := fun _ => 2%Z;
     Distance.ParFiniteElementSpace :=
       fun ne order => (ne * Z.to_nat order + 1)%nat;
     Distance.GlobalTrueVSize := fun n => Z.of_nat n;
     Distance.GetVSize := fun n => n;
     Distance.EssentialTrueDofs := fun n _ => [0%Z; Z.of_nat (n - 1)];
     Distance.ProjectBdr :=
       fun n w c _ => set_ends n w (Eval c (node n 0) face_ip);
     Distance.Project := fun n _ c => nodal_values n c;
     Distance.LinearSystem := fun _ _ _ w b => (tt, w, Distance.lf_data b);
     Distance.UsesTensorBasis := fun _ => true;
     Distance.CG := fun _ _ _ X => X;
     Distance.Recover := fun _ _ X _ _ => X;
     Distance.L1Error := fun n u c => foldr Qplus 0 (abs_errors n u c);
     Distance.MaxError := fun n u c => foldr Qmax 0 (abs_errors n u c);
     Distance.sqrt := sqrt;
     Distance.log := fun x => x - 1;
     Distance.junk := junk |}.

Definition scenario_A : list string :=
  ["-m"; "../data/inline-segment.mesh"; "-rs"; "3"; "-t"; "0.5"].

(** A stand-in for the library behind [ExAdvection.main]. *)

Definition advection_parse (argv : list string) (d : ExAdvection.Options)
    : bool * ExAdvection.Options :=
  if bool_decide (argv = []) then (true, d)
  else if bool_decide (argv = ["-n"; "2"])
  then (true, {| ExAdvection.order := ExAdvection.order d;
                 ExAdvection.cutsize := ExAdvection.cutsize d;
                 ExAdvection.N := 2 |})
  else (false, d).

Definition advection_lib (suitesparse : bool) : ExAdvection.Lib :=
  {| ExAdvection.MeshT := Z;
     ExAdvection.SpaceT := nat;
     ExAdvection.SparseMatrixT := unit;
     ExAdvection.MFEM_USE_SUITESPARSE := suitesparse;
     ExAdvection.Parse := advection_parse;
     ExAdvection.Mesh_ctor := fun n _ => n;
     ExAdvection.Dimension := fun _ => 1%nat;
     ExAdvection.GetNE := fun n => n;
     ExAdvection.DG_Space := fun n order _ => Z.to_nat ((order + 1) * n);
     ExAdvection.GetTrueVSize := fun n => Z.of_nat n;
     ExAdvection.GetVSize := fun n => n;
     ExAdvection.AssembleLF := fun n _ => vzero n;
     ExAdvection.AssembleBF := fun _ _ => tt;
     ExAdvection.Project := fun n _ c => nodal_values n c;
     ExAdvection.GMRES_solve := fun _ _ x _ _ _ _ _ => x;
     ExAdvection.UMFPack_solve := fun _ b _ => b;
     ExAdvection.L2Error := fun n x c => foldr Qplus 0 (abs_errors n x c);
     ExAdvection.exp := exp;
     ExAdvection.sqrt := sqrt;
     ExAdvection.junk := junk |}.

End Ex.

(** ** Notions used to state the properties *)

(** The sum of [f] over the points of a quadrature rule. *)
Definition qsum (f : IntegrationPoint -> Q) (ir : IntegrationRule) : Q :=
  foldr (fun ip acc => f ip + acc) 0 ir.

(** What the quadrature loop of [AssembleFaceMatrix] keeps fixed, relative
    to the state [st0] on entry: the maps to the two elements, the first
    element up to the point stored in it, and [nor] up to its first entry,
    which every iteration overwrites. *)
Definition face_inv (st0 st : FaceState) : Prop :=
  Loc1 (fs_Trans st) = Loc1 (fs_Trans st0) /\
  Loc2 (fs_Trans st) = Loc2 (fs_Trans st0) /\
  (forall p, SetIntPoint (Elem1 (fs_Trans st)) p
             = SetIntPoint (Elem1 (fs_Trans st0)) p) /\
  (forall p, set_nor (fs_nor st) p = set_nor (fs_nor st0) p).

(** What the quadrature loop of the inflow right-hand side keeps fixed,
    relative to the state [st0] on entry. *)
Definition rhs_inv (st0 st : RhsState) : Prop :=
  Loc1 (rs_Trans st) = Loc1 (rs_Trans st0) /\
  Elem1 (rs_Trans st) = Elem1 (rs_Trans st0) /\
  (forall p, set_nor (rs_nor st) p = set_nor (rs_nor st0) p).

(** The system that claim C2 describes, as a property of the calls of a
    run: every linear system formed carries the value zero at the essential
    dofs and a right-hand side whose only integrator has the constant
    source 1. *)
Definition zero_dirichlet_unit_source (calls : list Distance.Call) : Prop :=
  forall a ess_tdof_list w b,
    Distance.FormLinearSystem a ess_tdof_list w b ∈ calls ->
    (forall i, i ∈ ess_tdof_list -> vget w (Z.to_nat i) == 0) /\
    (exists f, Distance.dlfi b = [f] /\ forall T ip, Eval f T ip == 1).

(** The processes of one invocation of the distance program under MPI:
    at least one, the process at position [r] having rank [r]. *)
Definition mpi_job (procs : list Distance.Lib) : Prop :=
  procs <> [] /\
  forall r L, procs !! r = Some L ->
    Distance.myid L = Z.of_nat r /\
    Distance.num_procs L = Z.of_nat (length procs).

(** Call [x] is made before call [y] in the sequence [calls]. *)
Definition called_before {E : Type} (x y : E) (calls : list E) : Prop :=
  exists l1 l2 l3, calls = l1 ++ x :: l2 ++ y :: l3.

(** A double loop of entry updates, the common shape of the four block
    loops: [for i < N1, for j < N2: m(R i j, C i j) = F i j (m(R i j, C i j))]. *)
Definition loop2 (N1 N2 : nat) (F : nat -> nat -> Q -> Q)
    (R C : nat -> nat -> nat) : DenseMatrix -> DenseMatrix :=
  for_ N1 (fun i => for_ N2 (fun j => mupd (F i j) (R i j) (C i j))).

(** ** Notions used to state further properties *)

(** The sum of [f] over the indices below [n]. *)
Definition isum (n : nat) (f : nat -> Q) : Q :=
  foldr (fun i acc => f i + acc) 0 (seq 0 n).

(** The sum of the entries of row [i] of a matrix with [n] columns. *)
Definition row_sum (n : nat) (m : DenseMatrix) (i : nat) : Q :=
  isum n (mget m i).

(** The first [n] entries of [shape] sum to one, as the values of a nodal
    basis do at every point. *)
Definition partition_of_unity (n : nat) (shape : Vector) : Prop :=
  isum n (vget shape) == 1.

(** What the quadrature loops keep of the [FaceElementTransformations]
    [T0] they are given: everything but the points stored in [Face] and
    in [Elem1]. *)
Definition same_up_to_points (T0 T : FaceElementTransformations) : Prop :=
  Elem1No T = Elem1No T0 /\ Elem2No T = Elem2No T0 /\
  FaceGeom T = FaceGeom T0 /\ Elem2 T = Elem2 T0 /\
  Loc1 T = Loc1 T0 /\ Loc2 T = Loc2 T0 /\
  (forall p, SetIntPoint (Elem1 T) p = SetIntPoint (Elem1 T0) p) /\
  (forall p, SetIntPoint (Face T) p = SetIntPoint (Face T0) p).

(** The number of calls of a run that [f] selects. *)
Definition count_calls {E : Type} (f : E -> bool) (calls : list E) : nat :=
  length (List.filter f calls).

Definition is_serial_refinement (c : Distance.Call) : bool :=
  match c with Distance.Mesh_UniformRefinement => true | _ => false end.

Definition is_parallel_refinement (c : Distance.Call) : bool :=
  match c with Distance.ParMesh_UniformRefinement => true | _ => false end.

Definition is_MPI_Init (c : Distance.Call) : bool :=
  match c with Distance.MPI_Init => true | _ => false end.

Definition is_MPI_Finalize (c : Distance.Call) : bool :=
  match c with Distance.MPI_Finalize => true | _ => false end.

(** The mesh file is one of the three for which [distance.cpp] knows the
    exact distance. *)
Definition known_mesh (o : Distance.Options) : Prop :=
  Distance.mesh_file o = "../data/inline-segment.mesh" \/
  Distance.mesh_file o = "../data/inline-quad.mesh" \/
  Distance.mesh_file o = "./cir.msh".

(** The calls that exist only to report the error against an exact
    distance. *)
Definition reports_error (c : Distance.Call) : bool :=
  match c with
  | Distance.ComputeL1Error _ _ | Distance.ComputeMaxError _ _
  | Distance.ProjectCoefficient _ => true
  | Distance.GLVis title _ _ _ => String.eqb title "|u - d|"
  | _ => false
  end.

(** The stand-in library of [Ex.distance_lib] on a mesh without boundary
    attributes, as a periodic mesh has none. *)
Definition periodic_lib (rank : Z) : Distance.Lib :=
  {| Distance.MeshT := nat;
     Distance.ParMeshT := nat;
     Distance.FECollectionT := Z;
     Distance.SpaceT := nat;
     Distance.OperatorT := unit;
     Distance.num_procs := 2;
     Distance.myid := rank;
     Distance.Parse := Ex.distance_parse;
     Distance.Mesh_ctor := fun _ _ _ => 1%nat;
     Distance.Dimension := fun _ => 1%Z;
     Distance.UniformRefinement := fun ne => (2 * ne)%nat;
     Distance.ParMesh_ctor := fun ne => ne;
     Distance.ParUniformRefinement := fun ne => (2 * ne)%nat;
     Distance.GetNodes_OwnFEC := fun _ => Some 2%Z;
     Distance.FEC_Name := fun _ => "H1";
     Distance.H1_FECollection := fun order _ => order;
     Distance.bdr_attributes_Size := fun _ => 0%Z;
     Distance.bdr_attributes_Max := fun _ => 0%Z;
     Distance.ParFiniteElementSpace :=
       fun ne order => (ne * Z.to_nat order)%nat;
     Distance.GlobalTrueVSize := fun n => Z.of_nat n;
     Distance.GetVSize := fun n => n;
     Distance.EssentialTrueDofs := fun _ _ => [];
     Distance.ProjectBdr := fun _ w _ _ => w;
     Distance.Project := fun n _ c => Ex.nodal_values n c;
     Distance.LinearSystem := fun _ _ _ w b => (tt, w, Distance.lf_data b);
     Distance.UsesTensorBasis := fun _ => true;
     Distance.CG := fun _ _ _ X => X;
     Distance.Recover := fun _ _ X _ _ => X;
     Distance.L1Error := fun n u c => foldr Qplus 0 (Ex.abs_errors n u c);
     Distance.MaxError := fun n u c => foldr Qmax 0 (Ex.abs_errors n u c);
     Distance.sqrt := Ex.sqrt;
     Distance.log := fun x => x - 1;
     Distance.junk := Ex.junk |}.

(** The calls of the advection driver that solve the linear system. *)
Definition is_linear_solve (c : ExAdvection.Call) : bool :=
  match c with
  | ExAdvection.GMRES _ _ _ _ _ _ _ | ExAdvection.UMFPack_Mult _ _ => true
  | _ => false
  end.

(** The calls of the advection driver that belong to the GMRES branch. *)
Definition is_gmres_branch (c : ExAdvection.Call) : bool :=
  match c with
  | ExAdvection.GMRES _ _ _ _ _ _ _ | ExAdvection.GSSmoother_new => true
  | _ => false
  end.

(** The calls by which the distance driver writes to standard output. *)
Definition writes_stdout (c : Distance.Call) : bool :=
  match c with
  | Distance.PrintUsage | Distance.PrintOptions _ | Distance.Device_Print
  | Distance.Cout _ => true
  | _ => false
  end.

(** The calls of one kind, to select them from a run. *)
Definition is_GLVis (c : Distance.Call) : bool :=
  match c with Distance.GLVis _ _ _ _ => true | _ => false end.

Definition is_ParaView_Save (c : Distance.Call) : bool :=
  match c with Distance.ParaView_Save _ _ _ => true | _ => false end.

Definition is_FormLinearSystem (c : Distance.Call) : bool :=
  match c with Distance.FormLinearSystem _ _ _ _ => true | _ => false end.

Definition is_GetEssentialTrueDofs (c : Distance.Call) : bool :=
  match c with Distance.GetEssentialTrueDofs _ => true | _ => false end.

Definition is_ProjectBdrCoefficient (c : Distance.Call) : bool :=
  match c with Distance.ProjectBdrCoefficient _ _ _ => true | _ => false end.

(** * Properties *)

(** ** Loops *)

Lemma for_S {S : Type} (n : nat) (body : nat -> S -> S) (s : S) :
  for_ (Datatypes.S n) body s = body n (for_ n body s).
Proof. unfold for_. by rewrite seq_S, foldl_snoc. Qed.

Lemma for_inv {S : Type} (P : S -> Prop) (n : nat) (body : nat -> S -> S) (s : S) :
  P s ->
  (forall i s, (i < n)%nat -> P s -> P (body i s)) ->
  P (for_ n body s).
Proof.
  intros Hs Hstep. induction n as [|n IH]; [done|].
  rewrite for_S. apply Hstep; [lia|]. apply IH. intros i s' Hi. apply Hstep. lia.
Qed.

Lemma for_frame {S V : Type} (P : S -> Prop) (get : S -> V) (n : nat)
    (body : nat -> S -> S) (s : S) :
  P s ->
  (forall i s, (i < n)%nat -> P s -> P (body i s)) ->
  (forall i s, (i < n)%nat -> P s -> get (body i s) = get s) ->
  get (for_ n body s) = get s.
Proof.
  intros Hs Hstep Hget.
  apply (for_inv (fun s' => P s' /\ get s' = get s)); [done|].
  intros i s' Hi [HP Heq]. split; [by apply Hstep|]. rewrite Hget; done.
Qed.

Lemma for_hit {S V : Type} (P : S -> Prop) (get : S -> V) (g : V -> V)
    (n k : nat) (body : nat -> S -> S) (s : S) :
  (k < n)%nat ->
  P s ->
  (forall i s, (i < n)%nat -> P s -> P (body i s)) ->
  (forall i s, (i < n)%nat -> i <> k -> P s -> get (body i s) = get s) ->
  (forall s, P s -> get (body k s) = g (get s)) ->
  get (for_ n body s) = g (get s).
Proof.
  intros Hk Hs Hstep Hmiss Hhit. induction n as [|n IH]; [lia|].
  rewrite for_S.
  assert (HP : P (for_ n body s)).
  { apply for_inv; [done|]. intros i s' Hi. apply Hstep. lia. }
  destruct (decide (k = n)) as [->|Hne].
  - rewrite Hhit by done. f_equal.
    apply (for_frame P); [done| |].
    + intros i s' Hi. apply Hstep. lia.
    + intros i s' Hi. apply Hmiss; lia.
  - rewrite Hmiss by (done || lia). apply IH; [lia| |].
    + intros i s' Hi. apply Hstep. lia.
    + intros i s' Hi. apply Hmiss. lia.
Qed.

(** ** Matrices *)

Lemma square_mzero (n : nat) : square n (mzero n).
Proof.
  split; [apply length_replicate|].
  apply Forall_replicate, length_replicate.
Qed.

Lemma mget_mzero (n i j : nat) : mget (mzero n) i j = 0.
Proof.
  unfold mget, mzero, vget.
  destruct (decide (i < n)%nat) as [Hi|Hi].
  - rewrite lookup_replicate_2 by done. simpl.
    destruct (decide (j < n)%nat) as [Hj|Hj].
    + by rewrite lookup_replicate_2.
    + by rewrite (proj1 (lookup_replicate_None _ _ _)) by lia.
  - by rewrite (proj1 (lookup_replicate_None _ _ _)) by lia.
Qed.

Lemma square_mupd (f : Q -> Q) (n i j : nat) (m : DenseMatrix) :
  square n m -> square n (mupd f i j m).
Proof.
  intros [Hlen Hrows]. split.
  - unfold mupd. by rewrite length_alter.
  - unfold mupd. apply Forall_alter; [done|].
    intros r _ Hr. by rewrite length_alter.
Qed.

Lemma mget_mupd_ne (f : Q -> Q) (i j a b : nat) (m : DenseMatrix) :
  (i <> a \/ j <> b) -> mget (mupd f i j m) a b = mget m a b.
Proof.
  intros Hne. unfold mget, mupd.
  destruct (decide (i = a)) as [->|Hia].
  - rewrite list_lookup_alter_eq. destruct (m !! a) as [r|]; simpl; [|done].
    unfold vget. rewrite list_lookup_alter_ne; [done|]. destruct Hne; done.
  - by rewrite list_lookup_alter_ne.
Qed.

Lemma mget_mupd_eq (f : Q -> Q) (n i j : nat) (m : DenseMatrix) :
  square n m -> (i < n)%nat -> (j < n)%nat ->
  mget (mupd f i j m) i j = f (mget m i j).
Proof.
  intros [Hlen Hrows] Hi Hj. unfold mget, mupd.
  rewrite list_lookup_alter_eq.
  destruct (lookup_lt_is_Some_2 m i) as [r Hr]; [lia|].
  rewrite Hr. simpl. unfold vget. rewrite list_lookup_alter_eq.
  assert (length r = n) as Hlr.
  { rewrite Forall_forall in Hrows. apply Hrows. by eapply list_elem_of_lookup_2. }
  destruct (lookup_lt_is_Some_2 r j) as [e He]; [lia|].
  by rewrite He.
Qed.

Lemma loop2_square N1 N2 F R C n m :
  square n m -> square n (loop2 N1 N2 F R C m).
Proof.
  intros Hm. unfold loop2. apply for_inv; [done|]. intros i s _ Hs.
  apply for_inv; [done|]. intros j s' _ Hs'. by apply square_mupd.
Qed.

Lemma loop2_miss N1 N2 F R C a b m :
  (forall i j, (i < N1)%nat -> (j < N2)%nat -> R i j <> a \/ C i j <> b) ->
  mget (loop2 N1 N2 F R C m) a b = mget m a b.
Proof.
  intros Hmiss. unfold loop2.
  apply (for_frame (fun _ => True) (fun m => mget m a b)); [done|done|].
  intros i s Hi _.
  apply (for_frame (fun _ => True) (fun m => mget m a b)); [done|done|].
  intros j s' Hj _. apply mget_mupd_ne. by apply Hmiss.
Qed.

Lemma loop2_hit N1 N2 F R C n i0 j0 m :
  square n m ->
  (i0 < N1)%nat -> (j0 < N2)%nat ->
  (R i0 j0 < n)%nat -> (C i0 j0 < n)%nat ->
  (forall i j, (i < N1)%nat -> (j < N2)%nat ->
     R i j = R i0 j0 -> C i j = C i0 j0 -> i = i0 /\ j = j0) ->
  mget (loop2 N1 N2 F R C m) (R i0 j0) (C i0 j0)
  = F i0 j0 (mget m (R i0 j0) (C i0 j0)).
Proof.
  intros Hm Hi0 Hj0 HR HC Hinj. unfold loop2.
  apply (for_hit (square n) (fun m => mget m (R i0 j0) (C i0 j0))
           (F i0 j0) N1 i0); [done|done| | |].
  - intros i s _ Hs. apply for_inv; [done|]. intros j s' _ Hs'.
    by apply square_mupd.
  - intros i s Hi Hne Hs.
    apply (for_frame (fun _ => True) (fun m => mget m (R i0 j0) (C i0 j0)));
      [done|done|].
    intros j s' Hj _. apply mget_mupd_ne.
    destruct (decide (R i j = R i0 j0)) as [HRe|]; [|by left].
    destruct (decide (C i j = C i0 j0)) as [HCe|]; [|by right].
    destruct (Hinj i j Hi Hj HRe HCe). done.
  - intros s Hs.
    apply (for_hit (square n) (fun m => mget m (R i0 j0) (C i0 j0))
             (F i0 j0) N2 j0); [done|done| | |].
    + intros j s' _ Hs'. by apply square_mupd.
    + intros j s' Hj Hne Hs'. apply mget_mupd_ne.
      destruct (decide (R i0 j = R i0 j0)) as [HRe|]; [|by left].
      destruct (decide (C i0 j = C i0 j0)) as [HCe|]; [|by right].
      destruct (Hinj i0 j Hi0 Hj HRe HCe). done.
    + intros s' Hs'. by apply (mget_mupd_eq _ n).
Qed.

(** ** The four blocks *)

Lemma nonzero_false (w : Q) : nonzero w = false -> w == 0.
Proof.
  unfold nonzero. intros H. apply negb_false_iff in H. by apply Qeq_bool_eq.
Qed.

Lemma nonzero_true (w : Q) : nonzero w = true -> ~ w == 0.
Proof.
  unfold nonzero. intros H Hw. apply negb_true_iff in H.
  apply Qeq_eq_bool in Hw. congruence.
Qed.

Section Blocks.

Variables (ndof1 ndof2 : nat) (w : Q) (shape1 shape2 : Vector).
Variable m : DenseMatrix.
Hypothesis Hm : square (ndof1 + ndof2) m.

Lemma block11_square : square (ndof1 + ndof2) (block11 ndof1 w shape1 m).
Proof. by apply (loop2_square ndof1 ndof1 _ (fun i _ => i) (fun _ j => j)). Qed.

Lemma block12_square :
  square (ndof1 + ndof2) (block12 ndof1 ndof2 w shape1 shape2 m).
Proof.
  by apply (loop2_square ndof2 ndof1 _ (fun _ j => j)
              (fun i _ => (ndof1 + i)%nat)).
Qed.

Lemma block22_square :
  square (ndof1 + ndof2) (block22 ndof1 ndof2 w shape2 m).
Proof.
  by apply (loop2_square ndof2 ndof2 _ (fun i _ => (ndof1 + i)%nat)
              (fun _ j => (ndof1 + j)%nat)).
Qed.

Lemma block21_square :
  square (ndof1 + ndof2) (block21 ndof1 ndof2 w shape1 shape2 m).
Proof.
  by apply (loop2_square ndof1 ndof2 _ (fun _ j => (ndof1 + j)%nat)
              (fun i _ => i)).
Qed.

Lemma block11_hit i j :
  (i < ndof1)%nat -> (j < ndof1)%nat ->
  mget (block11 ndof1 w shape1 m) i j
  = mget m i j + w * vget shape1 i * vget shape1 j.
Proof.
  intros Hi Hj.
  apply (loop2_hit ndof1 ndof1
           (fun i j e => e + w * vget shape1 i * vget shape1 j)
           (fun i _ => i) (fun _ j => j) (ndof1 + ndof2) i j);
    [done|done|done|lia|lia|done].
Qed.

Lemma block11_miss a b :
  (ndof1 <= a)%nat \/ (ndof1 <= b)%nat ->
  mget (block11 ndof1 w shape1 m) a b = mget m a b.
Proof.
  intros Hab.
  apply (loop2_miss ndof1 ndof1 _ (fun i _ => i) (fun _ j => j)).
  intros i j Hi Hj. lia.
Qed.

Lemma block12_hit i j :
  (i < ndof2)%nat -> (j < ndof1)%nat ->
  mget (block12 ndof1 ndof2 w shape1 shape2 m) j (ndof1 + i)
  = mget m j (ndof1 + i) - w * vget shape2 i * vget shape1 j.
Proof.
  intros Hi Hj.
  apply (loop2_hit ndof2 ndof1
           (fun i j e => e - w * vget shape2 i * vget shape1 j)
           (fun _ j => j) (fun i _ => (ndof1 + i)%nat) (ndof1 + ndof2) i j);
    [done|done|done|lia|lia|]. intros; lia.
Qed.

Lemma block12_miss a b :
  (ndof1 <= a)%nat \/ (b < ndof1)%nat ->
  mget (block12 ndof1 ndof2 w shape1 shape2 m) a b = mget m a b.
Proof.
  intros Hab.
  apply (loop2_miss ndof2 ndof1 _ (fun _ j => j) (fun i _ => (ndof1 + i)%nat)).
  intros i j Hi Hj. lia.
Qed.

Lemma block22_hit i j :
  (i < ndof2)%nat -> (j < ndof2)%nat ->
  mget (block22 ndof1 ndof2 w shape2 m) (ndof1 + i) (ndof1 + j)
  = mget m (ndof1 + i) (ndof1 + j) - w * vget shape2 i * vget shape2 j.
Proof.
  intros Hi Hj.
  apply (loop2_hit ndof2 ndof2
           (fun i j e => e - w * vget shape2 i * vget shape2 j)
           (fun i _ => (ndof1 + i)%nat) (fun _ j => (ndof1 + j)%nat)
           (ndof1 + ndof2) i j);
    [done|done|done|lia|lia|]. intros; lia.
Qed.

Lemma block22_miss a b :
  (a < ndof1)%nat \/ (b < ndof1)%nat ->
  mget (block22 ndof1 ndof2 w shape2 m) a b = mget m a b.
Proof.
  intros Hab.
  apply (loop2_miss ndof2 ndof2 _ (fun i _ => (ndof1 + i)%nat)
           (fun _ j => (ndof1 + j)%nat)).
  intros i j Hi Hj. lia.
Qed.

Lemma block21_hit i j :
  (i < ndof1)%nat -> (j < ndof2)%nat ->
  mget (block21 ndof1 ndof2 w shape1 shape2 m) (ndof1 + j) i
  = mget m (ndof1 + j) i + w * vget shape1 i * vget shape2 j.
Proof.
  intros Hi Hj.
  apply (loop2_hit ndof1 ndof2
           (fun i j e => e + w * vget shape1 i * vget shape2 j)
           (fun _ j => (ndof1 + j)%nat) (fun i _ => i)
           (ndof1 + ndof2) i j);
    [done|done|done|lia|lia|]. intros; lia.
Qed.

Lemma block21_miss a b :
  (a < ndof1)%nat \/ (ndof1 <= b)%nat ->
  mget (block21 ndof1 ndof2 w shape1 shape2 m) a b = mget m a b.
Proof.
  intros Hab.
  apply (loop2_miss ndof1 ndof2 _ (fun _ j => (ndof1 + j)%nat) (fun i _ => i)).
  intros i j Hi Hj. lia.
Qed.

End Blocks.

(** ** One quadrature point of the face matrix *)

Section Scatter.

Variables (ndof1 ndof2 : nat) (w1 w2 : Q) (shape1 shape2 : Vector).
Variable m : DenseMatrix.

Lemma scatter_rows1_frame a b :
  nonzero w1 = false -> (a < ndof1)%nat ->
  mget (scatter ndof1 ndof2 w1 w2 shape1 shape2 m) a b = mget m a b.
Proof.
  intros Hw Ha. unfold scatter. rewrite Hw.
  destruct (ndof2 =? 0)%nat; [done|].
  destruct (nonzero w2); [|done].
  rewrite block21_miss by lia. by rewrite block22_miss by lia.
Qed.

Lemma scatter_rows2_frame a b :
  nonzero w2 = false -> (ndof1 <= a)%nat ->
  mget (scatter ndof1 ndof2 w1 w2 shape1 shape2 m) a b = mget m a b.
Proof.
  intros Hw Ha. unfold scatter. rewrite Hw.
  destruct (nonzero w1).
  - destruct (ndof2 =? 0)%nat.
    + by rewrite block11_miss by lia.
    + rewrite block12_miss by lia. by rewrite block11_miss by lia.
  - by destruct (ndof2 =? 0)%nat.
Qed.

Hypothesis Hm : square (ndof1 + ndof2) m.

Lemma scatter_square :
  square (ndof1 + ndof2) (scatter ndof1 ndof2 w1 w2 shape1 shape2 m).
Proof.
  unfold scatter.
  assert (square (ndof1 + ndof2)
            (if nonzero w1 then block11 ndof1 w1 shape1 m else m)) as H1.
  { destruct (nonzero w1); [by apply block11_square|done]. }
  destruct (ndof2 =? 0)%nat; [done|].
  assert (square (ndof1 + ndof2)
            (if nonzero w1
             then block12 ndof1 ndof2 w1 shape1 shape2
                    (if nonzero w1 then block11 ndof1 w1 shape1 m else m)
             else if nonzero w1 then block11 ndof1 w1 shape1 m else m)) as H2.
  { destruct (nonzero w1); [by apply block12_square|done]. }
  destruct (nonzero w2); [|done].
  by apply block21_square, block22_square.
Qed.

Lemma scatter_11 i j :
  (i < ndof1)%nat -> (j < ndof1)%nat ->
  mget (scatter ndof1 ndof2 w1 w2 shape1 shape2 m) i j
  = if nonzero w1 then mget m i j + w1 * vget shape1 i * vget shape1 j
    else mget m i j.
Proof.
  intros Hi Hj. unfold scatter.
  destruct (nonzero w1) eqn:Hw1.
  - destruct (ndof2 =? 0)%nat; [by apply (block11_hit _ ndof2)|].
    destruct (nonzero w2).
    + rewrite block21_miss by lia. rewrite block22_miss by lia.
      rewrite block12_miss by lia. by apply (block11_hit _ ndof2).
    + rewrite block12_miss by lia. by apply (block11_hit _ ndof2).
  - destruct (ndof2 =? 0)%nat; [done|].
    destruct (nonzero w2); [|done].
    rewrite block21_miss by lia. by rewrite block22_miss by lia.
Qed.

Lemma scatter_12 i j :
  (i < ndof2)%nat -> (j < ndof1)%nat ->
  mget (scatter ndof1 ndof2 w1 w2 shape1 shape2 m) j (ndof1 + i)
  = if nonzero w1
    then mget m j (ndof1 + i) - w1 * vget shape2 i * vget shape1 j
    else mget m j (ndof1 + i).
Proof.
  intros Hi Hj. unfold scatter.
  destruct (ndof2 =? 0)%nat eqn:Hn; [apply Nat.eqb_eq in Hn; lia|].
  destruct (nonzero w1) eqn:Hw1.
  - assert (mget (block12 ndof1 ndof2 w1 shape1 shape2
                    (block11 ndof1 w1 shape1 m)) j (ndof1 + i)
            = mget m j (ndof1 + i) - w1 * vget shape2 i * vget shape1 j) as H.
    { rewrite block12_hit by (by apply block11_square || done).
      by rewrite block11_miss by lia. }
    destruct (nonzero w2); [|done].
    rewrite block21_miss by lia. by rewrite block22_miss by lia.
  - destruct (nonzero w2); [|done].
    rewrite block21_miss by lia. by rewrite block22_miss by lia.
Qed.

Lemma scatter_22 i j :
  (i < ndof2)%nat -> (j < ndof2)%nat ->
  mget (scatter ndof1 ndof2 w1 w2 shape1 shape2 m) (ndof1 + i) (ndof1 + j)
  = if nonzero w2
    then mget m (ndof1 + i) (ndof1 + j) - w2 * vget shape2 i * vget shape2 j
    else mget m (ndof1 + i) (ndof1 + j).
Proof.
  intros Hi Hj.
  destruct (nonzero w2) eqn:Hw2; [|by apply scatter_rows2_frame; [|lia]].
  unfold scatter. rewrite Hw2.
  destruct (ndof2 =? 0)%nat eqn:Hn; [apply Nat.eqb_eq in Hn; lia|].
  rewrite block21_miss by lia.
  destruct (nonzero w1).
  - rewrite block22_hit by (by apply block12_square, block11_square || done).
    rewrite block12_miss by lia. by rewrite block11_miss by lia.
  - by rewrite block22_hit.
Qed.

Lemma scatter_21 i j :
  (i < ndof1)%nat -> (j < ndof2)%nat ->
  mget (scatter ndof1 ndof2 w1 w2 shape1 shape2 m) (ndof1 + j) i
  = if nonzero w2
    then mget m (ndof1 + j) i + w2 * vget shape1 i * vget shape2 j
    else mget m (ndof1 + j) i.
Proof.
  intros Hi Hj.
  destruct (nonzero w2) eqn:Hw2; [|by apply scatter_rows2_frame; [|lia]].
  unfold scatter. rewrite Hw2.
  destruct (ndof2 =? 0)%nat eqn:Hn; [apply Nat.eqb_eq in Hn; lia|].
  destruct (nonzero w1).
  - rewrite block21_hit
      by (by apply block22_square, block12_square, block11_square || done).
    rewrite block22_miss by lia.
    rewrite block12_miss by lia. by rewrite block11_miss by lia.
  - rewrite block21_hit by (by apply block22_square || done).
    by rewrite block22_miss by lia.
Qed.

(** The same four facts without the case distinction on the weights. *)

Lemma scatter_11_eq i j :
  (i < ndof1)%nat -> (j < ndof1)%nat ->
  mget (scatter ndof1 ndof2 w1 w2 shape1 shape2 m) i j
  == mget m i j + w1 * vget shape1 i * vget shape1 j.
Proof.
  intros Hi Hj. rewrite scatter_11 by done.
  destruct (nonzero w1) eqn:Hw; [reflexivity|].
  apply nonzero_false in Hw. rewrite Hw. ring.
Qed.

Lemma scatter_12_eq i j :
  (i < ndof2)%nat -> (j < ndof1)%nat ->
  mget (scatter ndof1 ndof2 w1 w2 shape1 shape2 m) j (ndof1 + i)
  == mget m j (ndof1 + i) - w1 * vget shape2 i * vget shape1 j.
Proof.
  intros Hi Hj. rewrite scatter_12 by done.
  destruct (nonzero w1) eqn:Hw; [reflexivity|].
  apply nonzero_false in Hw. rewrite Hw. ring.
Qed.

Lemma scatter_22_eq i j :
  (i < ndof2)%nat -> (j < ndof2)%nat ->
  mget (scatter ndof1 ndof2 w1 w2 shape1 shape2 m) (ndof1 + i) (ndof1 + j)
  == mget m (ndof1 + i) (ndof1 + j) - w2 * vget shape2 i * vget shape2 j.
Proof.
  intros Hi Hj. rewrite scatter_22 by done.
  destruct (nonzero w2) eqn:Hw; [reflexivity|].
  apply nonzero_false in Hw. rewrite Hw. ring.
Qed.

Lemma scatter_21_eq i j :
  (i < ndof1)%nat -> (j < ndof2)%nat ->
  mget (scatter ndof1 ndof2 w1 w2 shape1 shape2 m) (ndof1 + j) i
  == mget m (ndof1 + j) i + w2 * vget shape1 i * vget shape2 j.
Proof.
  intros Hi Hj. rewrite scatter_21 by done.
  destruct (nonzero w2) eqn:Hw; [reflexivity|].
  apply nonzero_false in Hw. rewrite Hw. ring.
Qed.

End Scatter.

(** ** Finite sums *)

Section Sums.

Context {A : Type}.

Lemma sum_ext (f g : A -> Q) (l : list A) :
  (forall a, a ∈ l -> f a == g a) ->
  foldr (fun a acc => f a + acc) 0 l == foldr (fun a acc => g a + acc) 0 l.
Proof.
  induction l as [|a l IH]; intros H; simpl; [reflexivity|].
  rewrite (H a) by apply list_elem_of_here.
  rewrite IH; [reflexivity|]. intros b Hb. by apply H, list_elem_of_further.
Qed.

Lemma sum_plus (f g : A -> Q) (l : list A) :
  foldr (fun a acc => (f a + g a) + acc) 0 l
  == foldr (fun a acc => f a + acc) 0 l + foldr (fun a acc => g a + acc) 0 l.
Proof. induction l as [|a l IH]; simpl; [ring|]. rewrite IH. ring. Qed.

Lemma sum_scale (c : Q) (f : A -> Q) (l : list A) :
  foldr (fun a acc => c * f a + acc) 0 l
  == c * foldr (fun a acc => f a + acc) 0 l.
Proof. induction l as [|a l IH]; simpl; [ring|]. rewrite IH. ring. Qed.

Lemma sum_zero (l : list A) :
  foldr (fun (_ : A) acc => 0 + acc) 0 l == 0.
Proof. induction l as [|a l IH]; simpl; [reflexivity|]. rewrite IH. ring. Qed.

Lemma sum_app (f : A -> Q) (l k : list A) :
  foldr (fun a acc => f a + acc) 0 (l ++ k)
  == foldr (fun a acc => f a + acc) 0 l + foldr (fun a acc => f a + acc) 0 k.
Proof. induction l as [|a l IH]; simpl; [ring|]. rewrite IH. ring. Qed.

End Sums.

Lemma sum_exchange {A B : Type} (F : A -> B -> Q) (la : list A) (lb : list B) :
  foldr (fun a acc => foldr (fun b acc' => F a b + acc') 0 lb + acc) 0 la
  == foldr (fun b acc => foldr (fun a acc' => F a b + acc') 0 la + acc) 0 lb.
Proof.
  induction la as [|a la IH]; simpl.
  - symmetry. apply sum_zero.
  - rewrite IH. symmetry. apply sum_plus.
Qed.

Lemma sum_fmap {A B : Type} (g : A -> B) (f : B -> Q) (l : list A) :
  foldr (fun b acc => f b + acc) 0 (g <$> l)
  = foldr (fun a acc => f (g a) + acc) 0 l.
Proof. induction l as [|a l IH]; csimpl; [done|]. by rewrite IH. Qed.

Lemma isum_ext (n : nat) (f g : nat -> Q) :
  (forall i, (i < n)%nat -> f i == g i) -> isum n f == isum n g.
Proof.
  intros H. apply sum_ext. intros i Hi. apply H.
  apply elem_of_seq in Hi. lia.
Qed.

Lemma isum_split (n1 n2 : nat) (f : nat -> Q) :
  isum (n1 + n2) f == isum n1 f + isum n2 (fun j => f (n1 + j)%nat).
Proof.
  unfold isum. rewrite seq_app, sum_app. simpl.
  replace (seq n1 n2) with ((fun j => n1 + j)%nat <$> seq 0 n2).
  - rewrite sum_fmap. reflexivity.
  - rewrite fmap_add_seq. f_equal. lia.
Qed.

Lemma qsum_ext (f g : IntegrationPoint -> Q) (ir : IntegrationRule) :
  (forall ip, ip ∈ ir -> f ip == g ip) -> qsum f ir == qsum g ir.
Proof. apply sum_ext. Qed.

Lemma isum_qsum (n : nat) (F : nat -> IntegrationPoint -> Q)
    (ir : IntegrationRule) :
  isum n (fun j => qsum (F j) ir) == qsum (fun ip => isum n (fun j => F j ip)) ir.
Proof. apply (sum_exchange F (seq 0 n) ir). Qed.

Lemma isum_scale (n : nat) (c : Q) (f : nat -> Q) :
  isum n (fun j => c * f j) == c * isum n f.
Proof. apply sum_scale. Qed.

(** ** The upwind weights *)

Lemma upwind_w1_split (ip : IntegrationPoint) (un : Q) :
  upwind_w1 ip un == ip_weight ip * (0.5 * (un + Qabs un)).
Proof. unfold upwind_w1. ring. Qed.

Lemma upwind_w2_split (ip : IntegrationPoint) (un : Q) :
  upwind_w2 ip un == ip_weight ip * (0.5 * (un - Qabs un)).
Proof. unfold upwind_w2. ring. Qed.

Lemma upwind_w2_outflow (ip : IntegrationPoint) (un : Q) :
  0 < un -> nonzero (upwind_w2 ip un) = false.
Proof.
  intros Hun. unfold nonzero. apply negb_false_iff, Qeq_eq_bool.
  unfold upwind_w2. rewrite Qabs_pos by (by apply Qlt_le_weak). ring.
Qed.

Lemma upwind_w1_inflow (ip : IntegrationPoint) (un : Q) :
  un < 0 -> nonzero (upwind_w1 ip un) = false.
Proof.
  intros Hun. unfold nonzero. apply negb_false_iff, Qeq_eq_bool.
  unfold upwind_w1. rewrite Qabs_neg by (by apply Qlt_le_weak). ring.
Qed.

(** ** One quadrature point of [AssembleFaceMatrix] *)

Lemma face_point_elmat I el1 el2 ndof1 ndof2 st ip :
  fs_elmat (face_point I el1 el2 ndof1 ndof2 st ip)
  = scatter ndof1 ndof2
      (upwind_w1 ip (face_un I st ip)) (upwind_w2 ip (face_un I st ip))
      (CalcShape el1 (Loc1 (fs_Trans st) ip))
      (CalcShape el2 (Loc2 (fs_Trans st) ip)) (fs_elmat st).
Proof. reflexivity. Qed.

(** What one quadrature point adds to each block, and what it leaves
    alone. *)
Lemma face_point_weights (I : DGFaceIntegrator) (el1 el2 : FiniteElement)
    (ndof1 ndof2 : nat) (st : FaceState) (ip : IntegrationPoint) :
  square (ndof1 + ndof2) (fs_elmat st) ->
  let un := face_un I st ip in
  let w1 := ip_weight ip * (0.5 * (un + Qabs un)) in
  let w2 := ip_weight ip * (0.5 * (un - Qabs un)) in
  let shape1 := CalcShape el1 (Loc1 (fs_Trans st) ip) in
  let shape2 := CalcShape el2 (Loc2 (fs_Trans st) ip) in
  let old := fs_elmat st in
  let new := fs_elmat (face_point I el1 el2 ndof1 ndof2 st ip) in
  (forall i j, (i < ndof1)%nat -> (j < ndof1)%nat ->
     mget new i j == mget old i j + w1 * (vget shape1 i * vget shape1 j)) /\
  (forall i j, (i < ndof2)%nat -> (j < ndof1)%nat ->
     mget new j (ndof1 + i)
     == mget old j (ndof1 + i) - w1 * (vget shape2 i * vget shape1 j)) /\
  (forall i j, (i < ndof2)%nat -> (j < ndof2)%nat ->
     mget new (ndof1 + i) (ndof1 + j)
     == mget old (ndof1 + i) (ndof1 + j)
        - w2 * (vget shape2 i * vget shape2 j)) /\
  (forall i j, (i < ndof1)%nat -> (j < ndof2)%nat ->
     mget new (ndof1 + j) i
     == mget old (ndof1 + j) i + w2 * (vget shape1 i * vget shape2 j)) /\
  (0 < un -> forall a b, (ndof1 <= a)%nat -> mget new a b = mget old a b) /\
  (un < 0 -> forall a b, (a < ndof1)%nat -> mget new a b = mget old a b).
Proof.
  intros Hsq un w1 w2 shape1 shape2 old new.
  subst new. rewrite face_point_elmat. fold un shape1 shape2 old.
  assert (upwind_w1 ip un == w1) as E1 by apply upwind_w1_split.
  assert (upwind_w2 ip un == w2) as E2 by apply upwind_w2_split.
  repeat split.
  - intros i j Hi Hj. rewrite scatter_11_eq by done. rewrite E1. ring.
  - intros i j Hi Hj. rewrite scatter_12_eq by done. rewrite E1. ring.
  - intros i j Hi Hj. rewrite scatter_22_eq by done. rewrite E2. ring.
  - intros i j Hi Hj. rewrite scatter_21_eq by done. rewrite E2. ring.
  - intros Hun a b Ha. apply scatter_rows2_frame; [|done].
    by apply upwind_w2_outflow.
  - intros Hun a b Ha. apply scatter_rows1_frame; [|done].
    by apply upwind_w1_inflow.
Qed.

(** ** The whole quadrature loop of [AssembleFaceMatrix] *)

Lemma set_nor_set_nor (nor : Vector) (p q : IntegrationPoint) :
  set_nor (set_nor nor p) q = set_nor nor q.
Proof. unfold set_nor. apply list_insert_insert_eq. Qed.

Lemma face_inv_refl (st0 : FaceState) : face_inv st0 st0.
Proof. by repeat split. Qed.

Lemma face_inv_step I el1 el2 ndof1 ndof2 st0 st ip :
  face_inv st0 st -> face_inv st0 (face_point I el1 el2 ndof1 ndof2 st ip).
Proof.
  intros (HL1 & HL2 & HE & Hn). repeat split.
  - exact HL1.
  - exact HL2.
  - intros p.
    transitivity (SetIntPoint (Elem1 (fs_Trans st)) p); [reflexivity|apply HE].
  - intros p. cbn [face_point fs_nor]. rewrite set_nor_set_nor. apply Hn.
Qed.

Lemma face_inv_foldl I el1 el2 ndof1 ndof2 st0 ir st :
  face_inv st0 st ->
  face_inv st0 (foldl (face_point I el1 el2 ndof1 ndof2) st ir).
Proof.
  revert st. induction ir as [|ip ir IH]; intros st Hinv; simpl; [done|].
  by apply IH, face_inv_step.
Qed.

Lemma face_un_inv I st0 st ip :
  face_inv st0 st -> face_un I st ip = face_un I st0 ip.
Proof.
  intros (HL1 & HL2 & HE & Hn). unfold face_un. by rewrite HL1, HE, Hn.
Qed.

Section FaceLoop.

Variables (I : DGFaceIntegrator) (el1 el2 : FiniteElement).
Variables (ndof1 ndof2 : nat) (st0 : FaceState).

Let w1 (ip : IntegrationPoint) : Q := upwind_w1 ip (face_un I st0 ip).
Let w2 (ip : IntegrationPoint) : Q := upwind_w2 ip (face_un I st0 ip).
Let s1 (ip : IntegrationPoint) : Vector :=
  CalcShape el1 (Loc1 (fs_Trans st0) ip).
Let s2 (ip : IntegrationPoint) : Vector :=
  CalcShape el2 (Loc2 (fs_Trans st0) ip).

Lemma face_point_scatter st ip :
  face_inv st0 st ->
  fs_elmat (face_point I el1 el2 ndof1 ndof2 st ip)
  = scatter ndof1 ndof2 (w1 ip) (w2 ip) (s1 ip) (s2 ip) (fs_elmat st).
Proof.
  intros Hinv. rewrite face_point_elmat.
  rewrite (face_un_inv I st0 st ip Hinv).
  destruct Hinv as (HL1 & HL2 & _). by rewrite HL1, HL2.
Qed.

Lemma face_loop_sum (ir : IntegrationRule) (st : FaceState) :
  face_inv st0 st ->
  square (ndof1 + ndof2) (fs_elmat st) ->
  let final := fs_elmat (foldl (face_point I el1 el2 ndof1 ndof2) st ir) in
  square (ndof1 + ndof2) final /\
  (forall i j, (i < ndof1)%nat -> (j < ndof1)%nat ->
     mget final i j
     == mget (fs_elmat st) i j
        + qsum (fun ip => w1 ip * vget (s1 ip) i * vget (s1 ip) j) ir) /\
  (forall i j, (i < ndof2)%nat -> (j < ndof1)%nat ->
     mget final j (ndof1 + i)
     == mget (fs_elmat st) j (ndof1 + i)
        - qsum (fun ip => w1 ip * vget (s2 ip) i * vget (s1 ip) j) ir) /\
  (forall i j, (i < ndof2)%nat -> (j < ndof2)%nat ->
     mget final (ndof1 + i) (ndof1 + j)
     == mget (fs_elmat st) (ndof1 + i) (ndof1 + j)
        - qsum (fun ip => w2 ip * vget (s2 ip) i * vget (s2 ip) j) ir) /\
  (forall i j, (i < ndof1)%nat -> (j < ndof2)%nat ->
     mget final (ndof1 + j) i
     == mget (fs_elmat st) (ndof1 + j) i
        + qsum (fun ip => w2 ip * vget (s1 ip) i * vget (s2 ip) j) ir).
Proof.
  revert st. induction ir as [|ip ir IH]; intros st Hinv Hsq; simpl.
  - split; [done|]. repeat split; intros; ring.
  - pose proof (face_inv_step I el1 el2 ndof1 ndof2 st0 st ip Hinv) as Hinv'.
    pose proof (face_point_scatter st ip Hinv) as Hstep.
    assert (square (ndof1 + ndof2)
              (fs_elmat (face_point I el1 el2 ndof1 ndof2 st ip))) as Hsq'.
    { rewrite Hstep. by apply scatter_square. }
    destruct (IH _ Hinv' Hsq') as (Hfin & H11 & H12 & H22 & H21).
    split; [done|]. repeat split; intros i j Hi Hj.
    + rewrite H11 by done. rewrite Hstep, scatter_11_eq by done. ring.
    + rewrite H12 by done. rewrite Hstep, scatter_12_eq by done. ring.
    + rewrite H22 by done. rewrite Hstep, scatter_22_eq by done. ring.
    + rewrite H21 by done. rewrite Hstep, scatter_21_eq by done. ring.
Qed.

End FaceLoop.

Lemma face_ndof2_interior el2 Trans :
  (0 <= Elem2No Trans)%Z -> face_ndof2 el2 Trans = GetDof el2.
Proof. intros H. unfold face_ndof2. by apply Z.leb_le in H as ->. Qed.

Lemma face_ndof2_boundary el2 Trans :
  (Elem2No Trans < 0)%Z -> face_ndof2 el2 Trans = 0%nat.
Proof.
  intros H. unfold face_ndof2.
  destruct (0 <=? Elem2No Trans)%Z eqn:E; [|done]. apply Z.leb_le in E. lia.
Qed.

Lemma face_loop_frame (I : DGFaceIntegrator) (el1 el2 : FiniteElement)
    (ndof1 ndof2 : nat) (st0 : FaceState) (keep : nat -> Prop)
    (ir : IntegrationRule) (st : FaceState) :
  face_inv st0 st ->
  (forall ip a b, ip ∈ ir -> keep a ->
     forall m,
       mget (scatter ndof1 ndof2
               (upwind_w1 ip (face_un I st0 ip))
               (upwind_w2 ip (face_un I st0 ip))
               (CalcShape el1 (Loc1 (fs_Trans st0) ip))
               (CalcShape el2 (Loc2 (fs_Trans st0) ip)) m) a b
       = mget m a b) ->
  forall a b, keep a ->
    mget (fs_elmat (foldl (face_point I el1 el2 ndof1 ndof2) st ir)) a b
    = mget (fs_elmat st) a b.
Proof.
  revert st. induction ir as [|ip ir IH]; intros st Hinv Hkeep a b Ha; simpl.
  - done.
  - rewrite IH; [|by apply face_inv_step| |done].
    + rewrite (face_point_scatter I el1 el2 ndof1 ndof2 st0 st ip Hinv).
      apply Hkeep; [left|done].
    + intros ip' a' b' Hin. apply Hkeep. by right.
Qed.

(** The matrix after the points of a rule [r], in closed form: every
    entry of the four blocks is a sum over the points of [r]. *)
Lemma face_matrix_sums (I : DGFaceIntegrator) (el1 el2 : FiniteElement)
    (Trans : FaceElementTransformations) (junk : nat -> Q)
    (cout : list OutItem) (r : IntegrationRule) :
  let ndof1 := GetDof el1 in
  let ndof2 := face_ndof2 el2 Trans in
  let st0 := face_init junk el1 el2 Trans cout in
  let un p := face_un I st0 p in
  let w1 p := ip_weight p * (0.5 * (un p + Qabs (un p))) in
  let w2 p := ip_weight p * (0.5 * (un p - Qabs (un p))) in
  let s1 p := CalcShape el1 (Loc1 Trans p) in
  let s2 p := CalcShape el2 (Loc2 Trans p) in
  let m := fs_elmat (foldl (face_point I el1 el2 ndof1 ndof2) st0 r) in
  (forall i j, (i < ndof1)%nat -> (j < ndof1)%nat ->
     mget m i j == qsum (fun p => w1 p * (vget (s1 p) i * vget (s1 p) j)) r) /\
  (forall i j, (i < ndof2)%nat -> (j < ndof1)%nat ->
     mget m j (ndof1 + i)
     == - qsum (fun p => w1 p * (vget (s2 p) i * vget (s1 p) j)) r) /\
  (forall i j, (i < ndof2)%nat -> (j < ndof2)%nat ->
     mget m (ndof1 + i) (ndof1 + j)
     == - qsum (fun p => w2 p * (vget (s2 p) i * vget (s2 p) j)) r) /\
  (forall i j, (i < ndof1)%nat -> (j < ndof2)%nat ->
     mget m (ndof1 + j) i
     == qsum (fun p => w2 p * (vget (s1 p) i * vget (s2 p) j)) r).
Proof.
  intros ndof1 ndof2 st0 un w1 w2 s1 s2 m.
  assert (square (ndof1 + ndof2) (fs_elmat st0)) as Hsq0
    by apply square_mzero.
  destruct (face_loop_sum I el1 el2 ndof1 ndof2 st0 r st0
              (face_inv_refl st0) Hsq0) as (_ & H11 & H12 & H22 & H21).
  assert (forall a b, mget (fs_elmat st0) a b = 0) as H0.
  { intros a b. apply mget_mzero. }
  assert (forall p, upwind_w1 p (face_un I st0 p) == w1 p) as E1.
  { intros p. apply upwind_w1_split. }
  assert (forall p, upwind_w2 p (face_un I st0 p) == w2 p) as E2.
  { intros p. apply upwind_w2_split. }
  change (fs_Trans st0) with Trans in H11, H12, H22, H21.
  fold m in H11, H12, H22, H21.
  clearbody m w1 w2 st0 ndof1 ndof2. clear un.
  repeat split; intros i j Hi Hj.
  - rewrite H11, H0 by done. rewrite Qplus_0_l. apply qsum_ext.
    intros p _. rewrite E1. unfold s1. ring.
  - rewrite H12, H0 by done.
    rewrite (qsum_ext _ (fun p => w1 p * (vget (s2 p) i * vget (s1 p) j))).
    + ring.
    + intros p _. rewrite E1. unfold s1, s2. ring.
  - rewrite H22, H0 by done.
    rewrite (qsum_ext _ (fun p => w2 p * (vget (s2 p) i * vget (s2 p) j))).
    + ring.
    + intros p _. rewrite E2. unfold s2. ring.
  - rewrite H21, H0 by done. rewrite Qplus_0_l. apply qsum_ext.
    intros p _. rewrite E2. unfold s1, s2. ring.
Qed.

(** C1 (amended): the matrix [AssembleFaceMatrix] returns is the result of
    its loop over all the points of the rule, and every entry is a sum over
    these points in which the element-1 rows carry the weight
    ip.weight * 0.5*(un+|un|) and the element-2 rows the weight
    ip.weight * 0.5*(un-|un|), un being the normal velocity at the point.
    Point by point: running the function on the points [pre] and on
    [pre] followed by [ip] changes the entries by exactly these weights
    times shape values; a point with un > 0 leaves every element-2 row
    untouched, and a point with un < 0 leaves every element-1 row
    untouched, the cross block (element-1 rows, element-2 columns)
    included.  When un > 0 at every point the element-2 rows of the matrix
    returned are zero, and when un < 0 at every point its element-1 rows
    are zero. *)
Theorem C1_upwind_weights
    (IntRules_Get : Geometry -> Z -> IntegrationRule) (junk : nat -> Q)
    (I : DGFaceIntegrator) (el1 el2 : FiniteElement)
    (Trans : FaceElementTransformations) (cout : list OutItem) :
  let ndof1 := GetDof el1 in
  let ndof2 := face_ndof2 el2 Trans in
  let un p := face_un I (face_init junk el1 el2 Trans cout) p in
  let w1 p := ip_weight p * (0.5 * (un p + Qabs (un p))) in
  let w2 p := ip_weight p * (0.5 * (un p - Qabs (un p))) in
  let s1 p := CalcShape el1 (Loc1 Trans p) in
  let s2 p := CalcShape el2 (Loc2 Trans p) in
  let ir := face_rule IntRules_Get I el1 el2 Trans in
  let after (r : IntegrationRule) :=
    fs_elmat (AssembleFaceMatrix IntRules_Get junk
                {| dg_u := dg_u I; dg_IntRule := Some r |}
                el1 el2 Trans cout) in
  let elmat :=
    fs_elmat (AssembleFaceMatrix IntRules_Get junk I el1 el2 Trans cout) in
  elmat = after ir /\
  after [] = mzero (ndof1 + ndof2) /\
  ((forall i j, (i < ndof1)%nat -> (j < ndof1)%nat ->
      mget elmat i j
      == qsum (fun p => w1 p * (vget (s1 p) i * vget (s1 p) j)) ir) /\
   (forall i j, (i < ndof2)%nat -> (j < ndof1)%nat ->
      mget elmat j (ndof1 + i)
      == - qsum (fun p => w1 p * (vget (s2 p) i * vget (s1 p) j)) ir) /\
   (forall i j, (i < ndof2)%nat -> (j < ndof2)%nat ->
      mget elmat (ndof1 + i) (ndof1 + j)
      == - qsum (fun p => w2 p * (vget (s2 p) i * vget (s2 p) j)) ir) /\
   (forall i j, (i < ndof1)%nat -> (j < ndof2)%nat ->
      mget elmat (ndof1 + j) i
      == qsum (fun p => w2 p * (vget (s1 p) i * vget (s2 p) j)) ir)) /\
  (forall (pre : IntegrationRule) (ip : IntegrationPoint),
     let old := after pre in
     let new := after (pre ++ [ip]) in
     (forall i j, (i < ndof1)%nat -> (j < ndof1)%nat ->
        mget new i j
        == mget old i j + w1 ip * (vget (s1 ip) i * vget (s1 ip) j)) /\
     (forall i j, (i < ndof2)%nat -> (j < ndof1)%nat ->
        mget new j (ndof1 + i)
        == mget old j (ndof1 + i)
           - w1 ip * (vget (s2 ip) i * vget (s1 ip) j)) /\
     (forall i j, (i < ndof2)%nat -> (j < ndof2)%nat ->
        mget new (ndof1 + i) (ndof1 + j)
        == mget old (ndof1 + i) (ndof1 + j)
           - w2 ip * (vget (s2 ip) i * vget (s2 ip) j)) /\
     (forall i j, (i < ndof1)%nat -> (j < ndof2)%nat ->
        mget new (ndof1 + j) i
        == mget old (ndof1 + j) i
           + w2 ip * (vget (s1 ip) i * vget (s2 ip) j)) /\
     (0 < un ip ->
      forall a b, (ndof1 <= a)%nat -> mget new a b = mget old a b) /\
     (un ip < 0 ->
      forall a b, (a < ndof1)%nat -> mget new a b = mget old a b)) /\
  ((forall p, p ∈ ir -> 0 < un p) ->
   forall a b, (ndof1 <= a)%nat -> mget elmat a b = 0) /\
  ((forall p, p ∈ ir -> un p < 0) ->
   forall a b, (a < ndof1)%nat -> mget elmat a b = 0).
Proof.
  intros ndof1 ndof2 un w1 w2 s1 s2 ir after elmat.
  set (st0 := face_init junk el1 el2 Trans cout) in *.
  assert (forall r, after r
            = fs_elmat (foldl (face_point I el1 el2 ndof1 ndof2) st0 r))
    as Hafter by (intros r; reflexivity).
  assert (elmat = after ir) as Hel by reflexivity.
  split; [exact Hel|]. split; [reflexivity|].
  split.
  { rewrite Hel, Hafter.
    apply (face_matrix_sums I el1 el2 Trans junk cout ir). }
  split.
  { intros pre ip old new. subst old new.
    rewrite !Hafter, foldl_snoc.
    set (st := foldl (face_point I el1 el2 ndof1 ndof2) st0 pre).
    assert (square (ndof1 + ndof2) (fs_elmat st0)) as Hsq0
      by apply square_mzero.
    destruct (face_loop_sum I el1 el2 ndof1 ndof2 st0 pre st0
                (face_inv_refl st0) Hsq0) as (Hsq & _).
    assert (face_inv st0 st) as Hinv
      by apply face_inv_foldl, face_inv_refl.
    assert (Loc1 (fs_Trans st) = Loc1 Trans
            /\ Loc2 (fs_Trans st) = Loc2 Trans)
      as [HL1 HL2] by (destruct Hinv as (? & ? & _); done).
    pose proof (face_point_weights I el1 el2 ndof1 ndof2 st ip Hsq) as Hpt.
    cbv zeta in Hpt.
    rewrite HL1, HL2, (face_un_inv I st0 st ip Hinv) in Hpt.
    exact Hpt. }
  split.
  - intros Hall a b Ha. rewrite Hel, Hafter.
    rewrite (face_loop_frame I el1 el2 ndof1 ndof2 st0
               (fun a => (ndof1 <= a)%nat)); [apply mget_mzero| | |done].
    + apply face_inv_refl.
    + intros p a' b' Hp Ha' m. apply scatter_rows2_frame; [|done].
      by apply upwind_w2_outflow, Hall.
  - intros Hall a b Ha. rewrite Hel, Hafter.
    rewrite (face_loop_frame I el1 el2 ndof1 ndof2 st0
               (fun a => (a < ndof1)%nat)); [apply mget_mzero| | |done].
    + apply face_inv_refl.
    + intros p a' b' Hp Ha' m. apply scatter_rows1_frame; [|done].
      by apply upwind_w1_inflow, Hall.
Qed.

Lemma C1_upwind_weights_witness :
  (let elmat :=
     fs_elmat (AssembleFaceMatrix Ex.IntRules Ex.junk Ex.dg
                 Ex.segment Ex.segment Ex.face_rl []) in
   0 < face_un Ex.dg (face_init Ex.junk Ex.segment Ex.segment Ex.face_rl [])
         Ex.face_ip /\
   mget elmat 0 0 == 1 /\ mget elmat 0 3 == - (1) /\
   forall a b, (2 <= a)%nat -> mget elmat a b = 0) /\
  (let elmat :=
     fs_elmat (AssembleFaceMatrix Ex.IntRules Ex.junk Ex.dg
                 Ex.segment Ex.segment Ex.face_lr []) in
   face_un Ex.dg (face_init Ex.junk Ex.segment Ex.segment Ex.face_lr [])
     Ex.face_ip < 0 /\
   mget elmat 2 2 == 1 /\ mget elmat 2 1 == - (1) /\
   forall a b, (a < 2)%nat -> mget elmat a b = 0).
Proof.
  split.
  - split; [reflexivity|].
    pose proof (C1_upwind_weights Ex.IntRules Ex.junk Ex.dg Ex.segment
                  Ex.segment Ex.face_rl [])
      as (_ & _ & (H11 & H12 & _ & _) & _ & Hout & _).
    split; [|split].
    + etransitivity; [apply (H11 0%nat 0%nat); vm_compute; lia|reflexivity].
    + etransitivity; [apply (H12 1%nat 0%nat); vm_compute; lia|reflexivity].
    + apply Hout. intros p Hp. apply list_elem_of_singleton in Hp as ->.
      reflexivity.
  - split; [reflexivity|].
    pose proof (C1_upwind_weights Ex.IntRules Ex.junk Ex.dg Ex.segment
                  Ex.segment Ex.face_lr [])
      as (_ & _ & (_ & _ & H22 & H21) & _ & _ & Hin).
    split; [|split].
    + etransitivity; [apply (H22 0%nat 0%nat); vm_compute; lia|reflexivity].
    + etransitivity; [apply (H21 1%nat 0%nat); vm_compute; lia|reflexivity].
    + apply Hin. intros p Hp. apply list_elem_of_singleton in Hp as ->.
      reflexivity.
Defined.

(** C1 as stated fails: with a face point of quadrature weight 2 and
    normal velocity un = 1 the entry (0, 0) of the matrix is 2, not
    0.5*(un+|un|) = 1 times the shape values: the weight the code applies
    carries the quadrature weight. *)
Lemma C1_counterexample :
  let I := {| dg_u := Ex.velocity; dg_IntRule := Some [Ex.ip_at 0 2] |} in
  let ip := Ex.ip_at 0 2 in
  let un :=
    face_un I (face_init Ex.junk Ex.segment Ex.segment Ex.face_rl []) ip in
  let shape1 := CalcShape Ex.segment (Loc1 Ex.face_rl ip) in
  let elmat :=
    fs_elmat (AssembleFaceMatrix Ex.IntRules Ex.junk I Ex.segment Ex.segment
                Ex.face_rl []) in
  ~ (mget elmat 0 0
     == 0 + 0.5 * (un + Qabs un) * (vget shape1 0 * vget shape1 0)).
Proof.
  intros I ip un shape1 elmat H. vm_compute in H. discriminate H.
Qed.

(** The face matrices of the two-element mesh, velocity -1: seen from the
    left element (un = -1) only the element-2 rows are filled, seen from
    the right element (un = 1) only the element-1 rows. *)
Example face_lr_elmat :
  map (map Qred)
    (fs_elmat (AssembleFaceMatrix Ex.IntRules Ex.junk Ex.dg
                 Ex.segment Ex.segment Ex.face_lr []))
  = [[0; 0; 0; 0]; [0; 0; 0; 0]; [0; - (1); 1; 0]; [0; 0; 0; 0]].
Proof. reflexivity. Qed.

Example face_rl_elmat :
  map (map Qred)
    (fs_elmat (AssembleFaceMatrix Ex.IntRules Ex.junk Ex.dg
                 Ex.segment Ex.segment Ex.face_rl []))
  = [[1; 0; 0; - (1)]; [0; 0; 0; 0]; [0; 0; 0; 0]; [0; 0; 0; 0]].
Proof. reflexivity. Qed.

(** C4: on an interior face the matrix returned is the zero matrix of
    size (ndof1+ndof2) x (ndof1+ndof2) to which four blocks were added
    over the quadrature points: the element-1/element-1 block with +, the
    element-2 contribution to the element-1 rows with -, the
    element-2/element-2 block with -, and the element-1 contribution to
    the element-2 rows with +. *)
Theorem C4_interior_face_blocks
    (IntRules_Get : Geometry -> Z -> IntegrationRule) (junk : nat -> Q)
    (I : DGFaceIntegrator) (el1 el2 : FiniteElement)
    (Trans : FaceElementTransformations) (cout : list OutItem) :
  (0 <= Elem2No Trans)%Z ->
  let ndof1 := GetDof el1 in
  let ndof2 := GetDof el2 in
  let st0 := face_init junk el1 el2 Trans cout in
  let ir := face_rule IntRules_Get I el1 el2 Trans in
  let elmat :=
    fs_elmat (AssembleFaceMatrix IntRules_Get junk I el1 el2 Trans cout) in
  let w1 ip := upwind_w1 ip (face_un I st0 ip) in
  let w2 ip := upwind_w2 ip (face_un I st0 ip) in
  let s1 ip := CalcShape el1 (Loc1 Trans ip) in
  let s2 ip := CalcShape el2 (Loc2 Trans ip) in
  fs_elmat st0 = mzero (ndof1 + ndof2) /\
  square (ndof1 + ndof2) elmat /\
  (forall i j, (i < ndof1)%nat -> (j < ndof1)%nat ->
     mget elmat i j
     == 0 + qsum (fun ip => w1 ip * vget (s1 ip) i * vget (s1 ip) j) ir) /\
  (forall i j, (i < ndof2)%nat -> (j < ndof1)%nat ->
     mget elmat j (ndof1 + i)
     == 0 - qsum (fun ip => w1 ip * vget (s2 ip) i * vget (s1 ip) j) ir) /\
  (forall i j, (i < ndof2)%nat -> (j < ndof2)%nat ->
     mget elmat (ndof1 + i) (ndof1 + j)
     == 0 - qsum (fun ip => w2 ip * vget (s2 ip) i * vget (s2 ip) j) ir) /\
  (forall i j, (i < ndof1)%nat -> (j < ndof2)%nat ->
     mget elmat (ndof1 + j) i
     == 0 + qsum (fun ip => w2 ip * vget (s1 ip) i * vget (s2 ip) j) ir).
Proof.
  intros Hint ndof1 ndof2 st0 ir elmat w1 w2 s1 s2.
  assert (fs_elmat st0 = mzero (ndof1 + ndof2)) as Hz.
  { subst st0. unfold face_init. simpl. by rewrite face_ndof2_interior. }
  split; [done|].
  assert (square (ndof1 + ndof2) (fs_elmat st0)) as Hsq.
  { rewrite Hz. apply square_mzero. }
  pose proof (face_loop_sum I el1 el2 ndof1 ndof2 st0 ir st0
                (face_inv_refl st0) Hsq) as (Hfin & H11 & H12 & H22 & H21).
  assert (elmat
          = fs_elmat (foldl (face_point I el1 el2 ndof1 ndof2) st0 ir)) as ->.
  { subst elmat. unfold AssembleFaceMatrix.
    by rewrite face_ndof2_interior. }
  split; [done|].
  repeat split; intros i j Hi Hj.
  - rewrite H11 by done. rewrite Hz, mget_mzero. reflexivity.
  - rewrite H12 by done. rewrite Hz, mget_mzero. reflexivity.
  - rewrite H22 by done. rewrite Hz, mget_mzero. reflexivity.
  - rewrite H21 by done. rewrite Hz, mget_mzero. reflexivity.
Qed.

Lemma C4_interior_face_blocks_witness :
  (0 <= Elem2No Ex.face_lr)%Z /\
  let elmat :=
    fs_elmat (AssembleFaceMatrix Ex.IntRules Ex.junk Ex.dg
                Ex.segment Ex.segment Ex.face_lr []) in
  square (2 + 2) elmat /\
  mget elmat 2 2 == 1 /\ mget elmat 2 1 == - (1).
Proof.
  assert (0 <= Elem2No Ex.face_lr)%Z as H by (simpl; lia).
  split; [exact H|].
  pose proof (C4_interior_face_blocks Ex.IntRules Ex.junk Ex.dg
                Ex.segment Ex.segment Ex.face_lr [] H)
    as (_ & Hsq & _ & _ & H22 & H21).
  split; [exact Hsq|]. split.
  - rewrite (H22 0%nat 0%nat) by (simpl; lia). reflexivity.
  - rewrite (H21 1%nat 0%nat) by (simpl; lia). reflexivity.
Defined.

(** ** The boundary face and the inflow right-hand side *)

Lemma vget_vAdd (v : Vector) (a : Q) (s : Vector) (i : nat) :
  (i < length v)%nat -> vget (vAdd v a s) i = vget v i + a * vget s i.
Proof.
  intros Hi. destruct (lookup_lt_is_Some_2 v i Hi) as [e He].
  unfold vAdd, vget at 1. rewrite list_lookup_imap, He. simpl.
  unfold vget. by rewrite He.
Qed.

Lemma inflow_w_nonzero (un : Q) : ~ inflow_w un == 0 <-> un < 0.
Proof.
  unfold inflow_w. split.
  - intros Hw. destruct (Qlt_le_dec un 0) as [|Hge]; [done|].
    exfalso. apply Hw. rewrite Qabs_pos by done. ring.
  - intros Hun Hw. rewrite Qabs_neg in Hw by (by apply Qlt_le_weak).
    assert (un == - (- 0.5 * (un - - un))) as E by ring.
    rewrite Hw in E. rewrite E in Hun. discriminate Hun.
Qed.

Lemma Qmult_nonzero (x y : Q) : ~ x * y == 0 <-> ~ x == 0 /\ ~ y == 0.
Proof.
  split.
  - intros H. split; intros E; apply H; rewrite E; ring.
  - intros [Hx Hy] E. apply Qmult_integral in E. tauto.
Qed.

Lemma rhs_point_elvect B el st ip :
  rs_elvect (rhs_point B el st ip)
  = vAdd (rs_elvect st) (rhs_weight B st ip)
      (CalcShape el (Loc1 (rs_Trans st) ip)).
Proof. reflexivity. Qed.

Lemma rhs_weight_split B st ip :
  rhs_weight B st ip
  == - 0.5 * (rhs_un B st ip - Qabs (rhs_un B st ip)) * ip_weight ip
     * Eval (ba_uD B) (Elem1 (rs_Trans st)) (Loc1 (rs_Trans st) ip).
Proof. unfold rhs_weight, inflow_w. ring. Qed.

Lemma rhs_inv_refl (st0 : RhsState) : rhs_inv st0 st0.
Proof. by repeat split. Qed.

Lemma rhs_inv_step B el st0 st ip :
  rhs_inv st0 st -> rhs_inv st0 (rhs_point B el st ip).
Proof.
  intros (HL & HE & Hn). repeat split.
  - exact HL.
  - exact HE.
  - intros p. cbn [rhs_point rs_nor]. rewrite set_nor_set_nor. apply Hn.
Qed.

Lemma rhs_weight_inv B st0 st ip :
  rhs_inv st0 st -> rhs_weight B st ip = rhs_weight B st0 ip.
Proof.
  intros (HL & HE & Hn). unfold rhs_weight, rhs_un. by rewrite HL, HE, Hn.
Qed.

Lemma length_vAdd (v : Vector) (a : Q) (s : Vector) :
  length (vAdd v a s) = length v.
Proof. unfold vAdd. apply length_imap. Qed.

(** The vector returned is the sum over the quadrature points of the
    point weights times the shape values. *)
Lemma rhs_loop_sum B el st0 (ir : IntegrationRule) (st : RhsState) :
  rhs_inv st0 st ->
  let final := rs_elvect (foldl (rhs_point B el) st ir) in
  length final = length (rs_elvect st) /\
  forall i, (i < length (rs_elvect st))%nat ->
    vget final i
    == vget (rs_elvect st) i
       + qsum (fun ip => rhs_weight B st0 ip
                         * vget (CalcShape el (Loc1 (rs_Trans st0) ip)) i) ir.
Proof.
  revert st. induction ir as [|ip ir IH]; intros st Hinv; simpl.
  - split; [done|]. intros; ring.
  - destruct (IH _ (rhs_inv_step B el st0 st ip Hinv)) as [Hlen Hsum].
    rewrite rhs_point_elvect, length_vAdd in Hlen, Hsum.
    split; [done|]. intros i Hi.
    rewrite Hsum, vget_vAdd by done.
    rewrite (rhs_weight_inv B st0 st ip Hinv).
    destruct Hinv as (-> & _). ring.
Qed.

Lemma face_boundary_independent IntRules_Get junk I el1 el2 el2' Trans cout :
  (Elem2No Trans < 0)%Z ->
  AssembleFaceMatrix IntRules_Get junk I el1 el2 Trans cout
  = AssembleFaceMatrix IntRules_Get junk I el1 el2' Trans cout.
Proof.
  intros Hb. unfold AssembleFaceMatrix, face_rule, face_order, face_init.
  rewrite !face_ndof2_boundary by done.
  destruct (0 <=? Elem2No Trans)%Z eqn:E; [apply Z.leb_le in E; lia|].
  done.
Qed.

(** C3 (amended): on a boundary face [AssembleFaceMatrix] takes ndof2 = 0
    and returns the ndof1 x ndof1 element-1 block alone; the inflow term
    comes from [BoundaryAdvectIntegrator::AssembleRHSElementVect], which
    adds at each quadrature point the shape values times
    -0.5*(un - |un|) times the quadrature weight times uD at the point.
    The factor -0.5*(un - |un|) is nonzero exactly when un < 0; the whole
    weight is nonzero exactly when, in addition, the quadrature weight and
    uD at the point are nonzero. *)
Theorem C3_boundary_face
    (IntRules_Get : Geometry -> Z -> IntegrationRule) (junk : nat -> Q)
    (I : DGFaceIntegrator) (B : BoundaryAdvectIntegrator)
    (el1 el2 : FiniteElement)
    (Trans : FaceElementTransformations) (cout : list OutItem) :
  (Elem2No Trans < 0)%Z ->
  let ndof1 := GetDof el1 in
  let st0 := face_init junk el1 el2 Trans cout in
  let ir := face_rule IntRules_Get I el1 el2 Trans in
  let elmat :=
    fs_elmat (AssembleFaceMatrix IntRules_Get junk I el1 el2 Trans cout) in
  face_ndof2 el2 Trans = 0%nat /\
  square ndof1 elmat /\
  (forall i j, (i < ndof1)%nat -> (j < ndof1)%nat ->
     mget elmat i j
     == qsum (fun ip => upwind_w1 ip (face_un I st0 ip)
                        * vget (CalcShape el1 (Loc1 Trans ip)) i
                        * vget (CalcShape el1 (Loc1 Trans ip)) j) ir) /\
  (forall (st : RhsState) (ip : IntegrationPoint),
     let un := rhs_un B st ip in
     let uD := Eval (ba_uD B) (Elem1 (rs_Trans st)) (Loc1 (rs_Trans st) ip) in
     let w := - 0.5 * (un - Qabs un) * ip_weight ip * uD in
     (forall i, (i < length (rs_elvect st))%nat ->
        vget (rs_elvect (rhs_point B el1 st ip)) i
        == vget (rs_elvect st) i
           + w * vget (CalcShape el1 (Loc1 (rs_Trans st) ip)) i) /\
     (~ - 0.5 * (un - Qabs un) == 0 <-> un < 0) /\
     (~ w == 0 <-> un < 0 /\ ~ ip_weight ip == 0 /\ ~ uD == 0)) /\
  (let elvect :=
     rs_elvect (AssembleRHSElementVect_face IntRules_Get junk B el1 Trans
                  cout) in
   length elvect = ndof1 /\
   forall i, (i < ndof1)%nat ->
     vget elvect i
     == qsum (fun ip => rhs_weight B (rhs_init junk el1 Trans cout) ip
                        * vget (CalcShape el1 (Loc1 Trans ip)) i)
          (rhs_rule IntRules_Get B el1 Trans)).
Proof.
  intros Hb ndof1 st0 ir elmat.
  pose proof (face_ndof2_boundary el2 Trans Hb) as Hn2.
  split; [done|].
  assert (fs_elmat st0 = mzero (ndof1 + 0)) as Hz.
  { subst st0. unfold face_init. simpl. by rewrite Hn2. }
  assert (square (ndof1 + 0) (fs_elmat st0)) as Hsq.
  { rewrite Hz. apply square_mzero. }
  pose proof (face_loop_sum I el1 el2 ndof1 0 st0 ir st0
                (face_inv_refl st0) Hsq) as (Hfin & H11 & _).
  assert (elmat = fs_elmat (foldl (face_point I el1 el2 ndof1 0) st0 ir)) as ->.
  { subst elmat. unfold AssembleFaceMatrix. by rewrite Hn2. }
  rewrite Nat.add_0_r in Hfin.
  split; [done|]. split; [|split].
  - intros i j Hi Hj. rewrite H11 by done. rewrite Hz, mget_mzero.
    apply Qplus_0_l.
  - intros st ip un uD w. split; [|split].
    + intros i Hi. subst w uD un.
      rewrite rhs_point_elvect, vget_vAdd by done.
      by rewrite rhs_weight_split.
    + apply inflow_w_nonzero.
    + subst w. do 2 rewrite Qmult_nonzero.
      pose proof (inflow_w_nonzero un) as Hw. unfold inflow_w in Hw. tauto.
  - destruct (rhs_loop_sum B el1 (rhs_init junk el1 Trans cout)
                (rhs_rule IntRules_Get B el1 Trans)
                (rhs_init junk el1 Trans cout) (rhs_inv_refl _))
      as [Hlen Hsum].
    cbn [rhs_init rs_elvect] in Hlen, Hsum.
    unfold vzero in Hlen, Hsum. rewrite length_replicate in Hlen, Hsum.
    split; [exact Hlen|]. intros i Hi.
    unfold AssembleRHSElementVect_face. rewrite (Hsum i Hi).
    unfold vget at 1. rewrite lookup_replicate_2 by done. apply Qplus_0_l.
Qed.

Lemma C3_boundary_face_witness :
  (Elem2No Ex.bdr_right < 0)%Z /\
  square 2
    (fs_elmat (AssembleFaceMatrix Ex.IntRules Ex.junk Ex.dg
                 Ex.segment Ex.segment Ex.bdr_right [])) /\
  vget (rs_elvect (AssembleRHSElementVect_face Ex.IntRules Ex.junk
                     (Ex.inflow (ConstantCoefficient 5))
                     Ex.segment Ex.bdr_right [])) 1 == 5.
Proof.
  assert (Elem2No Ex.bdr_right < 0)%Z as H by (simpl; lia).
  split; [exact H|].
  pose proof (C3_boundary_face Ex.IntRules Ex.junk Ex.dg
                (Ex.inflow (ConstantCoefficient 5))
                Ex.segment Ex.segment Ex.bdr_right [] H)
    as (_ & Hsq & _ & _ & _ & Hsum).
  split; [exact Hsq|].
  rewrite (Hsum 1%nat) by (simpl; lia). reflexivity.
Defined.

(** The inflow vector at x = 1 for boundary value 5, and for boundary
    value 0, where it vanishes although un = -1 there. *)
Example inflow_right_elvect :
  map Qred
    (rs_elvect (AssembleRHSElementVect_face Ex.IntRules Ex.junk
                  (Ex.inflow (ConstantCoefficient 5))
                  Ex.segment Ex.bdr_right []))
  = [0; 5].
Proof. reflexivity. Qed.

Example inflow_right_zero_data :
  rhs_un (Ex.inflow (ConstantCoefficient 0))
    (rhs_init Ex.junk Ex.segment Ex.bdr_right []) Ex.face_ip == - (1) /\
  map Qred
    (rs_elvect (AssembleRHSElementVect_face Ex.IntRules Ex.junk
                  (Ex.inflow (ConstantCoefficient 0))
                  Ex.segment Ex.bdr_right []))
  = [0; 0].
Proof. split; reflexivity. Qed.

(** C3 as stated fails: at the inflow boundary x = 1 with boundary value
    uD = 0 the normal velocity is negative, yet the weight multiplying the
    shape values is zero. *)
Lemma C3_counterexample :
  let B := Ex.inflow (ConstantCoefficient 0) in
  let st := rhs_init Ex.junk Ex.segment Ex.bdr_right [] in
  ~ (~ rhs_weight B st Ex.face_ip == 0 <-> rhs_un B st Ex.face_ip < 0).
Proof.
  intros B st [_ H]. apply H; reflexivity.
Qed.

(** ** The two failure modes *)

(** C6: the element version of
    [BoundaryAdvectIntegrator::AssembleRHSElementVect] halts with a fatal
    error and its message for every input, and never returns a vector. *)
Theorem C6_element_version_is_fatal (I : BoundaryAdvectIntegrator)
    (el : FiniteElement) (Tr : ElementTransformation) (elvect : Vector) :
  AssembleRHSElementVect_elem I el Tr elvect = Fatal not_implemented_msg /\
  (forall v, AssembleRHSElementVect_elem I el Tr elvect <> Ok v) /\
  String.prefix "BoundaryFlowIntegrator::AssembleRHSElementVect"
    not_implemented_msg = true /\
  (0 < String.length not_implemented_msg)%nat.
Proof.
  split; [reflexivity|]. split; [intros v; discriminate|].
  split; [reflexivity|]. vm_compute. lia.
Qed.

(** C7: [AssembleDeltaElementVect] has no quadrature loop: with a delta
    coefficient set it returns the physical shape values at the point of
    the transformation, each scaled by the value of the delta coefficient
    there, whatever quadrature rule or orders the integrator holds; with
    no delta coefficient it halts on the assertion. *)
Theorem C7_delta_element_vector (I : AdvDomainLFIntegrator)
    (fe : FiniteElement) (Trans : ElementTransformation) :
  (lf_delta I = None ->
   AssembleDeltaElementVect I fe Trans
   = Fatal "coefficient must be DeltaCoefficient") /\
  (forall delta, lf_delta I = Some delta ->
   exists elvect,
     AssembleDeltaElementVect I fe Trans = Ok elvect /\
     length elvect = length (CalcPhysShape fe Trans) /\
     (forall i,
        vget elvect i
        == vget (CalcPhysShape fe Trans) i
           * EvalDelta delta Trans (GetIntPoint Trans))) /\
  (forall I', lf_delta I' = lf_delta I ->
   AssembleDeltaElementVect I' fe Trans = AssembleDeltaElementVect I fe Trans).
Proof.
  split; [|split].
  - intros H. unfold AssembleDeltaElementVect. by rewrite H.
  - intros delta H. unfold AssembleDeltaElementVect. rewrite H. simpl.
    eexists. split; [reflexivity|]. split.
    + unfold vscale. by rewrite length_map.
    + intros i. unfold vscale, vget. rewrite list_lookup_fmap.
      destruct (CalcPhysShape fe Trans !! i); simpl; [reflexivity|ring].
  - intros I' H. unfold AssembleDeltaElementVect. by rewrite H.
Qed.

Lemma C7_delta_element_vector_witness :
  let Trans := SetIntPoint (Ex.elem 0) (Ex.ip_at (1 / 4) 0) in
  (lf_delta (Ex.domain_lf None None) = None /\
   AssembleDeltaElementVect (Ex.domain_lf None None) Ex.segment Trans
   = Fatal "coefficient must be DeltaCoefficient") /\
  (lf_delta (Ex.domain_lf (Some Ex.delta3) None) = Some Ex.delta3 /\
   exists elvect,
     AssembleDeltaElementVect (Ex.domain_lf (Some Ex.delta3) None)
       Ex.segment Trans = Ok elvect /\
     vget elvect 0 == 9 / 4 /\ vget elvect 1 == 3 / 4).
Proof.
  intros Trans.
  pose proof (C7_delta_element_vector (Ex.domain_lf None None)
                Ex.segment Trans) as (Hnone & _).
  pose proof (C7_delta_element_vector (Ex.domain_lf (Some Ex.delta3) None)
                Ex.segment Trans) as (_ & Hsome & _).
  split; [split; [reflexivity|exact (Hnone eq_refl)]|].
  split; [reflexivity|].
  destruct (Hsome Ex.delta3 eq_refl) as (elvect & Hok & _ & Hval).
  exists elvect. split; [exact Hok|].
  split; [rewrite (Hval 0%nat)|rewrite (Hval 1%nat)]; reflexivity.
Defined.

(** ** The calls of the distance driver *)

Section DistanceRun.

Import Distance.
Variable L : Distance.Lib.

Lemma when_calls {E : Type} (c : bool) (e : E) :
  snd (when_ c (tell e)) = if c then [e] else [].
Proof. by destruct c. Qed.

Lemma repeatM_calls {E S : Type} (P : E -> Prop) (n : nat)
    (body : S -> Writer E S) (s : S) :
  (forall s, Forall P (snd (body s))) ->
  Forall P (snd (repeatM n body s)).
Proof.
  intros Hbody. revert s. induction n as [|n IH]; intros s; simpl.
  - constructor.
  - apply Forall_app_2; [apply Hbody|apply IH].
Qed.

(** The calls of a successful run, in order. *)
Lemma solve_calls (o : Options) :
  snd (solve L o)
  = snd (when_ (myid L =? 0)%Z (tell (PrintOptions o)))
    ++ [Device_new (device_config o)]
    ++ snd (when_ (myid L =? 0)%Z (tell Device_Print))
    ++ [Mesh_new (mesh_file o) 1 1]
    ++ snd (refine_serial L o (Mesh_ctor L (mesh_file o) 1 1))
    ++ snd (parallel_mesh L
              (fst (refine_serial L o (Mesh_ctor L (mesh_file o) 1 1))))
    ++ snd (select_fec L o (Dimension L (Mesh_ctor L (mesh_file o) 1 1))
              (var_pmesh L o))
    ++ snd (when_ (myid L =? 0)%Z
              (tell (Cout [OStr "Number of FE unknowns: ";
                           OInt (GlobalTrueVSize L (var_fespace L o));
                           OEndl])))
    ++ snd (essential_dofs L (var_pmesh L o) (var_fespace L o))
    ++ [ProjectBdrCoefficient (var_w_zero L o) (ConstantCoefficient 1.0)
          (var_bdr L o);
        Assemble (var_a o);
        FormLinearSystem (var_a o) (var_ess_tdof_list L o)
          (var_w_bc L o) (var_b L o);
        CG_Mult (var_cg L o) (snd (var_system L o))
          (snd (fst (var_system L o)));
        RecoverFEMSolution (var_X L o) (var_b L o) (var_w_bc L o)]
    ++ snd (report_errors L (var_fespace L o) (var_u L o)
              (new_Vector (junk L) (GetVSize L (var_fespace L o)))
              (select_exact_dist L o))
    ++ [Save_mesh "mesh." (myid L) 8; Save_sol "sol." (myid L) 8 (var_w L o)]
    ++ snd (send_glvis o (var_w L o) (var_u L o)
              (fst (report_errors L (var_fespace L o) (var_u L o)
                      (new_Vector (junk L) (GetVSize L (var_fespace L o)))
                      (select_exact_dist L o)))
              (select_exact_dist L o))
    ++ [ParaView_Save "Dist" (var_order L o)
          [("w", var_w L o); ("u", var_u L o)];
        MPI_Finalize].
Proof. reflexivity. Qed.


Lemma Forall_when_ {E : Type} (P : E -> Prop) (c : bool) (e : E) :
  P e -> Forall P (snd (when_ c (tell e))).
Proof. intros He. rewrite when_calls. destruct c; by repeat constructor. Qed.

Lemma refine_serial_calls (P : Call -> Prop) (o : Options) (m : MeshT L) :
  P Mesh_UniformRefinement -> Forall P (snd (refine_serial L o m)).
Proof.
  intros HP. apply repeatM_calls. intros s. simpl. by repeat constructor.
Qed.

Lemma parallel_mesh_calls (m : MeshT L) :
  snd (parallel_mesh L m)
  = [ParMesh_new; Mesh_Clear;
     ParMesh_UniformRefinement; ParMesh_UniformRefinement].
Proof. reflexivity. Qed.

Lemma select_fec_calls (P : Call -> Prop) o dim pmesh :
  (forall items, P (Cout items)) ->
  Forall P (snd (select_fec L o dim pmesh)).
Proof.
  intros HP. unfold select_fec.
  destruct (0 <? order o)%Z; [constructor|].
  destruct (GetNodes_OwnFEC L pmesh); [|constructor].
  change (Forall P (snd (when_ (myid L =? 0)%Z
             (tell (Cout [OStr "Using isoparametric FEs: ";
                          OStr (FEC_Name L f); OEndl]))) ++ [])).
  apply Forall_app_2; [by apply Forall_when_|constructor].
Qed.

Lemma essential_dofs_calls (P : Call -> Prop) pmesh fespace :
  (forall ess_bdr, P (GetEssentialTrueDofs ess_bdr)) ->
  Forall P (snd (essential_dofs L pmesh fespace)).
Proof.
  intros HP. unfold essential_dofs.
  destruct (bdr_attributes_Size L pmesh =? 0)%Z; simpl; by repeat constructor.
Qed.

Lemma report_errors_calls fespace u u_error exact_dist :
  snd (report_errors L fespace u u_error exact_dist)
  = match exact_dist with
    | None => []
    | Some exact =>
        [ComputeL1Error u exact; ComputeMaxError u exact]
        ++ snd (when_ (myid L =? 0)%Z
                  (tell (Cout [OStr "L1   error: ";
                               ONum (L1Error L fespace u exact); OEndl;
                               OStr "Linf error: ";
                               ONum (MaxError L fespace u exact); OEndl])))
        ++ [ProjectCoefficient exact]
    end.
Proof. destruct exact_dist; reflexivity. Qed.

Lemma send_glvis_calls (P : Call -> Prop) o w u u_error exact_dist :
  (forall title x y field, P (GLVis title x y field)) ->
  Forall P (snd (send_glvis o w u u_error exact_dist)).
Proof.
  intros HP. unfold send_glvis.
  destruct (visualization o); [|constructor].
  destruct exact_dist; simpl; by repeat constructor.
Qed.

End DistanceRun.

Ltac calls_forall :=
  repeat first
    [ apply Forall_nil_2
    | apply Forall_cons_2
    | apply Forall_app_2
    | apply Forall_when_
    | apply refine_serial_calls
    | apply select_fec_calls; intros
    | apply essential_dofs_calls; intros
    | apply send_glvis_calls; intros
    | rewrite parallel_mesh_calls
    | exact I ].


Lemma std_min_Qmin (a b : Q) : std_min a b = Qmin a b.
Proof.
  unfold std_min, Qmin, GenericMinMax.gmin, Qle_bool, Qcompare, Z.leb.
  by destruct (Qnum a * QDen b ?= Qnum b * QDen a)%Z.
Qed.

Section DistanceClaims.

Import Distance.
Variable L : Distance.Lib.

Lemma main_good (argv : list string) :
  fst (Parse L argv default_options) = true ->
  main L argv
  = (fst (solve L (snd (Parse L argv default_options))),
     MPI_Init :: snd (solve L (snd (Parse L argv default_options)))).
Proof. intros H. unfold main. rewrite H. reflexivity. Qed.

Lemma solve_status (o : Options) : fst (solve L o) = 0%Z.
Proof. reflexivity. Qed.

Lemma varadhan_length o (w u : Vector) : length (varadhan L o w u) = length u.
Proof.
  unfold varadhan.
  apply (for_inv (fun u' => length u' = length u)); [done|].
  intros i s _ Hs. by rewrite length_insert.
Qed.

Lemma varadhan_entry o (w u : Vector) (i : nat) :
  (i < length u)%nat ->
  vget (varadhan L o w u) i = (- sqrt L (t_param o)) * log L (vget w i).
Proof.
  intros Hi. unfold varadhan.
  apply (for_hit (fun u' => length u' = length u) (fun u' => vget u' i)
           (fun _ => (- sqrt L (t_param o)) * log L (vget w i))
           (length u) i); [done|done| | |].
  - intros k s _ Hs. by rewrite length_insert.
  - intros k s _ Hne _. unfold vget. by rewrite list_lookup_insert_ne.
  - intros s Hs. unfold vget at 1.
    rewrite list_lookup_insert_eq by lia. done.
Qed.

Lemma select_exact_dist_segment o :
  mesh_file o = "../data/inline-segment.mesh" ->
  select_exact_dist L o = Some ExactSegmentDistCoeff.
Proof. intros H. unfold select_exact_dist. rewrite H. reflexivity. Qed.

End DistanceClaims.

Lemma called_before_app_r {E : Type} (x y : E) (l1 l2 : list E) :
  called_before x y l2 -> called_before x y (l1 ++ l2).
Proof.
  intros (k1 & k2 & k3 & ->). exists (l1 ++ k1), k2, k3.
  by rewrite <- app_assoc.
Qed.

Lemma called_before_app_l {E : Type} (x y : E) (l1 l2 : list E) :
  called_before x y l1 -> called_before x y (l1 ++ l2).
Proof.
  intros (k1 & k2 & k3 & ->). exists k1, k2, (k3 ++ l2).
  rewrite <- app_assoc. simpl. by rewrite <- app_assoc.
Qed.

Lemma called_before_cons {E : Type} (x y z : E) (l : list E) :
  called_before x y l -> called_before x y (z :: l).
Proof. apply (called_before_app_r x y [z]). Qed.

(** ** The distance driver: which calls a run makes *)

Section DistanceCalls.

Import Distance.
Variable L : Distance.Lib.
Variable o : Options.

Lemma solve_calls_Forall (P : Call -> Prop) :
  Forall P (snd (solve L o)) -> forall c, c ∈ snd (solve L o) -> P c.
Proof. intros H. by apply Forall_forall. Qed.

Lemma form_linear_system_called :
  FormLinearSystem (var_a o) (var_ess_tdof_list L o) (var_w_bc L o)
    (var_b L o) ∈ snd (solve L o).
Proof. rewrite solve_calls. set_solver. Qed.

Lemma form_linear_system_args a ess w b :
  FormLinearSystem a ess w b ∈ snd (solve L o) ->
  a = var_a o /\ ess = var_ess_tdof_list L o /\
  w = var_w_bc L o /\ b = var_b L o.
Proof.
  apply (solve_calls_Forall
           (fun c => match c with
                     | FormLinearSystem a ess w b =>
                         a = var_a o /\ ess = var_ess_tdof_list L o /\
                         w = var_w_bc L o /\ b = var_b L o
                     | _ => True
                     end)).
  rewrite solve_calls, report_errors_calls.
  destruct (select_exact_dist L o); calls_forall; done.
Qed.

Lemma project_bdr_called :
  ProjectBdrCoefficient (var_w_zero L o) (ConstantCoefficient 1.0)
    (var_bdr L o) ∈ snd (solve L o).
Proof. rewrite solve_calls. set_solver. Qed.

Lemma project_bdr_args w c bdr :
  ProjectBdrCoefficient w c bdr ∈ snd (solve L o) ->
  w = var_w_zero L o /\ c = ConstantCoefficient 1.0 /\ bdr = var_bdr L o.
Proof.
  apply (solve_calls_Forall
           (fun c' => match c' with
                      | ProjectBdrCoefficient w c bdr =>
                          w = var_w_zero L o /\ c = ConstantCoefficient 1.0
                          /\ bdr = var_bdr L o
                      | _ => True
                      end)).
  rewrite solve_calls, report_errors_calls.
  destruct (select_exact_dist L o); calls_forall; done.
Qed.

Lemma cg_mult_called :
  CG_Mult (var_cg L o) (snd (var_system L o)) (snd (fst (var_system L o)))
    ∈ snd (solve L o).
Proof. rewrite solve_calls. set_solver. Qed.

Lemma cg_mult_args cg B X :
  CG_Mult cg B X ∈ snd (solve L o) ->
  cg = var_cg L o /\ B = snd (var_system L o)
  /\ X = snd (fst (var_system L o)).
Proof.
  apply (solve_calls_Forall
           (fun c => match c with
                     | CG_Mult cg B X =>
                         cg = var_cg L o /\ B = snd (var_system L o)
                         /\ X = snd (fst (var_system L o))
                     | _ => True
                     end)).
  rewrite solve_calls, report_errors_calls.
  destruct (select_exact_dist L o); calls_forall; done.
Qed.

Lemma errors_called d :
  select_exact_dist L o = Some d ->
  ComputeL1Error (var_u L o) d ∈ snd (solve L o) /\
  ComputeMaxError (var_u L o) d ∈ snd (solve L o) /\
  (myid L = 0%Z ->
   Cout [OStr "L1   error: ";
         ONum (L1Error L (var_fespace L o) (var_u L o) d); OEndl;
         OStr "Linf error: ";
         ONum (MaxError L (var_fespace L o) (var_u L o) d); OEndl]
     ∈ snd (solve L o)).
Proof.
  intros Hd. rewrite solve_calls, report_errors_calls, Hd.
  repeat split; [set_solver|set_solver|].
  intros Hid. rewrite Hid. simpl. set_solver.
Qed.

Lemma errors_args u d :
  ComputeL1Error u d ∈ snd (solve L o) \/
  ComputeMaxError u d ∈ snd (solve L o) ->
  u = var_u L o /\ select_exact_dist L o = Some d.
Proof.
  assert (forall c, c ∈ snd (solve L o) ->
            match c with
            | ComputeL1Error u d | ComputeMaxError u d =>
                u = var_u L o /\ select_exact_dist L o = Some d
            | _ => True
            end) as H.
  { apply solve_calls_Forall.
    rewrite solve_calls, report_errors_calls.
    destruct (select_exact_dist L o); calls_forall; done. }
  intros [Hin|Hin]; apply (H _ Hin).
Qed.

(** The boundary data are projected before the solver is called. *)
Lemma project_bdr_before_solve :
  called_before
    (ProjectBdrCoefficient (var_w_zero L o) (ConstantCoefficient 1.0)
       (var_bdr L o))
    (CG_Mult (var_cg L o) (snd (var_system L o)) (snd (fst (var_system L o))))
    (snd (solve L o)).
Proof.
  rewrite solve_calls. do 9 apply called_before_app_r.
  apply called_before_app_l. unfold called_before.
  eexists [], [_; _], [_]. reflexivity.
Qed.

End DistanceCalls.

(** ** The distance driver: the claims *)

(** C2 (amended): when the distance program runs on the segment mesh
    (scenario A), the one linear system it forms takes its Dirichlet data
    from [w], which is zero except for the constant 1 projected on every
    boundary attribute, and its right-hand side is the linear form [b],
    which has no integrator and is identically zero; the L1 and
    L-infinity errors are computed, and printed by rank 0, for [u] against
    the closed form min(x, 1-x). *)
Theorem C2_segment_system_and_errors (L : Distance.Lib) (argv : list string) :
  fst (Distance.Parse L argv Distance.default_options) = true ->
  Distance.mesh_file (snd (Distance.Parse L argv Distance.default_options))
  = "../data/inline-segment.mesh" ->
  let o := snd (Distance.Parse L argv Distance.default_options) in
  let calls := snd (Distance.main L argv) in
  let fespace := Distance.var_fespace L o in
  let w := Distance.var_w_bc L o in
  let b := Distance.var_b L o in
  let u := Distance.var_u L o in
  let d := Distance.ExactSegmentDistCoeff in
  Distance.FormLinearSystem (Distance.var_a o)
    (Distance.var_ess_tdof_list L o) w b ∈ calls /\
  (forall a' ess' w' b',
     Distance.FormLinearSystem a' ess' w' b' ∈ calls -> w' = w /\ b' = b) /\
  w = Distance.ProjectBdr L fespace (vzero (Distance.GetVSize L fespace))
        (ConstantCoefficient 1.0)
        (Array_fill (Distance.bdr_attributes_Max L (Distance.var_pmesh L o)) 1)
  /\
  (forall T ip, Eval (ConstantCoefficient 1.0) T ip == 1) /\
  Distance.dlfi b = [] /\
  (forall i, vget (Distance.lf_data b) i = 0) /\
  Distance.ComputeL1Error u d ∈ calls /\
  Distance.ComputeMaxError u d ∈ calls /\
  (forall u' d',
     Distance.ComputeL1Error u' d' ∈ calls \/
     Distance.ComputeMaxError u' d' ∈ calls -> u' = u /\ d' = d) /\
  (forall T ip,
     Eval d T ip
     == Qmin (vget (Transform T ip) 0) (1 - vget (Transform T ip) 0)) /\
  (Distance.myid L = 0%Z ->
   Distance.Cout [OStr "L1   error: ";
                  ONum (Distance.L1Error L fespace u d); OEndl;
                  OStr "Linf error: ";
                  ONum (Distance.MaxError L fespace u d); OEndl] ∈ calls).
Proof.
  intros Hgood Hfile o calls fespace w b u d.
  assert (calls = Distance.MPI_Init :: snd (Distance.solve L o)) as ->.
  { subst calls. by rewrite main_good. }
  pose proof (select_exact_dist_segment L o Hfile) as Hd.
  destruct (errors_called L o d Hd) as (HL1 & HLinf & Hout).
  split; [apply list_elem_of_further, form_linear_system_called|].
  split.
  { intros a' ess' w' b' Hin. apply elem_of_cons in Hin as [?|Hin]; [done|].
    by destruct (form_linear_system_args L o _ _ _ _ Hin) as (_ & _ & ? & ?). }
  split; [reflexivity|]. split; [by intros|]. split; [reflexivity|].
  split.
  { intros i. unfold b, Distance.var_b, vget. simpl.
    destruct (vzero _ !! i) as [e|] eqn:E; [|done].
    by apply lookup_replicate_1 in E as [-> _]. }
  split; [by apply list_elem_of_further|].
  split; [by apply list_elem_of_further|].
  split.
  { intros u' d' Hin.
    assert (u' = u /\ Distance.select_exact_dist L o = Some d') as [? Hd'].
    { apply errors_args.
      destruct Hin as [Hin|Hin]; apply elem_of_cons in Hin as [?|Hin];
        try done; [by left|by right]. }
    split; [done|]. rewrite Hd in Hd'. by injection Hd' as <-. }
  split.
  { intros T ip. unfold d. simpl. rewrite std_min_Qmin.
    apply Q.min_compat; [reflexivity|ring]. }
  intros Hid. by apply list_elem_of_further, Hout.
Qed.

Lemma C2_segment_system_and_errors_witness :
  let L := Ex.distance_lib 0 in
  fst (Distance.Parse L Ex.scenario_A Distance.default_options) = true /\
  Distance.mesh_file
    (snd (Distance.Parse L Ex.scenario_A Distance.default_options))
  = "../data/inline-segment.mesh" /\
  Distance.dlfi
    (Distance.var_b L
       (snd (Distance.Parse L Ex.scenario_A Distance.default_options))) = [].
Proof.
  split; [reflexivity|]. split; [reflexivity|].
  pose proof (C2_segment_system_and_errors (Ex.distance_lib 0) Ex.scenario_A
           eq_refl eq_refl) as (_ & _ & _ & _ & H & _).
  exact H.
Defined.

(** The run of scenario A on the stand-in library: the data handed to
    [FormLinearSystem] at the two essential dofs, and the right-hand
    side. *)
Example scenario_A_system :
  let L := Ex.distance_lib 0 in
  let o := snd (Distance.Parse L Ex.scenario_A Distance.default_options) in
  Distance.var_ess_tdof_list L o = [0%Z; 32%Z] /\
  Qred (vget (Distance.var_w_bc L o) 0) = 1 /\
  Qred (vget (Distance.var_w_bc L o) 32) = 1 /\
  Qred (vget (Distance.var_w_bc L o) 16) = 0 /\
  Distance.var_b L o
  = {| Distance.dlfi := []; Distance.lf_data := replicate 33 0 |}.
Proof. repeat split; reflexivity. Qed.

(** C2 as stated fails: in the run of scenario A the system formed has the
    value 1, not 0, at the essential dof 0, and its right-hand side has no
    source integrator. *)
Lemma C2_counterexample :
  ~ zero_dirichlet_unit_source
      (snd (Distance.main (Ex.distance_lib 0) Ex.scenario_A)).
Proof.
  intros H.
  destruct (H _ _ _ _
              (list_elem_of_further _ _ _
                 (form_linear_system_called (Ex.distance_lib 0)
                    (snd (Distance.Parse (Ex.distance_lib 0) Ex.scenario_A
                            Distance.default_options)))))
    as [Hzero _].
  assert (0%Z ∈ Distance.var_ess_tdof_list (Ex.distance_lib 0)
                  (snd (Distance.Parse (Ex.distance_lib 0) Ex.scenario_A
                          Distance.default_options))) as Hin
    by (apply (list_elem_of_lookup_2 _ 0%nat); reflexivity).
  specialize (Hzero 0%Z Hin). vm_compute in Hzero. discriminate Hzero.
Qed.

(** C5: the linear system of the distance program is solved by conjugate
    gradient with relative tolerance 1e-12 and at most 5000 iterations,
    preconditioned by HypreBoomerAMG when [pa] is false, by
    OperatorJacobiSmoother when [pa] is true and the space uses a tensor
    basis, and not preconditioned otherwise. *)
Theorem C5_cg_configuration (L : Distance.Lib) (argv : list string) :
  fst (Distance.Parse L argv Distance.default_options) = true ->
  let o := snd (Distance.Parse L argv Distance.default_options) in
  let calls := snd (Distance.main L argv) in
  let cg := Distance.var_cg L o in
  let fespace := Distance.var_fespace L o in
  Distance.CG_Mult cg (snd (Distance.var_system L o))
    (snd (fst (Distance.var_system L o))) ∈ calls /\
  (forall cg' B X, Distance.CG_Mult cg' B X ∈ calls -> cg' = cg) /\
  Distance.rel_tol cg = Some 1e-12 /\
  Distance.max_iter cg = Some 5000%Z /\
  (Distance.pa o = false -> Distance.prec cg = Some Distance.HypreBoomerAMG) /\
  (Distance.pa o = true -> Distance.UsesTensorBasis L fespace = true ->
   Distance.prec cg
   = Some (Distance.OperatorJacobiSmoother (Distance.var_a o)
             (Distance.var_ess_tdof_list L o))) /\
  (Distance.pa o = true -> Distance.UsesTensorBasis L fespace = false ->
   Distance.prec cg = None).
Proof.
  intros Hgood o calls cg fespace.
  assert (calls = Distance.MPI_Init :: snd (Distance.solve L o)) as ->.
  { subst calls. by rewrite main_good. }
  split; [apply list_elem_of_further, cg_mult_called|].
  split.
  { intros cg' B X Hin. apply elem_of_cons in Hin as [?|Hin]; [done|].
    by destruct (cg_mult_args L o _ _ _ Hin) as (? & _). }
  unfold cg, Distance.var_cg, Distance.configure_cg, Distance.select_prec.
  fold fespace.
  destruct (Distance.pa o), (Distance.UsesTensorBasis L fespace);
    repeat split; intros; done.
Qed.


Lemma C5_cg_configuration_witness :
  let L := Ex.distance_lib 0 in
  let o := snd (Distance.Parse L Ex.scenario_A Distance.default_options) in
  fst (Distance.Parse L Ex.scenario_A Distance.default_options) = true /\
  Distance.rel_tol (Distance.var_cg L o) = Some 1e-12 /\
  Distance.max_iter (Distance.var_cg L o) = Some 5000%Z /\
  Distance.prec (Distance.var_cg L o) = Some Distance.HypreBoomerAMG.
Proof.
  split; [reflexivity|].
  pose proof (C5_cg_configuration (Ex.distance_lib 0) Ex.scenario_A eq_refl)
    as (_ & _ & Htol & Hiter & Hprec & _).
  split; [exact Htol|]. split; [exact Hiter|]. exact (Hprec eq_refl).
Defined.

(** C9: the field whose L1 and L-infinity errors the distance program
    computes and prints is [u], whose entries are
    u(i) = -sqrt(t_param) * log(w(i)) for the solver output [w], and the
    Dirichlet data projected onto [w] before the solve is the constant 1
    with every boundary attribute marked. *)
Theorem C9_varadhan_field_and_boundary_data
    (L : Distance.Lib) (argv : list string) :
  fst (Distance.Parse L argv Distance.default_options) = true ->
  let o := snd (Distance.Parse L argv Distance.default_options) in
  let calls := snd (Distance.main L argv) in
  let fespace := Distance.var_fespace L o in
  let w := Distance.var_w L o in
  let u := Distance.var_u L o in
  let project :=
    Distance.ProjectBdrCoefficient (Distance.var_w_zero L o)
      (ConstantCoefficient 1.0) (Distance.var_bdr L o) in
  (forall u' d,
     Distance.ComputeL1Error u' d ∈ calls \/
     Distance.ComputeMaxError u' d ∈ calls -> u' = u) /\
  (forall d, Distance.select_exact_dist L o = Some d ->
     Distance.ComputeL1Error u d ∈ calls /\
     Distance.ComputeMaxError u d ∈ calls /\
     (Distance.myid L = 0%Z ->
      Distance.Cout [OStr "L1   error: ";
                     ONum (Distance.L1Error L fespace u d); OEndl;
                     OStr "Linf error: ";
                     ONum (Distance.MaxError L fespace u d); OEndl]
        ∈ calls)) /\
  length u = Distance.GetVSize L fespace /\
  (forall i, (i < Distance.GetVSize L fespace)%nat ->
     vget u i
     = (- Distance.sqrt L (Distance.t_param o)) * Distance.log L (vget w i)) /\
  w = Distance.Recover L fespace (Distance.var_a o) (Distance.var_X L o)
        (Distance.var_b L o) (Distance.var_w_bc L o) /\
  called_before project
    (Distance.CG_Mult (Distance.var_cg L o) (snd (Distance.var_system L o))
       (snd (fst (Distance.var_system L o)))) calls /\
  (forall w0 c bdr, Distance.ProjectBdrCoefficient w0 c bdr ∈ calls ->
     c = ConstantCoefficient 1.0 /\ bdr = Distance.var_bdr L o) /\
  Distance.var_w_bc L o
  = Distance.ProjectBdr L fespace (vzero (Distance.GetVSize L fespace))
      (ConstantCoefficient 1.0) (Distance.var_bdr L o) /\
  length (Distance.var_bdr L o)
  = Z.to_nat (Distance.bdr_attributes_Max L (Distance.var_pmesh L o)) /\
  Forall (fun marker => marker = 1%Z) (Distance.var_bdr L o).
Proof.
  intros Hgood o calls fespace w u project.
  assert (calls = Distance.MPI_Init :: snd (Distance.solve L o)) as ->.
  { subst calls. by rewrite main_good. }
  split.
  { intros u' d Hin. apply (errors_args L o u' d).
    destruct Hin as [Hin|Hin]; apply elem_of_cons in Hin as [?|Hin];
      try done; [by left|by right]. }
  split.
  { intros d Hd. destruct (errors_called L o d Hd) as (H1 & H2 & H3).
    split; [by apply list_elem_of_further|].
    split; [by apply list_elem_of_further|].
    intros Hid. by apply list_elem_of_further, H3. }
  assert (length (new_Vector (Distance.junk L) (Distance.GetVSize L fespace))
          = Distance.GetVSize L fespace) as Hlen.
  { unfold new_Vector. by rewrite length_map, length_seq. }
  split; [unfold u, Distance.var_u; by rewrite varadhan_length|].
  split.
  { intros i Hi. unfold u, Distance.var_u. apply varadhan_entry.
    fold fespace. by rewrite Hlen. }
  split; [reflexivity|].
  split; [apply called_before_cons, project_bdr_before_solve|].
  split.
  { intros w0 c bdr Hin. apply elem_of_cons in Hin as [?|Hin]; [done|].
    by destruct (project_bdr_args L o _ _ _ Hin) as (_ & ? & ?). }
  split; [reflexivity|].
  unfold Distance.var_bdr, Array_fill.
  split; [apply length_replicate|]. by apply Forall_replicate.
Qed.

Lemma C9_varadhan_field_and_boundary_data_witness :
  let L := Ex.distance_lib 0 in
  let o := snd (Distance.Parse L Ex.scenario_A Distance.default_options) in
  fst (Distance.Parse L Ex.scenario_A Distance.default_options) = true /\
  length (Distance.var_u L o) = 33%nat /\
  vget (Distance.var_u L o) 0
  = (- Distance.sqrt L (Distance.t_param o))
    * Distance.log L (vget (Distance.var_w L o) 0).
Proof.
  split; [reflexivity|].
  pose proof (C9_varadhan_field_and_boundary_data (Ex.distance_lib 0)
                Ex.scenario_A eq_refl) as (_ & _ & Hlen & Hu & _).
  split; [exact Hlen|]. apply Hu. vm_compute. lia.
Defined.

(** ** The advection driver: which calls a run makes *)

Section AdvectionCalls.

Import ExAdvection.
Variable L : ExAdvection.Lib.
Variable o : Options.

Let A := AssembleBF L (var_fespace L o) (var_a L o).
Let bvec := AssembleLF L (var_fespace L o) (var_b L o).

Lemma advection_solve_calls :
  snd (solve L o)
  = [PrintOptions o;
     Mesh_new (N o) 1;
     Cout [OStr "number of elements "; OInt (GetNE L (var_mesh L o)); OEndl];
     PrintVTK "square_disc_mesh.vtk" 14;
     Cout [OStr "Number of unknowns: ";
           OInt (GetTrueVSize L (var_fespace L o)); OEndl];
     LinearForm_Assemble (var_b L o);
     BilinearForm_Assemble (var_a L o);
     BilinearForm_Finalize;
     ProjectCoefficient (var_x_new L o) (var_u L)]
    ++ snd (linear_solve L A bvec (var_x_projected L o))
    ++ [PrintVTK "dgAdvection.vtk" 14;
        SaveVTK "dgAdvSolution" 1 (var_x L o);
        ComputeL2Error (var_x L o) (var_u L);
        Cout [OStr "solution at nodes is: "; OEndl];
        GridFunction_Print (var_x L o);
        Cout [OStr "########################################## "; OEndl;
              OStr "mesh size, h = ";
              ONum (1.0 / inject_Z (GetNE L (var_mesh L o))); OEndl;
              OStr "solution norm: ";
              ONum (L2Error L (var_fespace L o) (var_x L o) (var_u L)); OEndl;
              OStr "########################################## "; OEndl]].
Proof. reflexivity. Qed.

Lemma linear_solve_gmres x :
  MFEM_USE_SUITESPARSE L = false ->
  linear_solve L A bvec x
  = (GMRES_solve L A bvec x 1 1000 200 1e-60 1e-60,
     [GSSmoother_new; GMRES bvec x 1 1000 200 1e-60 1e-60]).
Proof. intros H. unfold linear_solve. by rewrite H. Qed.

Lemma linear_solve_calls (P : Call -> Prop) x :
  P GSSmoother_new ->
  P (GMRES bvec x 1 1000 200 1e-60 1e-60) ->
  P UMFPack_SetOperator ->
  P (UMFPack_Mult bvec x) ->
  Forall P (snd (linear_solve L A bvec x)).
Proof.
  intros. unfold linear_solve.
  destruct (MFEM_USE_SUITESPARSE L); simpl; by repeat constructor.
Qed.

Lemma advection_solve_Forall (P : Call -> Prop) :
  Forall P (snd (solve L o)) -> forall c, c ∈ snd (solve L o) -> P c.
Proof. intros H. by apply Forall_forall. Qed.

Lemma gmres_args b x print_iter max_num_iter m rtol atol :
  GMRES b x print_iter max_num_iter m rtol atol ∈ snd (solve L o) ->
  b = bvec /\ x = var_x_projected L o /\
  print_iter = 1%Z /\ max_num_iter = 1000%Z /\ m = 200%Z /\
  rtol = 1e-60 /\ atol = 1e-60.
Proof.
  apply (advection_solve_Forall
           (fun c => match c with
                     | GMRES b x print_iter max_num_iter m rtol atol =>
                         b = bvec /\ x = var_x_projected L o /\
                         print_iter = 1%Z /\ max_num_iter = 1000%Z /\
                         m = 200%Z /\ rtol = 1e-60 /\ atol = 1e-60
                     | _ => True
                     end)).
  rewrite advection_solve_calls.
  repeat first [ apply Forall_app_2 | apply Forall_cons_2 | apply Forall_nil_2
               | apply linear_solve_calls | exact I ]; done.
Qed.

Lemma l2_error_args x c :
  ComputeL2Error x c ∈ snd (solve L o) -> x = var_x L o /\ c = var_u L.
Proof.
  apply (advection_solve_Forall
           (fun c' => match c' with
                      | ComputeL2Error x c => x = var_x L o /\ c = var_u L
                      | _ => True
                      end)).
  rewrite advection_solve_calls.
  repeat first [ apply Forall_app_2 | apply Forall_cons_2 | apply Forall_nil_2
               | apply linear_solve_calls | exact I ]; done.
Qed.

Lemma project_before_gmres :
  MFEM_USE_SUITESPARSE L = false ->
  called_before
    (ProjectCoefficient (var_x_new L o) (var_u L))
    (GMRES bvec (var_x_projected L o) 1 1000 200 1e-60 1e-60)
    (snd (solve L o)).
Proof.
  intros H. rewrite advection_solve_calls, linear_solve_gmres by done.
  unfold called_before.
  eexists [_; _; _; _; _; _; _; _], [_], _. reflexivity.
Qed.

Lemma gmres_before_l2_error :
  MFEM_USE_SUITESPARSE L = false ->
  called_before
    (GMRES bvec (var_x_projected L o) 1 1000 200 1e-60 1e-60)
    (ComputeL2Error (var_x L o) (var_u L))
    (snd (solve L o)).
Proof.
  intros H. rewrite advection_solve_calls, linear_solve_gmres by done.
  unfold called_before.
  eexists [_; _; _; _; _; _; _; _; _; _], [_; _], _. reflexivity.
Qed.

End AdvectionCalls.

Lemma advection_main_good (L : ExAdvection.Lib) (argv : list string) :
  fst (ExAdvection.Parse L argv ExAdvection.default_options) = true ->
  ExAdvection.main L argv
  = ExAdvection.solve L
      (snd (ExAdvection.Parse L argv ExAdvection.default_options)).
Proof. intros H. unfold ExAdvection.main. by rewrite H. Qed.

(** C10: in exAdvection the vector handed to GMRES as its initial iterate
    is the projection of the exact solution u(x) = exp(x(0)) onto the DG
    space, the projection being called before GMRES; the L2 error is then
    computed, against the same u, on what GMRES returns from that iterate. *)
Theorem C10_gmres_starts_from_projection
    (L : ExAdvection.Lib) (argv : list string) :
  fst (ExAdvection.Parse L argv ExAdvection.default_options) = true ->
  ExAdvection.MFEM_USE_SUITESPARSE L = false ->
  let o := snd (ExAdvection.Parse L argv ExAdvection.default_options) in
  let calls := snd (ExAdvection.main L argv) in
  let fespace := ExAdvection.var_fespace L o in
  let u := ExAdvection.var_u L in
  let b := ExAdvection.AssembleLF L fespace (ExAdvection.var_b L o) in
  let A := ExAdvection.AssembleBF L fespace (ExAdvection.var_a L o) in
  let x0 := ExAdvection.Project L fespace (ExAdvection.var_x_new L o) u in
  let x := ExAdvection.GMRES_solve L A b x0 1 1000 200 1e-60 1e-60 in
  (forall T ip, Eval u T ip = ExAdvection.exp L (vget (Transform T ip) 0)) /\
  called_before
    (ExAdvection.ProjectCoefficient (ExAdvection.var_x_new L o) u)
    (ExAdvection.GMRES b x0 1 1000 200 1e-60 1e-60) calls /\
  (forall b' x' print_iter max_num_iter m rtol atol,
     ExAdvection.GMRES b' x' print_iter max_num_iter m rtol atol ∈ calls ->
     x' = x0) /\
  called_before
    (ExAdvection.GMRES b x0 1 1000 200 1e-60 1e-60)
    (ExAdvection.ComputeL2Error x u) calls /\
  (forall x' c, ExAdvection.ComputeL2Error x' c ∈ calls -> x' = x /\ c = u).
Proof.
  intros Hgood Hbuild o calls fespace u b A x0 x.
  assert (calls = snd (ExAdvection.solve L o)) as ->.
  { subst calls. by rewrite advection_main_good. }
  assert (ExAdvection.var_x L o = x) as Hx.
  { unfold ExAdvection.var_x. by rewrite linear_solve_gmres. }
  split; [reflexivity|].
  split; [by apply project_before_gmres|].
  split.
  { intros b' x' p mi m rt at_ Hin.
    by destruct (gmres_args L o _ _ _ _ _ _ _ Hin) as (_ & ? & _). }
  split; [rewrite <- Hx; by apply gmres_before_l2_error|].
  intros x' c Hin. rewrite <- Hx. by apply l2_error_args.
Qed.

Lemma C10_gmres_starts_from_projection_witness :
  let L := Ex.advection_lib false in
  fst (ExAdvection.Parse L [] ExAdvection.default_options) = true /\
  ExAdvection.MFEM_USE_SUITESPARSE L = false /\
  forall T ip,
    Eval (ExAdvection.var_u L) T ip
    = ExAdvection.exp L (vget (Transform T ip) 0).
Proof.
  split; [reflexivity|]. split; [reflexivity|].
  pose proof (C10_gmres_starts_from_projection (Ex.advection_lib false) []
                eq_refl eq_refl) as (H & _).
  exact H.
Defined.

(** ** Exit status *)

Lemma distance_parse_failure (L : Distance.Lib) (argv : list string) :
  fst (Distance.Parse L argv Distance.default_options) = false ->
  fst (Distance.main L argv) = 1%Z /\
  snd (Distance.main L argv)
  = [Distance.MPI_Init]
    ++ (if (Distance.myid L =? 0)%Z then [Distance.PrintUsage] else [])
    ++ [Distance.MPI_Finalize] /\
  (Distance.PrintUsage ∈ snd (Distance.main L argv)
   <-> Distance.myid L = 0%Z) /\
  Forall (fun c => Distance.assembles_or_solves c = false)
    (snd (Distance.main L argv)).
Proof.
  intros H. unfold Distance.main. rewrite H. simpl.
  destruct (Distance.myid L =? 0)%Z eqn:E; simpl.
  - apply Z.eqb_eq in E. repeat split; try done.
    + intros _. apply list_elem_of_further, list_elem_of_here.
    + by repeat constructor.
  - apply Z.eqb_neq in E. repeat split; try done.
    + rewrite !elem_of_cons, elem_of_nil. intros [?|[?|[]]]; discriminate.
    + by repeat constructor.
Qed.

(** C8: when argument parsing fails, either program exits with status 1
    having made no assembling or solving call, exAdvection after printing
    the usage text and distance after its rank-0 process printed it (so
    every invocation under MPI emits it); when parsing succeeds, the
    program exits with status 0. *)
Theorem C8_exit_status (LD : Distance.Lib) (LA : ExAdvection.Lib)
    (argv : list string) :
  (fst (Distance.Parse LD argv Distance.default_options) = false ->
   fst (Distance.main LD argv) = 1%Z /\
   snd (Distance.main LD argv)
   = [Distance.MPI_Init]
     ++ (if (Distance.myid LD =? 0)%Z then [Distance.PrintUsage] else [])
     ++ [Distance.MPI_Finalize] /\
   (Distance.PrintUsage ∈ snd (Distance.main LD argv)
    <-> Distance.myid LD = 0%Z) /\
   Forall (fun c => Distance.assembles_or_solves c = false)
     (snd (Distance.main LD argv))) /\
  (forall procs, mpi_job procs ->
   (forall L, L ∈ procs ->
      fst (Distance.Parse L argv Distance.default_options) = false) ->
   (exists L, L ∈ procs /\ Distance.PrintUsage ∈ snd (Distance.main L argv))
   /\ (forall L, L ∈ procs -> fst (Distance.main L argv) = 1%Z)) /\
  (fst (Distance.Parse LD argv Distance.default_options) = true ->
   fst (Distance.main LD argv) = 0%Z) /\
  (fst (ExAdvection.Parse LA argv ExAdvection.default_options) = false ->
   ExAdvection.main LA argv = (1%Z, [ExAdvection.PrintUsage]) /\
   Forall (fun c => ExAdvection.assembles_or_solves c = false)
     (snd (ExAdvection.main LA argv))) /\
  (fst (ExAdvection.Parse LA argv ExAdvection.default_options) = true ->
   fst (ExAdvection.main LA argv) = 0%Z).
Proof.
  split; [|split; [|split; [|split]]].
  - by apply distance_parse_failure.
  - intros procs [Hne Hrank] Hfail. split.
    + destruct procs as [|L0 procs]; [done|]. exists L0.
      split; [apply list_elem_of_here|].
      destruct (Hrank 0%nat L0 eq_refl) as [Hid _].
      apply (distance_parse_failure L0 argv); [|done].
      apply Hfail, list_elem_of_here.
    + intros L HL. by apply distance_parse_failure, Hfail.
  - intros H. by rewrite main_good.
  - intros H. unfold ExAdvection.main. rewrite H. simpl.
    split; [done|]. by repeat constructor.
  - intros H. by rewrite advection_main_good.
Qed.

Lemma C8_exit_status_witness :
  (fst (Distance.Parse (Ex.distance_lib 0) ["-x"] Distance.default_options)
   = false /\
   fst (Distance.main (Ex.distance_lib 0) ["-x"]) = 1%Z) /\
  (fst (Distance.Parse (Ex.distance_lib 0) Ex.scenario_A
          Distance.default_options) = true /\
   fst (Distance.main (Ex.distance_lib 0) Ex.scenario_A) = 0%Z) /\
  (fst (ExAdvection.Parse (Ex.advection_lib false) ["-x"]
          ExAdvection.default_options) = false /\
   ExAdvection.main (Ex.advection_lib false) ["-x"]
   = (1%Z, [ExAdvection.PrintUsage])) /\
  (fst (ExAdvection.Parse (Ex.advection_lib false) []
          ExAdvection.default_options) = true /\
   fst (ExAdvection.main (Ex.advection_lib false) []) = 0%Z) /\
  (mpi_job [Ex.distance_lib 0; Ex.distance_lib 1] /\
   exists L, L ∈ [Ex.distance_lib 0; Ex.distance_lib 1] /\
             Distance.PrintUsage ∈ snd (Distance.main L ["-x"])).
Proof.
  assert (mpi_job [Ex.distance_lib 0; Ex.distance_lib 1]) as Hjob.
  { split; [discriminate|].
    intros [|[|r]] L H; simpl in H; try discriminate H;
      injection H as <-; split; reflexivity. }
  pose proof (C8_exit_status (Ex.distance_lib 0) (Ex.advection_lib false)
                ["-x"]) as (Hd & Hprocs & _ & Ha & _).
  pose proof (C8_exit_status (Ex.distance_lib 0) (Ex.advection_lib false)
                Ex.scenario_A) as (_ & _ & Hd' & _).
  pose proof (C8_exit_status (Ex.distance_lib 0) (Ex.advection_lib false)
                []) as (_ & _ & _ & _ & Ha').
  split; [split; [reflexivity|exact (proj1 (Hd eq_refl))]|].
  split; [split; [reflexivity|exact (Hd' eq_refl)]|].
  split; [split; [reflexivity|exact (proj1 (Ha eq_refl))]|].
  split; [split; [reflexivity|exact (Ha' eq_refl)]|].
  split; [exact Hjob|].
  apply (Hprocs _ Hjob). intros L HL.
  apply elem_of_cons in HL as [->|HL]; [reflexivity|].
  apply list_elem_of_singleton in HL as ->. reflexivity.
Defined.

(** * Further properties of the code *)

Lemma sum_opp {A : Type} (f : A -> Q) (l : list A) :
  foldr (fun a acc => - f a + acc) 0 l == - foldr (fun a acc => f a + acc) 0 l.
Proof. induction l as [|a l IH]; simpl; [ring|]. rewrite IH. ring. Qed.

Lemma isum_opp (n : nat) (f : nat -> Q) :
  isum n (fun j => - f j) == - isum n f.
Proof. apply sum_opp. Qed.

(** Summing [c ip * shape(ip)(j)] over the points and over [j] gives the
    sum of [c] when the shape values sum to one at every point. *)
Lemma isum_qsum_unity (n : nat) (c : IntegrationPoint -> Q)
    (s : IntegrationPoint -> Vector) (ir : IntegrationRule) :
  (forall ip, ip ∈ ir -> partition_of_unity n (s ip)) ->
  isum n (fun j => qsum (fun ip => c ip * vget (s ip) j) ir) == qsum c ir.
Proof.
  intros Hs. rewrite isum_qsum. apply qsum_ext. intros ip Hip.
  rewrite isum_scale. pose proof (Hs ip Hip) as E.
  unfold partition_of_unity in E. rewrite E. ring.
Qed.

(** ** The interior face matrix annihilates constants *)

Lemma face_init_elmat junk el1 el2 Trans cout i j :
  mget (fs_elmat (face_init junk el1 el2 Trans cout)) i j = 0.
Proof. apply mget_mzero. Qed.

(** A matrix made of the four blocks of sums has rows summing to zero
    when the shape values sum to one. *)
Lemma block_sums_rows_zero (n1 n2 : nat) (m : DenseMatrix)
    (w1 w2 : IntegrationPoint -> Q) (s1 s2 : IntegrationPoint -> Vector)
    (ir : IntegrationRule) :
  (forall ip, ip ∈ ir -> partition_of_unity n1 (s1 ip)) ->
  (forall ip, ip ∈ ir -> partition_of_unity n2 (s2 ip)) ->
  (forall i j, (i < n1)%nat -> (j < n1)%nat ->
     mget m i j
     == 0 + qsum (fun ip => w1 ip * vget (s1 ip) i * vget (s1 ip) j) ir) ->
  (forall i j, (i < n2)%nat -> (j < n1)%nat ->
     mget m j (n1 + i)
     == 0 - qsum (fun ip => w1 ip * vget (s2 ip) i * vget (s1 ip) j) ir) ->
  (forall i j, (i < n2)%nat -> (j < n2)%nat ->
     mget m (n1 + i) (n1 + j)
     == 0 - qsum (fun ip => w2 ip * vget (s2 ip) i * vget (s2 ip) j) ir) ->
  (forall i j, (i < n1)%nat -> (j < n2)%nat ->
     mget m (n1 + j) i
     == 0 + qsum (fun ip => w2 ip * vget (s1 ip) i * vget (s2 ip) j) ir) ->
  forall i, (i < n1 + n2)%nat -> row_sum (n1 + n2) m i == 0.
Proof.
  intros Hs1 Hs2 H11 H12 H22 H21 i Hi.
  unfold row_sum. rewrite isum_split.
  destruct (decide (i < n1)%nat) as [Hlt|Hge].
  - rewrite (isum_ext n1 _
               (fun j => qsum (fun ip => (w1 ip * vget (s1 ip) i)
                                         * vget (s1 ip) j) ir)).
    2:{ intros j Hj. rewrite H11 by done. ring. }
    rewrite (isum_ext n2 _
               (fun j => - qsum (fun ip => (w1 ip * vget (s1 ip) i)
                                           * vget (s2 ip) j) ir)).
    2:{ intros j Hj. rewrite H12 by done.
        rewrite (qsum_ext _ (fun ip => (w1 ip * vget (s1 ip) i)
                                       * vget (s2 ip) j)).
        - ring.
        - intros ip _. ring. }
    rewrite isum_opp, !isum_qsum_unity by done. ring.
  - assert (exists k, i = (n1 + k)%nat /\ (k < n2)%nat) as (k & -> & Hk).
    { exists (i - n1)%nat. lia. }
    rewrite (isum_ext n1 _
               (fun j => qsum (fun ip => (w2 ip * vget (s2 ip) k)
                                         * vget (s1 ip) j) ir)).
    2:{ intros j Hj. rewrite H21 by done.
        rewrite (qsum_ext _ (fun ip => (w2 ip * vget (s2 ip) k)
                                       * vget (s1 ip) j)).
        - ring.
        - intros ip _. ring. }
    rewrite (isum_ext n2 _
               (fun j => - qsum (fun ip => (w2 ip * vget (s2 ip) k)
                                           * vget (s2 ip) j) ir)).
    2:{ intros j Hj. rewrite H22 by done. ring. }
    rewrite isum_opp, !isum_qsum_unity by done. ring.
Qed.

(** X1: on an interior face, if the shape values of both elements sum to
    one at every quadrature point, every row of the matrix returned by
    [AssembleFaceMatrix] sums to zero: the upwind flux of a constant state
    vanishes. *)
Theorem X1_interior_face_rows_sum_to_zero
    (IntRules_Get : Geometry -> Z -> IntegrationRule) (junk : nat -> Q)
    (I : DGFaceIntegrator) (el1 el2 : FiniteElement)
    (Trans : FaceElementTransformations) (cout : list OutItem) :
  (0 <= Elem2No Trans)%Z ->
  (forall ip, ip ∈ face_rule IntRules_Get I el1 el2 Trans ->
     partition_of_unity (GetDof el1) (CalcShape el1 (Loc1 Trans ip)) /\
     partition_of_unity (GetDof el2) (CalcShape el2 (Loc2 Trans ip))) ->
  let n := (GetDof el1 + GetDof el2)%nat in
  let elmat :=
    fs_elmat (AssembleFaceMatrix IntRules_Get junk I el1 el2 Trans cout) in
  forall i, (i < n)%nat -> row_sum n elmat i == 0.
Proof.
  intros Hint Hpou n elmat i Hi.
  set (st0 := face_init junk el1 el2 Trans cout).
  set (ir := face_rule IntRules_Get I el1 el2 Trans) in *.
  assert (elmat = fs_elmat (foldl (face_point I el1 el2 (GetDof el1)
                                     (GetDof el2)) st0 ir)) as ->.
  { subst elmat. unfold AssembleFaceMatrix. by rewrite face_ndof2_interior. }
  destruct (face_loop_sum I el1 el2 (GetDof el1) (GetDof el2) st0 ir st0
              (face_inv_refl st0)) as (_ & H11 & H12 & H22 & H21).
  { subst st0. simpl. rewrite face_ndof2_interior by done. apply square_mzero. }
  assert (forall a b, mget (fs_elmat st0) a b = 0) as H0.
  { intros a b. apply face_init_elmat. }
  apply (block_sums_rows_zero (GetDof el1) (GetDof el2) _
           (fun ip => upwind_w1 ip (face_un I st0 ip))
           (fun ip => upwind_w2 ip (face_un I st0 ip))
           (fun ip => CalcShape el1 (Loc1 Trans ip))
           (fun ip => CalcShape el2 (Loc2 Trans ip)) ir); [| | | | | |done].
  - intros ip Hip. apply (Hpou ip Hip).
  - intros ip Hip. apply (Hpou ip Hip).
  - intros a b Ha Hb. rewrite H11, H0 by done. reflexivity.
  - intros a b Ha Hb. rewrite H12, H0 by done. reflexivity.
  - intros a b Ha Hb. rewrite H22, H0 by done. reflexivity.
  - intros a b Ha Hb. rewrite H21, H0 by done. reflexivity.
Qed.

Lemma X1_interior_face_rows_sum_to_zero_witness :
  row_sum 4
    (fs_elmat (AssembleFaceMatrix Ex.IntRules Ex.junk Ex.dg Ex.segment
                 Ex.segment Ex.face_lr [])) 0 == 0 /\
  row_sum 4
    (fs_elmat (AssembleFaceMatrix Ex.IntRules Ex.junk Ex.dg Ex.segment
                 Ex.segment Ex.face_rl [])) 3 == 0.
Proof.
  split.
  - apply (X1_interior_face_rows_sum_to_zero Ex.IntRules Ex.junk Ex.dg
             Ex.segment Ex.segment Ex.face_lr []);
      [done| |simpl; lia].
    intros ip Hip. split; reflexivity.
  - apply (X1_interior_face_rows_sum_to_zero Ex.IntRules Ex.junk Ex.dg
             Ex.segment Ex.segment Ex.face_rl []);
      [done| |simpl; lia].
    intros ip Hip. split; reflexivity.
Defined.

(** ** Points without normal flux *)

Lemma nonzero_Qeq_0 (w : Q) : w == 0 -> nonzero w = false.
Proof. intros H. unfold nonzero. by apply negb_false_iff, Qeq_eq_bool. Qed.

Lemma upwind_no_flux (ip : IntegrationPoint) (un : Q) :
  ip_weight ip * un == 0 ->
  nonzero (upwind_w1 ip un) = false /\ nonzero (upwind_w2 ip un) = false.
Proof.
  intros H. apply Qmult_integral in H as [H|H].
  - split; apply nonzero_Qeq_0; unfold upwind_w1, upwind_w2; rewrite H; ring.
  - split; apply nonzero_Qeq_0; unfold upwind_w1, upwind_w2;
      rewrite H; change (Qabs 0) with 0; ring.
Qed.

Lemma scatter_no_flux (ndof1 ndof2 : nat) (w1 w2 : Q) (shape1 shape2 : Vector)
    (m : DenseMatrix) :
  nonzero w1 = false -> nonzero w2 = false ->
  scatter ndof1 ndof2 w1 w2 shape1 shape2 m = m.
Proof.
  intros H1 H2. unfold scatter. rewrite H1, H2.
  by destruct (ndof2 =? 0)%nat.
Qed.

Lemma face_loop_no_flux I el1 el2 ndof1 ndof2 st0 (ir : IntegrationRule) st :
  face_inv st0 st ->
  (forall ip, ip ∈ ir -> ip_weight ip * face_un I st0 ip == 0) ->
  fs_elmat (foldl (face_point I el1 el2 ndof1 ndof2) st ir) = fs_elmat st.
Proof.
  revert st. induction ir as [|ip ir IH]; intros st Hinv H0; simpl; [done|].
  rewrite IH.
  - rewrite (face_point_scatter I el1 el2 ndof1 ndof2 st0 st ip Hinv).
    destruct (upwind_no_flux ip (face_un I st0 ip)) as [H1 H2].
    { apply H0. left. }
    by apply scatter_no_flux.
  - by apply face_inv_step.
  - intros ip' Hip'. apply H0. by right.
Qed.

(** X2: if at every quadrature point the normal velocity or the
    quadrature weight is zero (a rule without points included),
    [AssembleFaceMatrix] returns the zero matrix of size ndof1 + ndof2:
    no entry is ever touched. *)
Theorem X2_face_without_normal_flux
    (IntRules_Get : Geometry -> Z -> IntegrationRule) (junk : nat -> Q)
    (I : DGFaceIntegrator) (el1 el2 : FiniteElement)
    (Trans : FaceElementTransformations) (cout : list OutItem) :
  (forall ip, ip ∈ face_rule IntRules_Get I el1 el2 Trans ->
     ip_weight ip * face_un I (face_init junk el1 el2 Trans cout) ip == 0) ->
  fs_elmat (AssembleFaceMatrix IntRules_Get junk I el1 el2 Trans cout)
  = mzero (GetDof el1 + face_ndof2 el2 Trans).
Proof.
  intros H0. unfold AssembleFaceMatrix.
  rewrite (face_loop_no_flux I el1 el2 _ _ (face_init junk el1 el2 Trans cout));
    [done|apply face_inv_refl|done].
Qed.

Lemma X2_face_without_normal_flux_witness :
  fs_elmat (AssembleFaceMatrix Ex.IntRules Ex.junk
              {| dg_u := {| vdim := 1; VEval := fun _ _ => [0] |};
                 dg_IntRule := None |}
              Ex.segment Ex.segment Ex.face_lr [])
  = mzero 4.
Proof.
  apply (X2_face_without_normal_flux Ex.IntRules Ex.junk
           {| dg_u := {| vdim := 1; VEval := fun _ _ => [0] |};
              dg_IntRule := None |}
           Ex.segment Ex.segment Ex.face_lr []).
  intros ip Hip. change (ip ∈ [Ex.face_ip]) in Hip.
  apply list_elem_of_singleton in Hip. subst ip. reflexivity.
Defined.

(** ** What [AssembleFaceMatrix] writes to [cout] *)

Lemma face_point_cout I el1 el2 ndof1 ndof2 st ip :
  fs_cout (face_point I el1 el2 ndof1 ndof2 st ip)
  = if (ndof2 =? 0)%nat
    then fs_cout st ++
         [OStr "check w in bilinear form "; OEndl;
          OStr "face is "; OInt (ElementNo (Face (fs_Trans st))); OEndl;
          OStr "w "; ONum (upwind_w1 ip (face_un I st ip)); OEndl;
          OStr " **************  "; OEndl]
    else fs_cout st.
Proof. reflexivity. Qed.

Lemma face_point_Trans I el1 el2 ndof1 ndof2 st ip :
  fs_Trans (face_point I el1 el2 ndof1 ndof2 st ip)
  = set_Elem1 (set_Face (fs_Trans st) (SetIntPoint (Face (fs_Trans st)) ip))
      (SetIntPoint (Elem1 (fs_Trans st)) (Loc1 (fs_Trans st) ip)).
Proof. reflexivity. Qed.

Lemma same_up_to_points_refl T : same_up_to_points T T.
Proof. by repeat split. Qed.

Lemma face_point_same_up_to_points I el1 el2 ndof1 ndof2 T0 st ip :
  same_up_to_points T0 (fs_Trans st) ->
  same_up_to_points T0 (fs_Trans (face_point I el1 el2 ndof1 ndof2 st ip)).
Proof.
  intros (H1 & H2 & H3 & H4 & H5 & H6 & H7 & H8).
  rewrite face_point_Trans. by repeat split.
Qed.

Lemma face_loop_same_up_to_points I el1 el2 ndof1 ndof2 T0 ir st :
  same_up_to_points T0 (fs_Trans st) ->
  same_up_to_points T0
    (fs_Trans (foldl (face_point I el1 el2 ndof1 ndof2) st ir)).
Proof.
  revert st. induction ir as [|ip ir IH]; intros st H; simpl; [done|].
  by apply IH, face_point_same_up_to_points.
Qed.

Lemma same_up_to_points_ElementNo T0 T :
  same_up_to_points T0 T -> ElementNo (Face T) = ElementNo (Face T0).
Proof.
  intros (_ & _ & _ & _ & _ & _ & _ & H8).
  pose proof (f_equal ElementNo
                (H8 {| ip_x := 0; ip_y := 0; ip_z := 0; ip_weight := 0 |})) as E.
  exact E.
Qed.

Lemma face_loop_silent I el1 el2 ndof1 ndof2 (ir : IntegrationRule) st :
  ndof2 <> 0%nat ->
  fs_cout (foldl (face_point I el1 el2 ndof1 ndof2) st ir) = fs_cout st.
Proof.
  intros Hn. revert st. induction ir as [|ip ir IH]; intros st; simpl; [done|].
  rewrite IH, face_point_cout.
  by destruct (Nat.eqb_spec ndof2 0).
Qed.

Lemma face_loop_report I el1 el2 ndof1 st0 (ir : IntegrationRule) st :
  face_inv st0 st ->
  same_up_to_points (fs_Trans st0) (fs_Trans st) ->
  fs_cout (foldl (face_point I el1 el2 ndof1 0) st ir)
  = fs_cout st ++
    flat_map (fun ip =>
      [OStr "check w in bilinear form "; OEndl;
       OStr "face is "; OInt (ElementNo (Face (fs_Trans st0))); OEndl;
       OStr "w "; ONum (upwind_w1 ip (face_un I st0 ip)); OEndl;
       OStr " **************  "; OEndl]) ir.
Proof.
  revert st. induction ir as [|ip ir IH]; intros st Hinv Hsame.
  - simpl. by rewrite app_nil_r.
  - cbn [foldl flat_map]. rewrite IH.
    + rewrite face_point_cout. cbn [Nat.eqb].
      rewrite (face_un_inv I st0 st ip Hinv).
      rewrite (same_up_to_points_ElementNo _ _ Hsame).
      by rewrite <- app_assoc.
    + by apply face_inv_step.
    + by apply face_point_same_up_to_points.
Qed.

(** X3: [AssembleFaceMatrix] writes nothing to [cout] when the second
    element has degrees of freedom; on a boundary face (or when the second
    element has none) it writes, for each quadrature point in order, the
    four lines of its check with the number of the face and the element-1
    upwind weight of the point. *)
Theorem X3_face_output
    (IntRules_Get : Geometry -> Z -> IntegrationRule) (junk : nat -> Q)
    (I : DGFaceIntegrator) (el1 el2 : FiniteElement)
    (Trans : FaceElementTransformations) (cout : list OutItem) :
  let st0 := face_init junk el1 el2 Trans cout in
  let out :=
    fs_cout (AssembleFaceMatrix IntRules_Get junk I el1 el2 Trans cout) in
  ((0 <= Elem2No Trans)%Z -> GetDof el2 <> 0%nat -> out = cout) /\
  ((Elem2No Trans < 0)%Z \/ GetDof el2 = 0%nat ->
   out = cout ++
         flat_map (fun ip =>
           [OStr "check w in bilinear form "; OEndl;
            OStr "face is "; OInt (ElementNo (Face Trans)); OEndl;
            OStr "w "; ONum (upwind_w1 ip (face_un I st0 ip)); OEndl;
            OStr " **************  "; OEndl])
           (face_rule IntRules_Get I el1 el2 Trans)).
Proof.
  intros st0 out. subst out. unfold AssembleFaceMatrix. split.
  - intros Hint Hdof. rewrite face_loop_silent; [done|].
    by rewrite face_ndof2_interior.
  - intros Hb.
    assert (face_ndof2 el2 Trans = 0%nat) as ->.
    { unfold face_ndof2. destruct Hb as [Hb| ->].
      - destruct (0 <=? Elem2No Trans)%Z eqn:E; [|done].
        apply Z.leb_le in E. lia.
      - by destruct (0 <=? Elem2No Trans)%Z. }
    rewrite (face_loop_report I el1 el2 (GetDof el1) st0);
      [done|apply face_inv_refl|apply same_up_to_points_refl].
Qed.

Lemma X3_face_output_witness :
  fs_cout (AssembleFaceMatrix Ex.IntRules Ex.junk Ex.dg Ex.segment Ex.segment
             Ex.face_lr []) = [] /\
  fs_cout (AssembleFaceMatrix Ex.IntRules Ex.junk Ex.dg Ex.segment Ex.segment
             Ex.bdr_left [])
  = [OStr "check w in bilinear form "; OEndl;
     OStr "face is "; OInt 0; OEndl;
     OStr "w ";
     ONum (upwind_w1 Ex.face_ip
             (face_un Ex.dg
                (face_init Ex.junk Ex.segment Ex.segment Ex.bdr_left [])
                Ex.face_ip));
     OEndl;
     OStr " **************  "; OEndl].
Proof.
  split.
  - pose proof (X3_face_output Ex.IntRules Ex.junk Ex.dg Ex.segment
                  Ex.segment Ex.face_lr []) as [H _].
    apply H; [done|done].
  - pose proof (X3_face_output Ex.IntRules Ex.junk Ex.dg Ex.segment
                  Ex.segment Ex.bdr_left []) as [_ H].
    apply H. by left.
Defined.

(** ** The transformation after [AssembleFaceMatrix] *)

Lemma same_up_to_points_last T0 T ip :
  same_up_to_points T0 T ->
  set_Elem1 (set_Face T (SetIntPoint (Face T) ip))
    (SetIntPoint (Elem1 T) (Loc1 T ip))
  = set_Elem1 (set_Face T0 (SetIntPoint (Face T0) ip))
      (SetIntPoint (Elem1 T0) (Loc1 T0 ip)).
Proof.
  intros (H1 & H2 & H3 & H4 & H5 & H6 & H7 & H8).
  unfold set_Elem1, set_Face. cbn.
  by rewrite H1, H2, H3, H4, H5, H6, H7, H8.
Qed.

(** X4: [AssembleFaceMatrix] hands the face transformation back with
    every member as it received it, except for the points stored in [Face]
    and in [Elem1]: [Face] holds the last quadrature point of the rule;
    the point of [Elem2] is never set.  Of the point stored in [Elem1]
    nothing is said: the code stores there the address of a variable local
    to the loop body, which no longer exists after the call.  With a rule
    without points the transformation is unchanged. *)
Theorem X4_face_transformation_after
    (IntRules_Get : Geometry -> Z -> IntegrationRule) (junk : nat -> Q)
    (I : DGFaceIntegrator) (el1 el2 : FiniteElement)
    (Trans : FaceElementTransformations) (cout : list OutItem) :
  let ir := face_rule IntRules_Get I el1 el2 Trans in
  let T :=
    fs_Trans (AssembleFaceMatrix IntRules_Get junk I el1 el2 Trans cout) in
  (ir = [] -> T = Trans) /\
  (forall pre ip, ir = pre ++ [ip] ->
     Face T = SetIntPoint (Face Trans) ip) /\
  Elem1No T = Elem1No Trans /\ Elem2No T = Elem2No Trans /\
  FaceGeom T = FaceGeom Trans /\ Elem2 T = Elem2 Trans /\
  Loc1 T = Loc1 Trans /\ Loc2 T = Loc2 Trans /\
  ElementNo (Elem1 T) = ElementNo (Elem1 Trans) /\
  OrderW (Elem1 T) = OrderW (Elem1 Trans) /\
  Transform (Elem1 T) = Transform (Elem1 Trans) /\
  WeightAt (Elem1 T) = WeightAt (Elem1 Trans).
Proof.
  intros ir T.
  pose proof (face_loop_same_up_to_points I el1 el2 (GetDof el1)
                (face_ndof2 el2 Trans) Trans ir
                (face_init junk el1 el2 Trans cout)
                (same_up_to_points_refl Trans))
    as (H1 & H2 & H3 & H4 & H5 & H6 & H7 & H8).
  fold T in H1, H2, H3, H4, H5, H6, H7, H8.
  pose proof (H7 {| ip_x := 0; ip_y := 0; ip_z := 0; ip_weight := 0 |}) as E.
  split; [|split].
  - subst T. unfold AssembleFaceMatrix. fold ir. intros ->. reflexivity.
  - subst T. unfold AssembleFaceMatrix. fold ir.
    intros pre ip ->. rewrite foldl_snoc, face_point_Trans.
    pose proof (face_loop_same_up_to_points I el1 el2 (GetDof el1)
                  (face_ndof2 el2 Trans) Trans pre
                  (face_init junk el1 el2 Trans cout)
                  (same_up_to_points_refl Trans)) as Hpre.
    by rewrite (same_up_to_points_last _ _ ip Hpre).
  - repeat split; try done.
    + exact (f_equal ElementNo E).
    + exact (f_equal OrderW E).
    + exact (f_equal Transform E).
    + exact (f_equal WeightAt E).
Qed.

Lemma X4_face_transformation_after_witness :
  IntPoint (Face (fs_Trans (AssembleFaceMatrix Ex.IntRules Ex.junk Ex.dg
                              Ex.segment Ex.segment Ex.face_lr [])))
  = Some Ex.face_ip /\
  AssembleFaceMatrix Ex.IntRules Ex.junk
    {| dg_u := Ex.velocity; dg_IntRule := Some [] |}
    Ex.segment Ex.segment Ex.face_lr []
  = face_init Ex.junk Ex.segment Ex.segment Ex.face_lr [].
Proof.
  pose proof (X4_face_transformation_after Ex.IntRules Ex.junk Ex.dg
                Ex.segment Ex.segment Ex.face_lr []) as (_ & H & _).
  split.
  - rewrite (H [] Ex.face_ip eq_refl). reflexivity.
  - reflexivity.
Defined.

(** ** One space dimension: the uninitialised entries of [nor] *)

Lemma velocity_function_length (sqrt : Q -> Q) (x v : Vector) :
  length (ExAdvection.velocity_function sqrt x v) = length v.
Proof.
  unfold ExAdvection.velocity_function.
  destruct (length x) as [|[|[|[|n]]]]; by rewrite ?length_insert.
Qed.

Lemma velocity_length (junk : nat -> Q) (dim : nat) (sqrt : Q -> Q)
    (T : ElementTransformation) (p : IntegrationPoint) :
  length (VEval (ExAdvection.VectorFunctionCoefficient junk dim
                   (ExAdvection.velocity_function sqrt)) T p) = dim.
Proof.
  cbn [VEval ExAdvection.VectorFunctionCoefficient].
  rewrite velocity_function_length. unfold new_Vector.
  by rewrite length_map, length_seq.
Qed.

Lemma set_nor_dim1 (junk junk' : nat -> Q) (p : IntegrationPoint) :
  set_nor (new_Vector junk 1) p = set_nor (new_Vector junk' 1) p.
Proof. reflexivity. Qed.

Lemma vdot_dim1 (vu nor : Vector) :
  length vu = 1%nat -> vdot vu nor == vget vu 0 * vget nor 0.
Proof.
  intros H. destruct vu as [|a [|b vu]]; try discriminate H.
  unfold vdot, for_. simpl. ring.
Qed.

Lemma vget_set_nor_dim1 (junk : nat -> Q) (p : IntegrationPoint) :
  vget (set_nor (new_Vector junk 1) p) 0 = 2 * ip_x p - 1.0.
Proof. reflexivity. Qed.

Lemma face_point_nor I el1 el2 ndof1 ndof2 st st' ip :
  fs_Trans st = fs_Trans st' -> fs_elmat st = fs_elmat st' ->
  fs_cout st = fs_cout st' ->
  (forall p, set_nor (fs_nor st) p = set_nor (fs_nor st') p) ->
  face_point I el1 el2 ndof1 ndof2 st ip
  = face_point I el1 el2 ndof1 ndof2 st' ip.
Proof.
  destruct st as [T n m c], st' as [T' n' m' c']. simpl.
  intros -> -> -> Hn. unfold face_point. cbn [fs_Trans fs_nor fs_elmat fs_cout].
  by rewrite Hn.
Qed.

Lemma face_loop_nor I el1 el2 ndof1 ndof2 (ir : IntegrationRule) st st' :
  fs_Trans st = fs_Trans st' -> fs_elmat st = fs_elmat st' ->
  fs_cout st = fs_cout st' ->
  (forall p, set_nor (fs_nor st) p = set_nor (fs_nor st') p) ->
  let A := foldl (face_point I el1 el2 ndof1 ndof2) st ir in
  let A' := foldl (face_point I el1 el2 ndof1 ndof2) st' ir in
  fs_elmat A = fs_elmat A' /\ fs_Trans A = fs_Trans A' /\
  fs_cout A = fs_cout A'.
Proof.
  intros HT Hm Hc Hn. destruct ir as [|ip ir]; simpl; [done|].
  by rewrite (face_point_nor I el1 el2 ndof1 ndof2 st st' ip).
Qed.

(** X5: for an element of dimension one and a velocity with one
    component the normal velocity at a face point is
    [vu(0) * (2 * eip1.x - 1)], and the matrix, the transformation and the
    output of [AssembleFaceMatrix] do not depend on the contents of the
    uninitialised vector [nor], whose only entry is assigned before it is
    read. *)
Theorem X5_face_one_dimension
    (IntRules_Get : Geometry -> Z -> IntegrationRule) (junk junk' : nat -> Q)
    (I : DGFaceIntegrator) (el1 el2 : FiniteElement)
    (Trans : FaceElementTransformations) (cout : list OutItem) :
  GetDim el1 = 1%nat ->
  (forall T p, length (VEval (dg_u I) T p) = 1%nat) ->
  let A := AssembleFaceMatrix IntRules_Get junk I el1 el2 Trans cout in
  let A' := AssembleFaceMatrix IntRules_Get junk' I el1 el2 Trans cout in
  (forall ip,
     let eip1 := Loc1 Trans ip in
     face_un I (face_init junk el1 el2 Trans cout) ip
     == vget (VEval (dg_u I) (SetIntPoint (Elem1 Trans) eip1) eip1) 0
        * (2 * ip_x eip1 - 1.0)) /\
  fs_elmat A = fs_elmat A' /\ fs_Trans A = fs_Trans A' /\
  fs_cout A = fs_cout A'.
Proof.
  intros Hdim Hlen A A'. split.
  - intros ip eip1. unfold face_un, face_init. cbn [fs_Trans fs_nor].
    rewrite Hdim. fold eip1. rewrite vdot_dim1 by apply Hlen.
    by rewrite vget_set_nor_dim1.
  - subst A A'. unfold AssembleFaceMatrix.
    apply face_loop_nor; try done.
    intros p. unfold face_init. cbn [fs_nor]. rewrite Hdim.
    apply set_nor_dim1.
Qed.

Lemma X5_face_one_dimension_witness :
  fs_elmat (AssembleFaceMatrix Ex.IntRules Ex.junk Ex.dg Ex.segment
              Ex.segment Ex.face_lr [])
  = fs_elmat (AssembleFaceMatrix Ex.IntRules (fun i => inject_Z (Z.of_nat i))
                Ex.dg Ex.segment Ex.segment Ex.face_lr []).
Proof.
  pose proof (X5_face_one_dimension Ex.IntRules Ex.junk
                (fun i => inject_Z (Z.of_nat i)) Ex.dg Ex.segment Ex.segment
                Ex.face_lr [] eq_refl
                (velocity_length Ex.junk 1 Ex.sqrt)) as (_ & H & _).
  exact H.
Defined.

(** ** The inflow right-hand side: outflow faces and zero data *)

Lemma inflow_w_outflow (un : Q) : 0 <= un -> inflow_w un == 0.
Proof. intros H. unfold inflow_w. rewrite Qabs_pos by done. ring. Qed.

Lemma inflow_w_nonneg (un : Q) : 0 <= inflow_w un.
Proof.
  unfold inflow_w. destruct (Qlt_le_dec un 0) as [Hlt|Hge].
  - rewrite Qabs_neg by (by apply Qlt_le_weak).
    assert (- 0.5 * (un - - un) == 0 + - un) as E by ring. rewrite E.
    apply Qlt_le_weak. by apply Qlt_minus_iff in Hlt.
  - rewrite Qabs_pos by done.
    assert (- 0.5 * (un - un) == 0) as E by ring. rewrite E. apply Qle_refl.
Qed.

Lemma qsum_zero (f : IntegrationPoint -> Q) (ir : IntegrationRule) :
  (forall ip, ip ∈ ir -> f ip == 0) -> qsum f ir == 0.
Proof.
  intros H. rewrite (qsum_ext f (fun _ => 0) ir H). apply sum_zero.
Qed.

Lemma rhs_init_elvect junk el Tr cout :
  rs_elvect (rhs_init junk el Tr cout) = vzero (GetDof el).
Proof. reflexivity. Qed.

Lemma vget_vzero (n i : nat) : vget (vzero n) i = 0.
Proof.
  unfold vget, vzero. destruct (decide (i < n)%nat).
  - by rewrite lookup_replicate_2.
  - by rewrite lookup_ge_None_2 by (rewrite length_replicate; lia).
Qed.

(** The closed form of the vector, from the state on entry. *)
Lemma rhs_vector_sum IntRules_Get junk B el Tr cout :
  let st0 := rhs_init junk el Tr cout in
  let elvect :=
    rs_elvect (AssembleRHSElementVect_face IntRules_Get junk B el Tr cout) in
  length elvect = GetDof el /\
  forall i, (i < GetDof el)%nat ->
    vget elvect i
    == qsum (fun ip => rhs_weight B st0 ip
                       * vget (CalcShape el (Loc1 Tr ip)) i)
         (rhs_rule IntRules_Get B el Tr).
Proof.
  intros st0 elvect. subst elvect. unfold AssembleRHSElementVect_face.
  destruct (rhs_loop_sum B el st0 (rhs_rule IntRules_Get B el Tr) st0
              (rhs_inv_refl st0)) as [Hlen Hsum].
  fold st0. rewrite Hlen. unfold st0 at 1 3. rewrite rhs_init_elvect.
  unfold vzero at 1. rewrite length_replicate. split; [done|].
  intros i Hi. rewrite Hsum.
  - unfold st0 at 1. rewrite rhs_init_elvect, vget_vzero. apply Qplus_0_l.
  - unfold st0. rewrite rhs_init_elvect. unfold vzero.
    by rewrite length_replicate.
Qed.

(** X6: a face on which, at every quadrature point, the flow leaves the
    domain (un >= 0) or the boundary value uD is zero contributes the zero
    vector of length ndof to the right-hand side. *)
Theorem X6_inflow_vector_vanishes
    (IntRules_Get : Geometry -> Z -> IntegrationRule) (junk : nat -> Q)
    (B : BoundaryAdvectIntegrator) (el : FiniteElement)
    (Tr : FaceElementTransformations) (cout : list OutItem) :
  (forall ip, ip ∈ rhs_rule IntRules_Get B el Tr ->
     0 <= rhs_un B (rhs_init junk el Tr cout) ip \/
     Eval (ba_uD B) (Elem1 Tr) (Loc1 Tr ip) == 0) ->
  let elvect :=
    rs_elvect (AssembleRHSElementVect_face IntRules_Get junk B el Tr cout) in
  length elvect = GetDof el /\
  forall i, (i < GetDof el)%nat -> vget elvect i == 0.
Proof.
  intros H elvect.
  destruct (rhs_vector_sum IntRules_Get junk B el Tr cout) as [Hlen Hsum].
  split; [exact Hlen|]. intros i Hi. subst elvect. rewrite Hsum by done.
  apply qsum_zero. intros ip Hip. unfold rhs_weight.
  destruct (H ip Hip) as [Hun|HuD].
  - rewrite (inflow_w_outflow _ Hun). ring.
  - cbn [rhs_init rs_Trans]. rewrite HuD. ring.
Qed.

Lemma X6_inflow_vector_vanishes_witness :
  vget (rs_elvect (AssembleRHSElementVect_face Ex.IntRules Ex.junk
                     (Ex.inflow (ConstantCoefficient 5)) Ex.segment
                     Ex.bdr_left [])) 0 == 0.
Proof.
  pose proof (X6_inflow_vector_vanishes Ex.IntRules Ex.junk
                (Ex.inflow (ConstantCoefficient 5)) Ex.segment
                Ex.bdr_left []) as H.
  apply H; [|simpl; lia].
  intros ip Hip. change (ip ∈ [Ex.face_ip]) in Hip.
  apply list_elem_of_singleton in Hip. subst ip. left. by vm_compute.
Defined.

(** X7: the inflow vector is linear in the boundary value: if uD is
    a * uD1 + b * uD2 at every point, every entry of the vector is the same
    combination of the entries obtained from uD1 and from uD2. *)
Theorem X7_inflow_vector_linear
    (IntRules_Get : Geometry -> Z -> IntegrationRule) (junk : nat -> Q)
    (u : VectorCoefficient) (r : option IntegrationRule)
    (uD uD1 uD2 : Coefficient) (a b : Q) (el : FiniteElement)
    (Tr : FaceElementTransformations) (cout : list OutItem) :
  (forall T ip, Eval uD T ip == a * Eval uD1 T ip + b * Eval uD2 T ip) ->
  let vect (d : Coefficient) :=
    rs_elvect (AssembleRHSElementVect_face IntRules_Get junk
                 {| ba_uD := d; ba_u := u; ba_IntRule := r |} el Tr cout) in
  forall i, (i < GetDof el)%nat ->
    vget (vect uD) i == a * vget (vect uD1) i + b * vget (vect uD2) i.
Proof.
  intros HuD vect i Hi. subst vect. cbv beta.
  destruct (rhs_vector_sum IntRules_Get junk
              {| ba_uD := uD; ba_u := u; ba_IntRule := r |} el Tr cout)
    as [_ H].
  destruct (rhs_vector_sum IntRules_Get junk
              {| ba_uD := uD1; ba_u := u; ba_IntRule := r |} el Tr cout)
    as [_ H1].
  destruct (rhs_vector_sum IntRules_Get junk
              {| ba_uD := uD2; ba_u := u; ba_IntRule := r |} el Tr cout)
    as [_ H2].
  rewrite H, H1, H2 by done.
  change (rhs_rule IntRules_Get {| ba_uD := uD1; ba_u := u; ba_IntRule := r |}
            el Tr)
    with (rhs_rule IntRules_Get {| ba_uD := uD; ba_u := u; ba_IntRule := r |}
            el Tr).
  change (rhs_rule IntRules_Get {| ba_uD := uD2; ba_u := u; ba_IntRule := r |}
            el Tr)
    with (rhs_rule IntRules_Get {| ba_uD := uD; ba_u := u; ba_IntRule := r |}
            el Tr).
  unfold qsum. rewrite <- !sum_scale, <- sum_plus.
  apply sum_ext. intros ip _. unfold rhs_weight, rhs_un.
  cbn [ba_uD ba_u rhs_init rs_Trans rs_nor]. rewrite HuD. ring.
Qed.

Lemma X7_inflow_vector_linear_witness :
  let vect (d : Coefficient) :=
    rs_elvect (AssembleRHSElementVect_face Ex.IntRules Ex.junk
                 (Ex.inflow d) Ex.segment Ex.bdr_right []) in
  vget (vect (ConstantCoefficient 7)) 1
  == 2 * vget (vect (ConstantCoefficient 2)) 1
     + 1 * vget (vect (ConstantCoefficient 3)) 1.
Proof.
  apply (X7_inflow_vector_linear Ex.IntRules Ex.junk Ex.velocity None
           (ConstantCoefficient 7) (ConstantCoefficient 2)
           (ConstantCoefficient 3) 2 1 Ex.segment Ex.bdr_right []);
    [|simpl; lia].
  intros T ip. reflexivity.
Defined.

(** ** What the inflow right-hand side writes and leaves behind *)

Lemma rhs_point_cout B el st ip :
  rs_cout (rhs_point B el st ip)
  = rs_cout st ++
    [OStr "w "; ONum (inflow_w (rhs_un B st ip)); OEndl;
     OStr " **************  "; OEndl].
Proof. reflexivity. Qed.

Lemma rhs_point_Trans B el st ip :
  rs_Trans (rhs_point B el st ip)
  = set_Face (rs_Trans st) (SetIntPoint (Face (rs_Trans st)) ip).
Proof. reflexivity. Qed.

Lemma rhs_un_inv B st0 st ip :
  rhs_inv st0 st -> rhs_un B st ip = rhs_un B st0 ip.
Proof. intros (HL & HE & Hn). unfold rhs_un. by rewrite HL, HE, Hn. Qed.

Lemma rhs_loop_report B el st0 (ir : IntegrationRule) st :
  rhs_inv st0 st ->
  rs_cout (foldl (rhs_point B el) st ir)
  = rs_cout st ++
    flat_map (fun ip =>
      [OStr "w "; ONum (inflow_w (rhs_un B st0 ip)); OEndl;
       OStr " **************  "; OEndl]) ir.
Proof.
  revert st. induction ir as [|ip ir IH]; intros st Hinv.
  - simpl. by rewrite app_nil_r.
  - cbn [foldl flat_map]. rewrite IH by (by apply rhs_inv_step).
    rewrite rhs_point_cout, (rhs_un_inv B st0 st ip Hinv).
    by rewrite <- app_assoc.
Qed.

(** X8: the face version of [AssembleRHSElementVect] writes to [cout] the
    two lines of its header with the number of the face, also when the rule
    has no point, then for each quadrature point in order the two lines
    with the factor -0.5*(un - |un|) of the point, which is never
    negative. *)
Theorem X8_inflow_output
    (IntRules_Get : Geometry -> Z -> IntegrationRule) (junk : nat -> Q)
    (B : BoundaryAdvectIntegrator) (el : FiniteElement)
    (Tr : FaceElementTransformations) (cout : list OutItem) :
  let st0 := rhs_init junk el Tr cout in
  rs_cout (AssembleRHSElementVect_face IntRules_Get junk B el Tr cout)
  = cout ++
    [OStr "check w in linear form "; OEndl;
     OStr "face is "; OInt (ElementNo (Face Tr)); OEndl] ++
    flat_map (fun ip =>
      [OStr "w "; ONum (inflow_w (rhs_un B st0 ip)); OEndl;
       OStr " **************  "; OEndl])
      (rhs_rule IntRules_Get B el Tr)
  /\ forall ip, 0 <= inflow_w (rhs_un B st0 ip).
Proof.
  intros st0. split.
  - unfold AssembleRHSElementVect_face.
    rewrite (rhs_loop_report B el st0) by apply rhs_inv_refl.
    unfold st0 at 1. cbn [rhs_init rs_cout]. by rewrite <- app_assoc.
  - intros ip. apply inflow_w_nonneg.
Qed.

Lemma rhs_loop_Trans B el T0 (ir : IntegrationRule) st :
  (forall F, set_Face (rs_Trans st) F = set_Face T0 F) ->
  (forall p, SetIntPoint (Face (rs_Trans st)) p = SetIntPoint (Face T0) p) ->
  let T := rs_Trans (foldl (rhs_point B el) st ir) in
  (forall F, set_Face T F = set_Face T0 F) /\
  (forall p, SetIntPoint (Face T) p = SetIntPoint (Face T0) p).
Proof.
  revert st. induction ir as [|ip ir IH]; intros st HF Hp; simpl; [done|].
  apply IH.
  - intros F. rewrite rhs_point_Trans.
    transitivity (set_Face (rs_Trans st) F); [reflexivity|apply HF].
  - intros p. rewrite rhs_point_Trans.
    transitivity (SetIntPoint (Face (rs_Trans st)) p); [reflexivity|apply Hp].
Qed.

(** X9: the face version of [AssembleRHSElementVect] hands the
    transformation back as it received it, except that [Face] holds the
    last quadrature point; unlike [AssembleFaceMatrix] it never sets the
    point of [Elem1], on which it evaluates the velocity and uD. *)
Theorem X9_inflow_transformation_after
    (IntRules_Get : Geometry -> Z -> IntegrationRule) (junk : nat -> Q)
    (B : BoundaryAdvectIntegrator) (el : FiniteElement)
    (Tr : FaceElementTransformations) (cout : list OutItem) :
  let ir := rhs_rule IntRules_Get B el Tr in
  let T :=
    rs_Trans (AssembleRHSElementVect_face IntRules_Get junk B el Tr cout) in
  (ir = [] -> T = Tr) /\
  (forall pre ip, ir = pre ++ [ip] ->
     T = set_Face Tr (SetIntPoint (Face Tr) ip)) /\
  Elem1 T = Elem1 Tr.
Proof.
  intros ir T. subst T. unfold AssembleRHSElementVect_face. fold ir.
  repeat split.
  - intros ->. reflexivity.
  - intros pre ip ->. rewrite foldl_snoc, rhs_point_Trans.
    destruct (rhs_loop_Trans B el Tr pre (rhs_init junk el Tr cout))
      as [HF Hp]; [done|done|].
    by rewrite HF, Hp.
  - destruct (rhs_loop_Trans B el Tr ir (rhs_init junk el Tr cout))
      as [HF _]; [done|done|].
    exact (f_equal Elem1 (HF (Face Tr))).
Qed.

Lemma X9_inflow_transformation_after_witness :
  IntPoint (Face (rs_Trans (AssembleRHSElementVect_face Ex.IntRules Ex.junk
                              (Ex.inflow (ConstantCoefficient 5)) Ex.segment
                              Ex.bdr_right [])))
  = Some Ex.face_ip /\
  IntPoint (Elem1 (rs_Trans (AssembleRHSElementVect_face Ex.IntRules Ex.junk
                               (Ex.inflow (ConstantCoefficient 5)) Ex.segment
                               Ex.bdr_right [])))
  = None.
Proof.
  pose proof (X9_inflow_transformation_after Ex.IntRules Ex.junk
                (Ex.inflow (ConstantCoefficient 5)) Ex.segment
                Ex.bdr_right []) as (_ & H & H1).
  split.
  - rewrite (H [] Ex.face_ip eq_refl). reflexivity.
  - rewrite H1. reflexivity.
Defined.

(** ** The inflow right-hand side with the velocity of the program *)

Lemma inflow_w_compat (a b : Q) : a == b -> inflow_w a == inflow_w b.
Proof. intros H. unfold inflow_w. by rewrite H. Qed.

Lemma inflow_w_max (un : Q) : inflow_w un == Qmax 0 (- un).
Proof.
  destruct (Qlt_le_dec un 0) as [Hlt|Hge].
  - rewrite Q.max_r.
    + unfold inflow_w. rewrite Qabs_neg by (by apply Qlt_le_weak). ring.
    + apply Qlt_le_weak. apply Qlt_minus_iff in Hlt.
      by rewrite Qplus_0_l in Hlt.
  - rewrite Q.max_l.
    + by apply inflow_w_outflow.
    + apply (Qopp_le_compat 0 un) in Hge. exact Hge.
Qed.

Lemma velocity_dim1 (junk : nat -> Q) (sqrt : Q -> Q)
    (T : ElementTransformation) (p : IntegrationPoint) :
  length (Transform T p) = 1%nat ->
  VEval (ExAdvection.VectorFunctionCoefficient junk 1
           (ExAdvection.velocity_function sqrt)) T p = [- 1.0].
Proof.
  intros H. cbn [VEval ExAdvection.VectorFunctionCoefficient].
  unfold ExAdvection.velocity_function. by rewrite H.
Qed.

(** X10: on a one-dimensional mesh, with the velocity the program passes
    ([velocity_function], which is -1 there), the normal velocity at a face
    point is [1 - 2 * eip.x], whatever the uninitialised storage holds, and
    entry i of the inflow vector is the sum over the quadrature points of
    max(0, 2 * eip.x - 1) * ip.weight * uD * shape(i): a face at x = 0 of
    its element contributes nothing and a face at x = 1 contributes
    ip.weight * uD * shape(i). *)
Theorem X10_inflow_program_velocity
    (IntRules_Get : Geometry -> Z -> IntegrationRule)
    (junk junk' : nat -> Q) (sqrt : Q -> Q) (uD : Coefficient)
    (r : option IntegrationRule) (el : FiniteElement)
    (Tr : FaceElementTransformations) (cout : list OutItem) :
  GetDim el = 1%nat ->
  (forall ip, length (Transform (Elem1 Tr) ip) = 1%nat) ->
  let B :=
    {| ba_uD := uD;
       ba_u := ExAdvection.VectorFunctionCoefficient junk' 1
                 (ExAdvection.velocity_function sqrt);
       ba_IntRule := r |} in
  let elvect :=
    rs_elvect (AssembleRHSElementVect_face IntRules_Get junk B el Tr cout) in
  (forall ip,
     rhs_un B (rhs_init junk el Tr cout) ip == 1 - 2 * ip_x (Loc1 Tr ip)) /\
  (forall i, (i < GetDof el)%nat ->
     vget elvect i
     == qsum (fun ip =>
                Qmax 0 (2 * ip_x (Loc1 Tr ip) - 1)
                * (ip_weight ip * Eval uD (Elem1 Tr) (Loc1 Tr ip))
                * vget (CalcShape el (Loc1 Tr ip)) i)
          (rhs_rule IntRules_Get B el Tr)).
Proof.
  intros Hdim Hlen B elvect.
  assert (forall ip,
            rhs_un B (rhs_init junk el Tr cout) ip
            == 1 - 2 * ip_x (Loc1 Tr ip)) as Hun.
  { intros ip. unfold rhs_un. cbn [rhs_init rs_Trans rs_nor ba_u B].
    rewrite velocity_dim1 by apply Hlen. rewrite Hdim.
    rewrite vdot_dim1 by done. rewrite vget_set_nor_dim1.
    change (vget [- 1.0] 0) with (- 1.0). ring. }
  split; [exact Hun|]. intros i Hi. subst elvect.
  destruct (rhs_vector_sum IntRules_Get junk B el Tr cout) as [_ Hsum].
  rewrite Hsum by done. apply qsum_ext. intros ip _.
  unfold rhs_weight. rewrite (inflow_w_compat _ _ (Hun ip)), inflow_w_max.
  cbn [rhs_init rs_Trans ba_uD B].
  assert (- (1 - 2 * ip_x (Loc1 Tr ip)) == 2 * ip_x (Loc1 Tr ip) - 1) as E
    by ring.
  rewrite (Q.max_compat 0 0 (Qeq_refl 0) _ _ E). reflexivity.
Qed.

Lemma X10_inflow_program_velocity_witness :
  vget (rs_elvect (AssembleRHSElementVect_face Ex.IntRules Ex.junk
                     (Ex.inflow (ConstantCoefficient 5)) Ex.segment
                     Ex.bdr_right [])) 1
  == qsum (fun ip =>
             Qmax 0 (2 * ip_x (Loc1 Ex.bdr_right ip) - 1)
             * (ip_weight ip * 5)
             * vget (CalcShape Ex.segment (Loc1 Ex.bdr_right ip)) 1)
       [Ex.face_ip].
Proof.
  pose proof (X10_inflow_program_velocity Ex.IntRules Ex.junk Ex.junk
                Ex.sqrt (ConstantCoefficient 5) None Ex.segment
                Ex.bdr_right [] eq_refl (fun _ => eq_refl)) as [_ H].
  apply (H 1%nat). simpl. lia.
Defined.

(** ** The domain right-hand side *)

Lemma lf_point_vect I el st ip Tr :
  (forall p, SetIntPoint (fst st) p = SetIntPoint Tr p) ->
  lf_point I el st ip
  = (SetIntPoint Tr ip,
     vAdd (snd st)
       (ip_weight ip * (WeightAt Tr ip * Eval (lf_Q I) (SetIntPoint Tr ip) ip))
       (CalcShape el ip)).
Proof. intros H. unfold lf_point. rewrite H. reflexivity. Qed.

Lemma lf_loop_sum I el Tr (ir : IntegrationRule) st :
  (forall p, SetIntPoint (fst st) p = SetIntPoint Tr p) ->
  let final := foldl (lf_point I el) st ir in
  (forall p, SetIntPoint (fst final) p = SetIntPoint Tr p) /\
  length (snd final) = length (snd st) /\
  forall i, (i < length (snd st))%nat ->
    vget (snd final) i
    == vget (snd st) i
       + qsum (fun ip =>
                 ip_weight ip
                 * (WeightAt Tr ip * Eval (lf_Q I) (SetIntPoint Tr ip) ip)
                 * vget (CalcShape el ip) i) ir.
Proof.
  revert st. induction ir as [|ip ir IH]; intros st Hinv; simpl.
  - split; [done|]. split; [done|]. intros; ring.
  - rewrite (lf_point_vect I el st ip Tr Hinv).
    destruct (IH (SetIntPoint Tr ip,
                  vAdd (snd st)
                    (ip_weight ip
                     * (WeightAt Tr ip
                        * Eval (lf_Q I) (SetIntPoint Tr ip) ip))
                    (CalcShape el ip))) as (HT & Hlen & Hsum); [done|].
    cbn [fst snd] in Hlen, Hsum. rewrite length_vAdd in Hlen, Hsum.
    split; [exact HT|]. split; [exact Hlen|]. intros i Hi.
    rewrite Hsum, vget_vAdd by done. ring.
Qed.

Lemma domain_vector_sum IntRules_Get I el Tr :
  let res := AssembleRHSElementVect_domain IntRules_Get I el Tr in
  length (snd res) = GetDof el /\
  forall i, (i < GetDof el)%nat ->
    vget (snd res) i
    == qsum (fun ip =>
               ip_weight ip
               * (WeightAt Tr ip * Eval (lf_Q I) (SetIntPoint Tr ip) ip)
               * vget (CalcShape el ip) i) (lf_rule IntRules_Get I el).
Proof.
  intros res. subst res. unfold AssembleRHSElementVect_domain.
  destruct (lf_loop_sum I el Tr (lf_rule IntRules_Get I el)
              (Tr, vzero (GetDof el))) as (HT & Hlen & Hsum); [done|].
  cbn [fst snd] in Hlen, Hsum. unfold vzero in Hlen at 2.
  rewrite length_replicate in Hlen.
  split; [exact Hlen|]. intros i Hi. rewrite Hsum.
  - rewrite vget_vzero. apply Qplus_0_l.
  - unfold vzero. by rewrite length_replicate.
Qed.

(** X11: [AdvDomainLFIntegrator::AssembleRHSElementVect] returns a vector
    of length ndof whose entry i is the sum over the quadrature points of
    ip.weight * Tr.Weight() * Q * shape(i), with the weight of the
    transformation and Q taken at the point; a rule without points gives
    the zero vector and leaves the transformation alone, otherwise the
    transformation comes back holding the last point. *)
Theorem X11_domain_vector
    (IntRules_Get : Geometry -> Z -> IntegrationRule)
    (I : AdvDomainLFIntegrator) (el : FiniteElement)
    (Tr : ElementTransformation) :
  let ir := lf_rule IntRules_Get I el in
  let res := AssembleRHSElementVect_domain IntRules_Get I el Tr in
  length (snd res) = GetDof el /\
  (forall i, (i < GetDof el)%nat ->
     vget (snd res) i
     == qsum (fun ip =>
                ip_weight ip
                * (WeightAt Tr ip * Eval (lf_Q I) (SetIntPoint Tr ip) ip)
                * vget (CalcShape el ip) i) ir) /\
  (ir = [] -> res = (Tr, vzero (GetDof el))) /\
  (forall pre ip, ir = pre ++ [ip] -> fst res = SetIntPoint Tr ip).
Proof.
  intros ir res.
  destruct (domain_vector_sum IntRules_Get I el Tr) as [Hlen Hsum].
  split; [exact Hlen|]. split; [exact Hsum|].
  subst res. unfold AssembleRHSElementVect_domain. fold ir. split.
  - intros ->. reflexivity.
  - intros pre ip ->. rewrite foldl_snoc.
    destruct (lf_loop_sum I el Tr pre (Tr, vzero (GetDof el)))
      as (HT' & _); [done|].
    by rewrite (lf_point_vect I el _ ip Tr HT').
Qed.

Lemma X11_domain_vector_witness :
  fst (AssembleRHSElementVect_domain Ex.IntRules (Ex.domain_lf None None)
         Ex.segment (Ex.elem 0))
  = SetIntPoint (Ex.elem 0) (Ex.ip_at (1 / 2) 1) /\
  AssembleRHSElementVect_domain Ex.IntRules (Ex.domain_lf None (Some []))
    Ex.segment (Ex.elem 0)
  = (Ex.elem 0, [0; 0]).
Proof.
  split.
  - pose proof (X11_domain_vector Ex.IntRules (Ex.domain_lf None None)
                  Ex.segment (Ex.elem 0)) as (_ & _ & _ & H).
    apply (H [] (Ex.ip_at (1 / 2) 1)). reflexivity.
  - pose proof (X11_domain_vector Ex.IntRules (Ex.domain_lf None (Some []))
                  Ex.segment (Ex.elem 0)) as (_ & _ & H & _).
    apply H. reflexivity.
Defined.

(** X12: when the shape values sum to one at every quadrature point, the
    entries of the domain vector add up to the quadrature of the source:
    the sum over the points of ip.weight * Tr.Weight() * Q. *)
Theorem X12_domain_vector_total
    (IntRules_Get : Geometry -> Z -> IntegrationRule)
    (I : AdvDomainLFIntegrator) (el : FiniteElement)
    (Tr : ElementTransformation) :
  (forall ip, ip ∈ lf_rule IntRules_Get I el ->
     partition_of_unity (GetDof el) (CalcShape el ip)) ->
  isum (GetDof el)
    (vget (snd (AssembleRHSElementVect_domain IntRules_Get I el Tr)))
  == qsum (fun ip =>
             ip_weight ip
             * (WeightAt Tr ip * Eval (lf_Q I) (SetIntPoint Tr ip) ip))
       (lf_rule IntRules_Get I el).
Proof.
  intros Hpou.
  destruct (domain_vector_sum IntRules_Get I el Tr) as [_ Hsum].
  rewrite (isum_ext _ _ _ Hsum).
  by apply (isum_qsum_unity (GetDof el) _ (CalcShape el)).
Qed.

Lemma X12_domain_vector_total_witness :
  isum 2
    (vget (snd (AssembleRHSElementVect_domain Ex.IntRules
                  (Ex.domain_lf None None) Ex.segment (Ex.elem 0))))
  == qsum (fun ip => ip_weight ip * (1 / 2 * 1)) [Ex.ip_at (1 / 2) 1].
Proof.
  apply (X12_domain_vector_total Ex.IntRules (Ex.domain_lf None None)
           Ex.segment (Ex.elem 0)).
  intros ip Hip. change (ip ∈ [Ex.ip_at (1 / 2) 1]) in Hip.
  apply list_elem_of_singleton in Hip. subst ip. reflexivity.
Defined.

(** ** [velocity_function] *)

(** X13: [velocity_function] keeps the size of [v] and never touches an
    entry at or beyond [x.Size()]; for a point of size other than 1, 2 or 3
    (the switch has no default) it leaves [v] as it came; for a point of
    size 1 it stores -1; and when [v] has the size of the point, 1 to 3,
    every entry is assigned, so the result does not depend on what [v]
    held before. *)
Theorem X13_velocity_function (sqrt : Q -> Q) (x v : Vector) :
  let r := ExAdvection.velocity_function sqrt x v in
  length r = length v /\
  (forall i, (length x <= i)%nat -> r !! i = v !! i) /\
  (~ (1 <= length x <= 3)%nat -> r = v) /\
  (length x = 1%nat -> (0 < length v)%nat -> r !! 0%nat = Some (- 1.0)) /\
  ((1 <= length x <= 3)%nat -> length v = length x ->
   forall v', length v' = length x ->
     ExAdvection.velocity_function sqrt x v' = r).
Proof.
  intros r. subst r. split; [apply velocity_function_length|].
  unfold ExAdvection.velocity_function.
  repeat split.
  - intros i Hi.
    destruct (length x) as [|[|[|[|n]]]]; try done;
      rewrite ?list_lookup_insert_ne by lia; done.
  - intros Hx. destruct (length x) as [|[|[|[|n]]]]; try done; lia.
  - intros -> Hv. by rewrite list_lookup_insert_eq.
  - intros Hx Hv v' Hv'.
    destruct (length x) as [|[|[|[|n]]]]; try lia.
    + destruct v as [|a [|? ?]], v' as [|a' [|? ?]]; try discriminate; done.
    + destruct v as [|a [|b [|? ?]]], v' as [|a' [|b' [|? ?]]];
        try discriminate; done.
    + destruct v as [|a [|b [|c [|? ?]]]], v' as [|a' [|b' [|c' [|? ?]]]];
        try discriminate; done.
Qed.

Lemma X13_velocity_function_witness :
  ExAdvection.velocity_function Ex.sqrt [1 / 2] [7] = [- 1.0] /\
  ExAdvection.velocity_function Ex.sqrt [] [7; 7] = [7; 7].
Proof.
  pose proof (X13_velocity_function Ex.sqrt [1 / 2] [3]) as (_ & _ & _ & _ & H).
  pose proof (X13_velocity_function Ex.sqrt [] [7; 7]) as (_ & _ & H' & _).
  split.
  - rewrite (H ltac:(simpl; lia) eq_refl [7] eq_refl). reflexivity.
  - apply H'. simpl. lia.
Defined.

(** ** The exact distances of [distance.cpp] *)

(** X14: at a point whose first coordinate is x the exact distance of the
    segment is zero at x = 0 and at x = 1 and lies between 0 and 1/2 for x
    in [0, 1]; at a point with (at least) two coordinates x and y the
    exact distance of the square never exceeds that of the segment, is zero
    on the four sides of the unit square and is not negative inside it. *)
Theorem X14_exact_distances (T : ElementTransformation)
    (ip : IntegrationPoint) (x y : Q) :
  let ds := Eval Distance.ExactSegmentDistCoeff T ip in
  let dq := Eval Distance.ExactQuadDistCoeff T ip in
  (Transform T ip !! 0%nat = Some x ->
   (x == 0 \/ x == 1 -> ds == 0) /\
   (0 <= x -> x <= 1 -> 0 <= ds /\ ds <= 1 # 2)) /\
  (Transform T ip !! 0%nat = Some x -> Transform T ip !! 1%nat = Some y ->
   dq <= ds /\
   (0 <= x -> x <= 1 -> 0 <= y -> y <= 1 ->
    0 <= dq /\ (x == 0 \/ x == 1 \/ y == 0 \/ y == 1 -> dq == 0))).
Proof.
  intros ds dq. subst ds dq.
  cbn [Eval Distance.ExactSegmentDistCoeff Distance.ExactQuadDistCoeff].
  unfold vget. rewrite !std_min_Qmin.
  split.
  - intros ->. cbn [from_option id].
    pose proof (Q.min_spec x (1.0 - x)) as Ha.
    set (a := Qmin x (1.0 - x)) in *. clearbody a.
    split; [intros Hx|intros Hx0 Hx1; split];
      destruct Ha as [[Ha Ea]|[Ha Ea]];
      repeat match goal with H : _ \/ _ |- _ => destruct H end; lra.
  - intros -> ->. cbn [from_option id].
    pose proof (Q.min_spec x (1.0 - x)) as Ha.
    pose proof (Q.min_spec y (1.0 - y)) as Hb.
    pose proof (Q.min_spec (Qmin x (1.0 - x)) (Qmin y (1.0 - y))) as Hm.
    set (a := Qmin x (1.0 - x)) in *. set (b := Qmin y (1.0 - y)) in *.
    set (m := Qmin a b) in *. clearbody m. clearbody a b.
    split; [|intros Hx0 Hx1 Hy0 Hy1; split; [|intros Hside]];
      destruct Ha as [[Ha Ea]|[Ha Ea]], Hb as [[Hb Eb]|[Hb Eb]],
        Hm as [[Hm Em]|[Hm Em]];
      repeat match goal with H : _ \/ _ |- _ => destruct H end; lra.
Qed.

Lemma X14_exact_distances_witness :
  let T2 :=
    {| ElementNo := 0; OrderW := 0;
       Transform := fun ip => [ip_x ip; ip_y ip];
       WeightAt := fun _ => 1; IntPoint := None |} in
  let side := {| ip_x := 1 # 2; ip_y := 1; ip_z := 0; ip_weight := 1 |} in
  let inner := {| ip_x := 1 # 4; ip_y := 1 # 3; ip_z := 0; ip_weight := 1 |} in
  Eval Distance.ExactSegmentDistCoeff (Ex.point 0 1) Ex.face_ip == 0 /\
  Eval Distance.ExactQuadDistCoeff T2 side == 0 /\
  0 <= Eval Distance.ExactQuadDistCoeff T2 inner.
Proof.
  intros T2 side inner.
  pose proof (X14_exact_distances (Ex.point 0 1) Ex.face_ip 1 0) as (H & _).
  pose proof (X14_exact_distances T2 side (1 # 2) 1) as (_ & Hs).
  pose proof (X14_exact_distances T2 inner (1 # 4) (1 # 3)) as (_ & Hi).
  split; [|split].
  - apply (H eq_refl). right. reflexivity.
  - apply (Hs eq_refl eq_refl); try (by vm_compute).
    right. right. right. reflexivity.
  - apply (Hi eq_refl eq_refl); by vm_compute.
Defined.

(** ** Counting the calls of a run *)

Lemma count_calls_app {E : Type} (f : E -> bool) (l1 l2 : list E) :
  count_calls f (l1 ++ l2) = (count_calls f l1 + count_calls f l2)%nat.
Proof. unfold count_calls. by rewrite List.filter_app, length_app. Qed.

Lemma count_calls_none {E : Type} (f : E -> bool) (l : list E) :
  Forall (fun c => f c = false) l -> count_calls f l = 0%nat.
Proof.
  unfold count_calls. induction 1 as [|c l Hc _ IH]; [done|].
  simpl. by rewrite Hc.
Qed.

Lemma repeatM_count {E S : Type} (f : E -> bool) (k n : nat)
    (body : S -> Writer E S) (s : S) :
  (forall s, count_calls f (snd (body s)) = k) ->
  count_calls f (snd (repeatM n body s)) = (n * k)%nat.
Proof.
  intros Hbody. revert s. induction n as [|n IH]; intros s; [done|].
  change (snd (repeatM (Datatypes.S n) body s))
    with (snd (body s) ++ snd (repeatM n body (fst (body s)))).
  by rewrite count_calls_app, Hbody, IH.
Qed.

Ltac count_zero :=
  repeat match goal with
  | |- context [count_calls ?f ?l] =>
      rewrite (count_calls_none f l) by (calls_forall; done)
  end.

Lemma last_app_some {A : Type} (l1 l2 : list A) (x : A) :
  last l2 = Some x -> last (l1 ++ l2) = Some x.
Proof. intros H. by rewrite last_app, H. Qed.

Section DistanceCounts.

Import Distance.
Variable L : Distance.Lib.
Variable o : Options.

Lemma refine_serial_count (m : MeshT L) :
  count_calls is_serial_refinement (snd (refine_serial L o m))
  = Z.to_nat (rs_levels o).
Proof.
  unfold refine_serial. rewrite (repeatM_count _ 1); [lia|done].
Qed.

Lemma serial_refinements_of_solve :
  count_calls is_serial_refinement (snd (solve L o))
  = Z.to_nat (rs_levels o).
Proof.
  rewrite solve_calls, report_errors_calls.
  destruct (select_exact_dist L o); rewrite !count_calls_app;
    count_zero; rewrite refine_serial_count; lia.
Qed.

Lemma parallel_refinements_of_solve :
  count_calls is_parallel_refinement (snd (solve L o)) = 2%nat.
Proof.
  rewrite solve_calls, report_errors_calls.
  destruct (select_exact_dist L o); rewrite !count_calls_app;
    count_zero; rewrite parallel_mesh_calls; reflexivity.
Qed.

Lemma mpi_init_of_solve :
  count_calls is_MPI_Init (snd (solve L o)) = 0%nat.
Proof.
  rewrite solve_calls, report_errors_calls.
  destruct (select_exact_dist L o); rewrite !count_calls_app;
    count_zero; reflexivity.
Qed.

Lemma mpi_finalize_of_solve :
  count_calls is_MPI_Finalize (snd (solve L o)) = 1%nat /\
  last (snd (solve L o)) = Some MPI_Finalize.
Proof.
  rewrite solve_calls, report_errors_calls. split.
  - destruct (select_exact_dist L o); rewrite !count_calls_app;
      count_zero; reflexivity.
  - repeat apply last_app_some. reflexivity.
Qed.

End DistanceCounts.

(** X16: a run of the distance program with parsed options refines the
    serial mesh exactly [rs_levels] times (not at all when [rs_levels] is
    negative) and the parallel mesh exactly twice. *)
Theorem X16_refinement_counts (L : Distance.Lib) (argv : list string) :
  fst (Distance.Parse L argv Distance.default_options) = true ->
  let o := snd (Distance.Parse L argv Distance.default_options) in
  let calls := snd (Distance.main L argv) in
  count_calls is_serial_refinement calls = Z.to_nat (Distance.rs_levels o) /\
  ((Distance.rs_levels o <= 0)%Z ->
   count_calls is_serial_refinement calls = 0%nat) /\
  count_calls is_parallel_refinement calls = 2%nat.
Proof.
  intros Hgood o calls. subst calls. rewrite main_good by done. cbn [snd].
  change (Distance.MPI_Init :: ?l) with ([Distance.MPI_Init] ++ l).
  rewrite !count_calls_app. fold o.
  rewrite serial_refinements_of_solve, parallel_refinements_of_solve.
  split; [reflexivity|]. split; [|reflexivity].
  intros H. cbn [count_calls List.filter is_serial_refinement length]. lia.
Qed.

Lemma X16_refinement_counts_witness :
  count_calls is_serial_refinement
    (snd (Distance.main (Ex.distance_lib 0) Ex.scenario_A)) = 3%nat /\
  count_calls is_parallel_refinement
    (snd (Distance.main (Ex.distance_lib 0) Ex.scenario_A)) = 2%nat.
Proof.
  pose proof (X16_refinement_counts (Ex.distance_lib 0) Ex.scenario_A
                eq_refl) as (H1 & _ & H2).
  split; [exact H1|exact H2].
Defined.

(** X17: whatever the arguments, a run of the distance program calls
    [MPI_Init] first and exactly once, and [MPI_Finalize] last and exactly
    once. *)
Theorem X17_mpi_bracket (L : Distance.Lib) (argv : list string) :
  let calls := snd (Distance.main L argv) in
  head calls = Some Distance.MPI_Init /\
  last calls = Some Distance.MPI_Finalize /\
  count_calls is_MPI_Init calls = 1%nat /\
  count_calls is_MPI_Finalize calls = 1%nat.
Proof.
  intros calls. subst calls.
  destruct (fst (Distance.Parse L argv Distance.default_options)) eqn:Hgood.
  - rewrite main_good by done. cbn [snd].
    set (o := snd (Distance.Parse L argv Distance.default_options)).
    destruct (mpi_finalize_of_solve L o) as [Hcount Hlast].
    split; [reflexivity|].
    change (Distance.MPI_Init :: ?l) with ([Distance.MPI_Init] ++ l).
    rewrite !count_calls_app, mpi_init_of_solve, Hcount.
    split; [by apply last_app_some|]. split; reflexivity.
  - destruct (distance_parse_failure L argv Hgood) as (_ & -> & _).
    destruct (Distance.myid L =? 0)%Z; repeat split; reflexivity.
Qed.

(** ** The distance driver: error reports and windows *)

Section DistanceReports.

Import Distance.
Variable L : Distance.Lib.
Variable o : Options.

Lemma select_exact_dist_quad :
  mesh_file o = "../data/inline-quad.mesh" ->
  select_exact_dist L o = Some ExactQuadDistCoeff.
Proof. intros H. unfold select_exact_dist. rewrite H. reflexivity. Qed.

Lemma select_exact_dist_circle :
  mesh_file o = "./cir.msh" ->
  select_exact_dist L o = Some (ExactCircleDistCoeff (sqrt L)).
Proof. intros H. unfold select_exact_dist. rewrite H. reflexivity. Qed.

Lemma select_exact_dist_unknown :
  ~ known_mesh o -> select_exact_dist L o = None.
Proof.
  intros H. unfold select_exact_dist, known_mesh in *.
  destruct (String.eqb_spec (mesh_file o) "../data/inline-segment.mesh");
    [tauto|].
  destruct (String.eqb_spec (mesh_file o) "../data/inline-quad.mesh");
    [tauto|].
  destruct (String.eqb_spec (mesh_file o) "./cir.msh"); [tauto|].
  reflexivity.
Qed.

Lemma select_exact_dist_known :
  known_mesh o -> is_Some (select_exact_dist L o).
Proof.
  intros [H|[H|H]].
  - by rewrite select_exact_dist_segment.
  - by rewrite select_exact_dist_quad.
  - by rewrite select_exact_dist_circle.
Qed.

Lemma send_glvis_list w u u_error exact_dist :
  snd (send_glvis o w u u_error exact_dist)
  = if visualization o
    then [GLVis "w" 0 0 w; GLVis "u" 600 0 u]
         ++ match exact_dist with
            | Some _ => [GLVis "|u - d|" 1200 0 u_error]
            | None => []
            end
    else [].
Proof.
  unfold send_glvis. destruct (visualization o); [|reflexivity].
  destruct exact_dist; reflexivity.
Qed.

Lemma project_coefficient_called d :
  select_exact_dist L o = Some d ->
  ProjectCoefficient d ∈ snd (solve L o).
Proof.
  intros Hd. rewrite solve_calls, report_errors_calls, Hd.
  do 10 (apply elem_of_app; right).
  apply elem_of_app; left.
  do 2 (apply elem_of_app; right). apply list_elem_of_here.
Qed.

Lemma no_error_report :
  select_exact_dist L o = None ->
  Forall (fun c => reports_error c = false) (snd (solve L o)).
Proof.
  intros Hd. rewrite solve_calls, report_errors_calls, send_glvis_list, Hd.
  destruct (visualization o); calls_forall; done.
Qed.

(** The error field after the loop of lines 290-293. *)
Lemma error_field_entry (fespace : SpaceT L) (u u_error : Vector)
    (d : Coefficient) :
  let P := Project L fespace u_error d in
  let field := fst (report_errors L fespace u u_error (Some d)) in
  length field = length P /\
  forall i, (i < length u)%nat -> (i < length P)%nat ->
    vget field i = Qabs (vget P i - vget u i).
Proof.
  intros P field.
  assert (field = for_ (length u)
                    (fun i e => <[i := Qabs (vget e i - vget u i)]> e) P)
    as -> by reflexivity.
  split.
  - apply (for_inv (fun e => length e = length P)); [done|].
    intros i s _ Hs. by rewrite length_insert.
  - intros i Hu HP.
    apply (for_hit (fun e => length e = length P) (fun e => vget e i)
             (fun v => Qabs (v - vget u i)) (length u) i); [done|done| | |].
    + intros k s _ Hs. by rewrite length_insert.
    + intros k s _ Hne _. unfold vget at 1 3.
      by rewrite list_lookup_insert_ne.
    + intros s Hs. unfold vget at 1.
      rewrite list_lookup_insert_eq by lia. done.
Qed.

End DistanceReports.

(** X15: a run of the distance program computes and reports errors only
    for the three mesh files whose exact distance it knows: for one of them
    it calls ComputeL1Error and ComputeMaxError on u and projects the exact
    distance chosen by the file name; for any other file, the default
    star.mesh included, it makes none of these calls and opens no error
    window. *)
Theorem X15_errors_only_for_known_meshes
    (L : Distance.Lib) (argv : list string) :
  fst (Distance.Parse L argv Distance.default_options) = true ->
  let o := snd (Distance.Parse L argv Distance.default_options) in
  let calls := snd (Distance.main L argv) in
  (Distance.mesh_file o = "../data/inline-quad.mesh" ->
   Distance.select_exact_dist L o = Some Distance.ExactQuadDistCoeff) /\
  (Distance.mesh_file o = "./cir.msh" ->
   Distance.select_exact_dist L o
   = Some (Distance.ExactCircleDistCoeff (Distance.sqrt L))) /\
  (known_mesh o ->
   exists d, Distance.select_exact_dist L o = Some d /\
     Distance.ComputeL1Error (Distance.var_u L o) d ∈ calls /\
     Distance.ComputeMaxError (Distance.var_u L o) d ∈ calls /\
     Distance.ProjectCoefficient d ∈ calls) /\
  (~ known_mesh o ->
   Forall (fun c => reports_error c = false) calls) /\
  (o = Distance.default_options ->
   Forall (fun c => reports_error c = false) calls).
Proof.
  intros Hgood o calls. subst calls. rewrite main_good by done.
  cbn [snd]. fold o.
  split; [apply select_exact_dist_quad|].
  split; [apply select_exact_dist_circle|].
  split; [|split].
  - intros Hk. destruct (select_exact_dist_known L o Hk) as [d Hd].
    exists d. split; [done|].
    destruct (errors_called L o d Hd) as (H1 & H2 & _).
    pose proof (project_coefficient_called L o d Hd) as H3.
    repeat split; by apply list_elem_of_further.
  - intros Hk. constructor; [done|].
    by apply no_error_report, select_exact_dist_unknown.
  - intros Ho. constructor; [done|].
    apply no_error_report. rewrite Ho. reflexivity.
Qed.

Lemma X15_errors_only_for_known_meshes_witness :
  Distance.ProjectCoefficient Distance.ExactSegmentDistCoeff
    ∈ snd (Distance.main (Ex.distance_lib 0) Ex.scenario_A) /\
  Forall (fun c => reports_error c = false)
    (snd (Distance.main (Ex.distance_lib 0) [])).
Proof.
  split.
  - pose proof (X15_errors_only_for_known_meshes (Ex.distance_lib 0)
                  Ex.scenario_A eq_refl) as (_ & _ & H & _).
    destruct H as (d & Hd & _ & _ & H); [by left|].
    injection Hd as <-. exact H.
  - pose proof (X15_errors_only_for_known_meshes (Ex.distance_lib 0)
                  [] eq_refl) as (_ & _ & _ & _ & H).
    apply H. reflexivity.
Defined.

(** ** The distance driver: ParaView output and boundary attributes *)

Section DistanceOutput.

Import Distance.
Variable L : Distance.Lib.
Variable o : Options.

Lemma var_order_cases :
  ((0 < order o)%Z -> var_order L o = order o) /\
  ((order o <= 0)%Z -> GetNodes_OwnFEC L (var_pmesh L o) = None ->
   var_order L o = 1%Z) /\
  ((order o <= 0)%Z -> is_Some (GetNodes_OwnFEC L (var_pmesh L o)) ->
   var_order L o = order o).
Proof.
  unfold var_order, select_fec.
  destruct (Z.ltb_spec 0 (order o)); repeat split; try lia; try done.
  - intros _ ->. reflexivity.
  - intros _ [fec ->]. reflexivity.
Qed.

Lemma essential_dofs_list pmesh fespace :
  essential_dofs L pmesh fespace
  = if (bdr_attributes_Size L pmesh =? 0)%Z then ([], [])
    else (EssentialTrueDofs L fespace
            (Array_fill (bdr_attributes_Max L pmesh) 1),
          [GetEssentialTrueDofs (Array_fill (bdr_attributes_Max L pmesh) 1)]).
Proof.
  unfold essential_dofs. by destruct (bdr_attributes_Size L pmesh =? 0)%Z.
Qed.

End DistanceOutput.

(** ** Selecting the calls of one kind *)

Lemma filter_calls_none {E : Type} (f : E -> bool) (l : list E) :
  Forall (fun c => f c = false) l -> List.filter f l = [].
Proof.
  induction 1 as [|c l Hc _ IH]; [done|]. simpl. by rewrite Hc.
Qed.

Ltac filter_zero :=
  repeat match goal with
  | |- context [List.filter ?f ?l] =>
      rewrite (filter_calls_none f l) by (calls_forall; done)
  end.

Section DistanceTrace.

Import Distance.
Variable L : Distance.Lib.
Variable o : Options.

Lemma glvis_of_solve :
  List.filter is_GLVis (snd (solve L o))
  = if visualization o
    then GLVis "w" 0 0 (var_w L o) :: GLVis "u" 600 0 (var_u L o) ::
         match select_exact_dist L o with
         | Some d =>
             [GLVis "|u - d|" 1200 0
                (fst (report_errors L (var_fespace L o) (var_u L o)
                        (new_Vector (junk L) (GetVSize L (var_fespace L o)))
                        (Some d)))]
         | None => []
         end
    else [].
Proof.
  rewrite solve_calls, report_errors_calls, send_glvis_list.
  destruct (select_exact_dist L o) as [d|], (visualization o);
    cbv iota; rewrite !List.filter_app; filter_zero; reflexivity.
Qed.

Lemma paraview_of_solve :
  List.filter is_ParaView_Save (snd (solve L o))
  = [ParaView_Save "Dist" (var_order L o)
       [("w", var_w L o); ("u", var_u L o)]].
Proof.
  rewrite solve_calls, report_errors_calls.
  destruct (select_exact_dist L o) as [d|];
    rewrite !List.filter_app; filter_zero; reflexivity.
Qed.

Lemma form_linear_system_of_solve :
  List.filter is_FormLinearSystem (snd (solve L o))
  = [FormLinearSystem (var_a o) (var_ess_tdof_list L o) (var_w_bc L o)
       (var_b L o)].
Proof.
  rewrite solve_calls, report_errors_calls.
  destruct (select_exact_dist L o) as [d|];
    rewrite !List.filter_app; filter_zero; reflexivity.
Qed.

Lemma project_bdr_of_solve :
  List.filter is_ProjectBdrCoefficient (snd (solve L o))
  = [ProjectBdrCoefficient (var_w_zero L o) (ConstantCoefficient 1.0)
       (var_bdr L o)].
Proof.
  rewrite solve_calls, report_errors_calls.
  destruct (select_exact_dist L o) as [d|];
    rewrite !List.filter_app; filter_zero; reflexivity.
Qed.

Lemma essential_dofs_of_solve :
  List.filter is_GetEssentialTrueDofs (snd (solve L o))
  = if (bdr_attributes_Size L (var_pmesh L o) =? 0)%Z then []
    else [GetEssentialTrueDofs
            (Array_fill (bdr_attributes_Max L (var_pmesh L o)) 1)].
Proof.
  rewrite solve_calls, report_errors_calls, essential_dofs_list.
  destruct (select_exact_dist L o) as [d|],
    (bdr_attributes_Size L (var_pmesh L o) =? 0)%Z;
    cbv iota; rewrite !List.filter_app; filter_zero; reflexivity.
Qed.

Lemma var_ess_tdof_list_cases :
  var_ess_tdof_list L o
  = if (bdr_attributes_Size L (var_pmesh L o) =? 0)%Z then []
    else EssentialTrueDofs L (var_fespace L o)
           (Array_fill (bdr_attributes_Max L (var_pmesh L o)) 1).
Proof.
  unfold var_ess_tdof_list. rewrite essential_dofs_list.
  by destruct (bdr_attributes_Size L (var_pmesh L o) =? 0)%Z.
Qed.

End DistanceTrace.

(** X18: the GLVis windows of a run of the distance program are exactly
    these, in this order: none when visualization is off; otherwise [w]
    under the title w, [u] under the title u and, only when an exact
    distance is known, the error field under the title |u - d|.  Entry i
    of the error field is |d(i) - u(i)| with d the projected exact
    distance: the uninitialised grid function [u_error] is never sent. *)
Theorem X18_glvis_windows (L : Distance.Lib) (argv : list string) :
  fst (Distance.Parse L argv Distance.default_options) = true ->
  let o := snd (Distance.Parse L argv Distance.default_options) in
  let calls := snd (Distance.main L argv) in
  let u := Distance.var_u L o in
  let u_error :=
    new_Vector (Distance.junk L)
      (Distance.GetVSize L (Distance.var_fespace L o)) in
  let P d := Distance.Project L (Distance.var_fespace L o) u_error d in
  let field d :=
    fst (Distance.report_errors L (Distance.var_fespace L o) u u_error
           (Some d)) in
  List.filter is_GLVis calls
  = (if Distance.visualization o
     then Distance.GLVis "w" 0 0 (Distance.var_w L o) ::
          Distance.GLVis "u" 600 0 u ::
          match Distance.select_exact_dist L o with
          | Some d => [Distance.GLVis "|u - d|" 1200 0 (field d)]
          | None => []
          end
     else []) /\
  forall d,
    length (field d) = length (P d) /\
    forall i, (i < length u)%nat -> (i < length (P d))%nat ->
      vget (field d) i = Qabs (vget (P d) i - vget u i).
Proof.
  intros Hgood o calls u u_error P field. subst calls.
  rewrite main_good by done. cbn [snd]. fold o. split.
  - change (List.filter is_GLVis (Distance.MPI_Init :: ?l))
      with (List.filter is_GLVis l).
    apply glvis_of_solve.
  - intros d. apply error_field_entry.
Qed.

Lemma X18_glvis_windows_witness :
  fst (Distance.Parse (Ex.distance_lib 0) Ex.scenario_A
         Distance.default_options) = true /\
  length (List.filter is_GLVis
            (snd (Distance.main (Ex.distance_lib 0) Ex.scenario_A)))
  = 3%nat.
Proof.
  split; [reflexivity|].
  pose proof (X18_glvis_windows (Ex.distance_lib 0) Ex.scenario_A eq_refl)
    as [H _].
  rewrite H. reflexivity.
Defined.

(** X19: a run of the distance program saves its ParaView collection
    exactly once, under the name Dist with the two fields w and u (never
    the error field); its levels of detail are the order given on the
    command line when that is positive, 1 when it is not and the mesh has
    no nodes, and the non-positive order itself in the isoparametric
    case. *)
Theorem X19_paraview_output (L : Distance.Lib) (argv : list string) :
  fst (Distance.Parse L argv Distance.default_options) = true ->
  let o := snd (Distance.Parse L argv Distance.default_options) in
  let calls := snd (Distance.main L argv) in
  let pmesh := Distance.var_pmesh L o in
  let lod := Distance.var_order L o in
  List.filter is_ParaView_Save calls
  = [Distance.ParaView_Save "Dist" lod
       [("w", Distance.var_w L o); ("u", Distance.var_u L o)]] /\
  ((0 < Distance.order o)%Z -> lod = Distance.order o) /\
  ((Distance.order o <= 0)%Z ->
   Distance.GetNodes_OwnFEC L pmesh = None -> lod = 1%Z) /\
  ((Distance.order o <= 0)%Z ->
   is_Some (Distance.GetNodes_OwnFEC L pmesh) -> lod = Distance.order o).
Proof.
  intros Hgood o calls pmesh lod. subst calls.
  rewrite main_good by done. cbn [snd]. fold o. split.
  - change (List.filter is_ParaView_Save (Distance.MPI_Init :: ?l))
      with (List.filter is_ParaView_Save l).
    apply paraview_of_solve.
  - apply var_order_cases.
Qed.

Lemma X19_paraview_output_witness :
  fst (Distance.Parse (Ex.distance_lib 0) Ex.scenario_A
         Distance.default_options) = true /\
  exists fields,
    List.filter is_ParaView_Save
      (snd (Distance.main (Ex.distance_lib 0) Ex.scenario_A))
    = [Distance.ParaView_Save "Dist" 1 fields].
Proof.
  split; [reflexivity|].
  pose proof (X19_paraview_output (Ex.distance_lib 0) Ex.scenario_A eq_refl)
    as (H & Hpos & _).
  eexists. rewrite H, Hpos; [reflexivity|reflexivity].
Defined.

(** X20: a run of the distance program forms its linear system exactly
    once and projects the boundary data exactly once, the latter with a
    marker array of bdr_attributes.Max() entries filled with 1.  On a mesh
    without boundary attributes it never calls GetEssentialTrueDofs and the
    system is formed with an empty list of essential dofs; otherwise it
    calls GetEssentialTrueDofs exactly once, with such a marker array, and
    the system is formed with the list that call returns. *)
Theorem X20_boundary_attributes (L : Distance.Lib) (argv : list string) :
  fst (Distance.Parse L argv Distance.default_options) = true ->
  let o := snd (Distance.Parse L argv Distance.default_options) in
  let calls := snd (Distance.main L argv) in
  let pmesh := Distance.var_pmesh L o in
  let ess_bdr := Array_fill (Distance.bdr_attributes_Max L pmesh) 1 in
  let system ess :=
    Distance.FormLinearSystem (Distance.var_a o) ess (Distance.var_w_bc L o)
      (Distance.var_b L o) in
  List.filter is_ProjectBdrCoefficient calls
  = [Distance.ProjectBdrCoefficient (Distance.var_w_zero L o)
       (ConstantCoefficient 1.0) ess_bdr] /\
  (Distance.bdr_attributes_Size L pmesh = 0%Z ->
   List.filter is_GetEssentialTrueDofs calls = [] /\
   List.filter is_FormLinearSystem calls = [system []]) /\
  (Distance.bdr_attributes_Size L pmesh <> 0%Z ->
   List.filter is_GetEssentialTrueDofs calls
   = [Distance.GetEssentialTrueDofs ess_bdr] /\
   List.filter is_FormLinearSystem calls
   = [system (Distance.EssentialTrueDofs L (Distance.var_fespace L o)
                ess_bdr)]).
Proof.
  intros Hgood o calls pmesh ess_bdr system. subst calls.
  rewrite main_good by done. cbn [snd]. fold o.
  change (List.filter is_ProjectBdrCoefficient (Distance.MPI_Init :: ?l))
    with (List.filter is_ProjectBdrCoefficient l).
  change (List.filter is_GetEssentialTrueDofs (Distance.MPI_Init :: ?l))
    with (List.filter is_GetEssentialTrueDofs l).
  change (List.filter is_FormLinearSystem (Distance.MPI_Init :: ?l))
    with (List.filter is_FormLinearSystem l).
  rewrite project_bdr_of_solve, essential_dofs_of_solve,
    form_linear_system_of_solve, var_ess_tdof_list_cases.
  fold pmesh. split; [reflexivity|]. split.
  - intros ->. split; reflexivity.
  - intros H0. apply Z.eqb_neq in H0. rewrite H0. split; reflexivity.
Qed.

Lemma X20_boundary_attributes_witness :
  (exists a w b,
     List.filter is_FormLinearSystem (snd (Distance.main (periodic_lib 0) []))
     = [Distance.FormLinearSystem a [] w b]) /\
  List.filter is_GetEssentialTrueDofs
    (snd (Distance.main (Ex.distance_lib 0) []))
  = [Distance.GetEssentialTrueDofs [1%Z; 1%Z]].
Proof.
  pose proof (X20_boundary_attributes (periodic_lib 0) [] eq_refl)
    as (_ & H & _).
  pose proof (X20_boundary_attributes (Ex.distance_lib 0) [] eq_refl)
    as (_ & _ & H').
  split.
  - eexists _, _, _. apply H. reflexivity.
  - apply H'. discriminate.
Defined.

(** ** The advection driver *)

Section AdvectionRun.

Import ExAdvection.
Variable L : ExAdvection.Lib.

Lemma linear_solve_umfpack A b x :
  MFEM_USE_SUITESPARSE L = true ->
  linear_solve L A b x
  = (UMFPack_solve L A b x, [UMFPack_SetOperator; UMFPack_Mult b x]).
Proof. intros H. unfold linear_solve. by rewrite H. Qed.

Lemma linear_solve_count A b x :
  length (List.filter is_linear_solve (snd (linear_solve L A b x))) = 1%nat.
Proof. unfold linear_solve. by destruct (MFEM_USE_SUITESPARSE L). Qed.

End AdvectionRun.

(** X21: the option [cutsize] of exAdvection has no effect: two runs whose
    options agree on [order] and [N] return the same status and make the
    same calls, apart from the echo of the options by PrintOptions. *)
Theorem X21_cutsize_unused (L : ExAdvection.Lib)
    (o o' : ExAdvection.Options) :
  ExAdvection.order o = ExAdvection.order o' ->
  ExAdvection.N o = ExAdvection.N o' ->
  fst (ExAdvection.solve L o) = fst (ExAdvection.solve L o') /\
  exists rest,
    snd (ExAdvection.solve L o) = ExAdvection.PrintOptions o :: rest /\
    snd (ExAdvection.solve L o') = ExAdvection.PrintOptions o' :: rest.
Proof.
  destruct o as [ord c n], o' as [ord' c' n']. simpl.
  intros <- <-. split; [reflexivity|].
  eexists. split; reflexivity.
Qed.

Lemma X21_cutsize_unused_witness :
  fst (ExAdvection.solve (Ex.advection_lib false) ExAdvection.default_options)
  = fst (ExAdvection.solve (Ex.advection_lib false)
           {| ExAdvection.order := 1; ExAdvection.cutsize := 5;
              ExAdvection.N := 20 |}).
Proof.
  pose proof (X21_cutsize_unused (Ex.advection_lib false)
                ExAdvection.default_options
                {| ExAdvection.order := 1; ExAdvection.cutsize := 5;
                   ExAdvection.N := 20 |} eq_refl eq_refl) as [H _].
  exact H.
Defined.

(** X22: a run of exAdvection solves the linear system exactly once.  In
    a build with SuiteSparse it makes no GMRES or Gauss-Seidel call: it
    sets the operator of the UMFPACK solver and then calls its Mult with
    the assembled right-hand side and the projection of the exact solution
    in x, and the L2 error is computed on what UMFPACK returns. *)
Theorem X22_suitesparse_build (L : ExAdvection.Lib) (argv : list string) :
  fst (ExAdvection.Parse L argv ExAdvection.default_options) = true ->
  let o := snd (ExAdvection.Parse L argv ExAdvection.default_options) in
  let calls := snd (ExAdvection.main L argv) in
  let fespace := ExAdvection.var_fespace L o in
  let u := ExAdvection.var_u L in
  let b := ExAdvection.AssembleLF L fespace (ExAdvection.var_b L o) in
  let A := ExAdvection.AssembleBF L fespace (ExAdvection.var_a L o) in
  let x0 := ExAdvection.Project L fespace (ExAdvection.var_x_new L o) u in
  count_calls is_linear_solve calls = 1%nat /\
  (ExAdvection.MFEM_USE_SUITESPARSE L = true ->
   Forall (fun c => is_gmres_branch c = false) calls /\
   called_before (ExAdvection.ProjectCoefficient (ExAdvection.var_x_new L o) u)
     ExAdvection.UMFPack_SetOperator calls /\
   called_before ExAdvection.UMFPack_SetOperator
     (ExAdvection.UMFPack_Mult b x0) calls /\
   called_before (ExAdvection.UMFPack_Mult b x0)
     (ExAdvection.ComputeL2Error (ExAdvection.UMFPack_solve L A b x0) u)
     calls /\
   (forall x' c, ExAdvection.ComputeL2Error x' c ∈ calls ->
      x' = ExAdvection.UMFPack_solve L A b x0 /\ c = u)).
Proof.
  intros Hgood o calls fespace u b A x0.
  assert (calls = snd (ExAdvection.solve L o)) as ->.
  { subst calls. by rewrite advection_main_good. }
  split.
  - rewrite advection_solve_calls. rewrite !count_calls_app.
    unfold count_calls at 2. rewrite linear_solve_count. reflexivity.
  - intros Hbuild.
    assert (ExAdvection.var_x L o = ExAdvection.UMFPack_solve L A b x0) as Hx.
    { unfold ExAdvection.var_x. by rewrite linear_solve_umfpack. }
    split; [|split; [|split; [|split]]].
    + rewrite advection_solve_calls, linear_solve_umfpack by done.
      by repeat constructor.
    + rewrite advection_solve_calls, linear_solve_umfpack by done.
      unfold called_before.
      eexists [_; _; _; _; _; _; _; _], [], _. reflexivity.
    + rewrite advection_solve_calls, linear_solve_umfpack by done.
      unfold called_before.
      eexists [_; _; _; _; _; _; _; _; _], [], _. reflexivity.
    + rewrite <- Hx.
      rewrite advection_solve_calls, linear_solve_umfpack by done.
      unfold called_before.
      eexists [_; _; _; _; _; _; _; _; _; _], [_; _], _. reflexivity.
    + intros x' c Hin. rewrite <- Hx. by apply l2_error_args.
Qed.

Lemma X22_suitesparse_build_witness :
  count_calls is_linear_solve
    (snd (ExAdvection.main (Ex.advection_lib true) [])) = 1%nat /\
  Forall (fun c => is_gmres_branch c = false)
    (snd (ExAdvection.main (Ex.advection_lib true) [])).
Proof.
  pose proof (X22_suitesparse_build (Ex.advection_lib true) [] eq_refl)
    as (H1 & H2).
  split; [exact H1|]. by destruct (H2 eq_refl) as (H & _).
Defined.

(** ** The distance driver: standard output *)

Section DistanceStdout.

Import Distance.
Variable L : Distance.Lib.

Lemma select_fec_quiet o dim pmesh :
  (myid L =? 0)%Z = false -> snd (select_fec L o dim pmesh) = [].
Proof.
  intros E. unfold select_fec. rewrite E.
  destruct (0 <? order o)%Z; [done|].
  by destruct (GetNodes_OwnFEC L pmesh).
Qed.

Lemma solve_quiet o :
  (myid L =? 0)%Z = false ->
  Forall (fun c => writes_stdout c = false) (snd (solve L o)).
Proof.
  intros E.
  rewrite solve_calls, report_errors_calls, select_fec_quiet by done.
  rewrite !when_calls, E.
  destruct (select_exact_dist L o); rewrite ?when_calls, ?E;
    calls_forall; done.
Qed.

Lemma solve_prints_options o :
  myid L = 0%Z -> PrintOptions o ∈ snd (solve L o).
Proof.
  intros E. rewrite solve_calls, when_calls, E.
  apply elem_of_app. left. apply list_elem_of_here.
Qed.

End DistanceStdout.

(** X23: of the processes of a run of the distance program only the one
    of rank 0 writes to standard output: on any other rank the driver makes
    no PrintUsage, PrintOptions, Device::Print or cout call, whatever the
    arguments, while on rank 0 a run with parsed options echoes them. *)
Theorem X23_only_rank_zero_prints (L : Distance.Lib) (argv : list string) :
  let calls := snd (Distance.main L argv) in
  (Distance.myid L <> 0%Z ->
   Forall (fun c => writes_stdout c = false) calls) /\
  (Distance.myid L = 0%Z ->
   fst (Distance.Parse L argv Distance.default_options) = true ->
   Distance.PrintOptions (snd (Distance.Parse L argv Distance.default_options))
     ∈ calls).
Proof.
  intros calls. subst calls. split.
  - intros Hid. apply Z.eqb_neq in Hid.
    destruct (fst (Distance.Parse L argv Distance.default_options)) eqn:Hgood.
    + rewrite main_good by done. cbn [snd].
      constructor; [done|]. by apply solve_quiet.
    + destruct (distance_parse_failure L argv Hgood) as (_ & -> & _).
      rewrite Hid. by repeat constructor.
  - intros Hid Hgood. rewrite main_good by done. cbn [snd].
    apply list_elem_of_further. by apply solve_prints_options.
Qed.

Lemma X23_only_rank_zero_prints_witness :
  Forall (fun c => writes_stdout c = false)
    (snd (Distance.main (Ex.distance_lib 1) Ex.scenario_A)) /\
  Distance.PrintOptions
    (snd (Distance.Parse (Ex.distance_lib 0) Ex.scenario_A
            Distance.default_options))
    ∈ snd (Distance.main (Ex.distance_lib 0) Ex.scenario_A).
Proof.
  pose proof (X23_only_rank_zero_prints (Ex.distance_lib 1) Ex.scenario_A)
    as [H _].
  pose proof (X23_only_rank_zero_prints (Ex.distance_lib 0) Ex.scenario_A)
    as [_ H'].
  split; [apply H; discriminate|apply H'; reflexivity].
Defined.

(** ** The two boundary integrators together *)

(** X24: on a boundary face the matrix integrator and the inflow
    right-hand side integrator integrate with the same quadrature rule
    when they were given the same one or none: without a rule both ask
    [IntRules] for the face geometry at order OrderW + 2 * order, plus one
    on a Pk space. *)
Theorem X24_boundary_rules_agree
    (IntRules_Get : Geometry -> Z -> IntegrationRule)
    (I : DGFaceIntegrator) (B : BoundaryAdvectIntegrator)
    (el1 el2 : FiniteElement) (Trans : FaceElementTransformations) :
  (Elem2No Trans < 0)%Z ->
  dg_IntRule I = ba_IntRule B ->
  face_rule IntRules_Get I el1 el2 Trans = rhs_rule IntRules_Get B el1 Trans /\
  (dg_IntRule I = None ->
   face_rule IntRules_Get I el1 el2 Trans
   = IntRules_Get (FaceGeom Trans)
       (OrderW (Elem1 Trans) + 2 * GetOrder el1
        + (if FunctionSpace_eqb (Space el1) Pk then 1 else 0))%Z).
Proof.
  intros Hb HI. unfold face_rule, rhs_rule, face_order, rhs_order.
  rewrite <- HI.
  destruct (0 <=? Elem2No Trans)%Z eqn:E; [apply Z.leb_le in E; lia|].
  split; [done|]. intros ->.
  destruct (FunctionSpace_eqb (Space el1) Pk); f_equal; lia.
Qed.

Lemma X24_boundary_rules_agree_witness :
  face_rule Ex.IntRules Ex.dg Ex.segment Ex.segment Ex.bdr_left
  = rhs_rule Ex.IntRules (Ex.inflow (ConstantCoefficient 5)) Ex.segment
      Ex.bdr_left.
Proof.
  pose proof (X24_boundary_rules_agree Ex.IntRules Ex.dg
                (Ex.inflow (ConstantCoefficient 5)) Ex.segment Ex.segment
                Ex.bdr_left eq_refl eq_refl) as [H _].
  exact H.
Defined.

(** X25: the upwind weights split the normal flux of a quadrature point:
    the element-1 and element-2 weights of [AssembleFaceMatrix] add up to
    ip.weight * un and their product is zero, so a point never feeds both
    elements; and the weight of the inflow right-hand side is minus the
    element-2 weight times uD: on a boundary face the prescribed value
    takes the place of the missing neighbour. *)
Theorem X25_upwind_flux_split (B : BoundaryAdvectIntegrator)
    (st : RhsState) (ip : IntegrationPoint) (un : Q) :
  upwind_w1 ip un + upwind_w2 ip un == ip_weight ip * un /\
  upwind_w1 ip un * upwind_w2 ip un == 0 /\
  ip_weight ip * inflow_w un == - upwind_w2 ip un /\
  rhs_weight B st ip
  == - upwind_w2 ip (rhs_un B st ip)
     * Eval (ba_uD B) (Elem1 (rs_Trans st)) (Loc1 (rs_Trans st) ip).
Proof.
  unfold rhs_weight, upwind_w1, upwind_w2, inflow_w.
  repeat split; try ring.
  destruct (Qlt_le_dec un 0) as [Hlt|Hge].
  - rewrite Qabs_neg by (by apply Qlt_le_weak). ring.
  - rewrite Qabs_pos by done. ring.
Qed.
